(** * music_visualizer.py: radial spectrum visualizer

    A shallow embedding of [music_visualizer.py] and the properties of its
    analysis and rendering pipeline.

    Number model.  Python [int]s are [Z].  NumPy/Python floating-point values
    are modelled by real numbers ([R]): comparisons, [min]/[max], clipping
    and index computations are the ones of the source.  Where a float ends
    up as an integer ([int] or [round]: the length of the zero-filled
    window, the glow alpha, the size the background is scaled to), every
    float operation on the way is rounded to binary64 ([fl64], and [fl64Q]
    on rationals, which evaluates); elsewhere the rounding of the individual
    float32/float64 operations is not modelled.  Infinities and NaN are
    outside the model. *)

From Stdlib Require Import String Reals Lra Lia Psatz ZArith QArith Qround Qabs Qpower
  Qreals Bool List.
Import ListNotations.

Open Scope R_scope.

(** ** Exceptions: [None] is a raised Python exception *)

Definition obind {A B} (m : option A) (k : A -> option B) : option B :=
  match m with Some a => k a | None => None end.

Notation "x <- m ;; k" := (obind m (fun x => k))
  (at level 61, m at next level, right associativity).

(** ** Comparisons on floats, as booleans *)

Definition Rleb (x y : R) : bool := if Rle_dec x y then true else false.
Definition Rltb (x y : R) : bool := if Rlt_dec x y then true else false.

(** ** The NumPy operations the program calls *)

Module Np.

(** [np.zeros(n)]: [ValueError] on a negative dimension. *)
Definition zeros (n : Z) : option (list R) :=
  if (n <? 0)%Z then None else Some (repeat 0 (Z.to_nat n)).

(** [a[mask]] with a boolean mask: [IndexError] unless the mask has the
    length of [a]. *)
Fixpoint bool_index {A} (a : list A) (mask : list bool) : option (list A) :=
  match a, mask with
  | [], [] => Some []
  | x :: a', b :: mask' =>
      r <- bool_index a' mask' ;;
      Some (if b then x :: r else r)
  | _, _ => None
  end.

(** [np.any(mask)]. *)
Definition any (mask : list bool) : bool := existsb (fun b => b) mask.

(** [np.searchsorted(a, key, side="right")]: NumPy's binary search.
    The loop keeps [lo <= hi]; [a[mid] <= key] moves [lo] past [mid],
    otherwise [hi] drops to [mid].  Every iteration shrinks [hi - lo], so
    [length a] iterations are enough. *)
Fixpoint binsearch_right (fuel : nat) (a : list R) (key : R) (lo hi : nat) : nat :=
  match fuel with
  | O => lo
  | S fuel' =>
      if (lo <? hi)%nat then
        let mid := (lo + (hi - lo) / 2)%nat in
        if Rleb (nth mid a 0) key
        then binsearch_right fuel' a key (S mid) hi
        else binsearch_right fuel' a key lo mid
      else lo
  end.

Definition searchsorted_right (a : list R) (key : R) : Z :=
  Z.of_nat (binsearch_right (length a) a key 0 (length a)).

(** [np.clip(i, lo, hi)] is [minimum(maximum(i, lo), hi)]. *)
Definition clip (i lo hi : Z) : Z := Z.min (Z.max i lo) hi.

(** Index resolution of [out[i]]: negative indices count from the end,
    anything outside [-n .. n-1] is an [IndexError]. *)
Definition resolve (n : nat) (i : Z) : option nat :=
  if ((0 <=? i) && (i <? Z.of_nat n))%Z%bool then Some (Z.to_nat i)
  else if ((- Z.of_nat n <=? i) && (i <? 0))%Z%bool then Some (Z.to_nat (i + Z.of_nat n))
  else None.

Fixpoint add_nth (out : list R) (i : nat) (v : R) : list R :=
  match out, i with
  | [], _ => []
  | x :: out', O => (x + v) :: out'
  | x :: out', S i' => x :: add_nth out' i' v
  end.

(** [np.add.at(out, idx, m)]: unbuffered, so repeated indices accumulate. *)
Fixpoint add_at (out : list R) (idx : list Z) (m : list R) : option (list R) :=
  match idx, m with
  | [], [] => Some out
  | i :: idx', v :: m' =>
      j <- resolve (length out) i ;;
      add_at (add_nth out j v) idx' m'
  | _, _ => None
  end.

(** [np.log1p]. *)
Definition log1p (x : R) : R := ln (1 + x).

(** [np.pad(a, (l, r), mode="edge")]. *)
Definition pad_edge (a : list R) (l r : nat) : list R :=
  repeat (hd 0 a) l ++ a ++ repeat (last a 0) r.

(** Pointwise sum of two sequences, the longer one giving the length. *)
Fixpoint padd (a b : list R) : list R :=
  match a, b with
  | [], _ => b
  | _, [] => a
  | x :: a', y :: b' => (x + y) :: padd a' b'
  end.

(** The full discrete convolution, [full[n] = sum_m a[m] * v[n-m]]. *)
Fixpoint convolve_full (a v : list R) : list R :=
  match a with
  | [] => []
  | x :: a' =>
      match v with
      | [] => []
      | _ => padd (map (Rmult x) v) (0 :: convolve_full a' v)
      end
  end.

(** [np.convolve(a, v, mode="same")]: the middle [max(M, N)] entries of the
    full convolution, starting [min(M,N) - 1 - min(M,N) / 2] entries in. *)
Definition convolve_same (a v : list R) : list R :=
  let M := length a in
  let N := length v in
  let s := Nat.min M N in
  firstn (Nat.max M N) (skipn (s - 1 - s / 2) (convolve_full a v)).

(** [a[l:-r]] for positive [l] and [r]. *)
Definition slice_inner {A} (a : list A) (l r : nat) : list A :=
  firstn (length a - l - r) (skipn l a).

(** [a.max()]: [ValueError] on an empty array. *)
Definition amax (a : list R) : option R :=
  match a with
  | [] => None
  | x :: a' => Some (fold_left Rmax a' x)
  end.

(** Sum of a sequence. *)
Definition sum (a : list R) : R := fold_right Rplus 0 a.

(** [a.mean(axis=1)] of a two-dimensional array, row by row. *)
Definition mean_rows (rows : list (list R)) : list R :=
  map (fun row => sum row / INR (length row)) rows.

(** [a * b] on arrays of one length. *)
Fixpoint mul (a b : list R) : list R :=
  match a, b with
  | x :: a', y :: b' => (x * y) :: mul a' b'
  | _, _ => []
  end.

(** [np.hanning(M)]: empty below 1, [[1]] at 1, and otherwise
    [0.5 + 0.5 * cos(pi * n / (M - 1))] over [n = 1-M, 3-M, ..., M-1]. *)
Definition hanning (M : nat) : list R :=
  match M with
  | O => []
  | S O => [1]
  | _ => map (fun k => 1 / 2 + 1 / 2 *
                 cos (PI * (1 - INR M + 2 * INR k) / (INR M - 1)))
             (seq 0 M)
  end.

(** [np.fft.rfft]: bins [0 .. n/2] of the discrete Fourier transform,
    [X_k = sum_j x_j * exp(-2 pi i j k / n)], as (real, imaginary) pairs. *)
Definition dft_bin (x : list R) (k : nat) : R * R :=
  let n := INR (length x) in
  let js := seq 0 (length x) in
  (sum (map (fun '(j, xj) => xj * cos (2 * PI * INR j * INR k / n)) (combine js x)),
   - sum (map (fun '(j, xj) => xj * sin (2 * PI * INR j * INR k / n)) (combine js x))).

Definition rfft (x : list R) : list (R * R) :=
  map (dft_bin x) (seq 0 (length x / 2 + 1)).

(** [np.abs] of a complex number. *)
Definition cabs (z : R * R) : R := sqrt (fst z * fst z + snd z * snd z).

(** [np.fft.rfftfreq(n, d)]: [arange(0, n // 2 + 1) * (1.0 / (n * d))]. *)
Definition rfftfreq (n : nat) (d : R) : list R :=
  let val := 1 / (INR n * d) in
  map (fun k => INR k * val) (seq 0 (n / 2 + 1)).

(** [np.linspace(start, stop, num, endpoint)]: [ValueError] on a negative
    [num]; [arange(0, num) * step + start] with [step = (stop - start) / div],
    [div = num - 1] with the endpoint (the last entry is then overwritten by
    [stop]) and [div = num] without.  With [div = 0] the only entry is
    [start]. *)
Definition set_last (a : list R) (v : R) : list R :=
  match a with
  | [] => []
  | _ => removelast a ++ [v]
  end.

Definition linspace (start stop : R) (num : Z) (endpoint : bool) : option (list R) :=
  if (num <? 0)%Z then None else
  let n := Z.to_nat num in
  let div := if endpoint then (n - 1)%nat else n in
  let step := (stop - start) / INR div in
  let y := map (fun i => INR i * step + start) (seq 0 n) in
  Some (if endpoint && (1 <? n)%nat then set_last y stop else y).

Definition log10 (x : R) : R := ln x / ln 10.

(** [np.logspace(start, stop, num, base=10.0)]. *)
Definition logspace (start stop : R) (num : Z) : option (list R) :=
  y <- linspace start stop num true ;;
  Some (map (fun e => Rpower 10 e) y).

Definition set_first (a : list R) (v : R) : list R :=
  match a with
  | [] => []
  | _ :: a' => v :: a'
  end.

(** [np.geomspace(start, stop, num)] for positive [start] and [stop] (the
    program passes [1 <= start < stop]; the sign rotation NumPy applies to
    negative arguments is left out): [ValueError] on a zero argument, a
    [logspace] between the decimal logarithms, and both endpoints
    overwritten by the arguments. *)
Definition geomspace (start stop : R) (num : Z) : option (list R) :=
  if Req_dec_T start 0 then None else
  if Req_dec_T stop 0 then None else
  result <- logspace (log10 start) (log10 stop) num ;;
  let result := if (0 <? num)%Z then set_first result start else result in
  let result := if (1 <? num)%Z then set_last result stop else result in
  Some result.

(** [x ** y] for a base [x >= 0] and an exponent [y > 0]. *)
Definition power (x y : R) : R :=
  if Req_dec_T x 0 then 0 else Rpower x y.

(** [np.clip] on a float. *)
Definition clipR (x lo hi : R) : R := Rmin (Rmax x lo) hi.

End Np.

(** ** Band aggregator ([spectrum_to_bands], lines 136-157) *)

(** Lines 137-145: the running sums per band, before compression. *)
Definition band_index (edges : list R) (bands : Z) (f : R) : Z :=
  Np.clip (Np.searchsorted_right edges f - 1) 0 (bands - 1).

Definition band_mask (edges : list R) (freqs : list R) : option (list bool) :=
  e0 <- nth_error edges 0 ;;
  elast <- nth_error edges (length edges - 1) ;;
  Some (map (fun f => Rleb e0 f && Rleb f elast) freqs).

Inductive accumulated :=
| NoBins (out : list R)      (* the early [return out] of line 141 *)
| Sums (out : list R).       (* [out] after [np.add.at] *)

Definition accumulate_bands (freqs mags edges : list R) : option accumulated :=
  let bands := (Z.of_nat (length edges) - 1)%Z in
  out <- Np.zeros bands ;;
  mask <- band_mask edges freqs ;;
  if negb (Np.any mask) then Some (NoBins out) else
  f <- Np.bool_index freqs mask ;;
  m <- Np.bool_index mags mask ;;
  let idx := map (band_index edges bands) f in
  out <- Np.add_at out idx m ;;
  Some (Sums out).

(** Lines 148-153: the moving average over 9 bands. *)
Definition smooth (out : list R) (bands : Z) : list R :=
  if (9 <=? bands)%Z then
    let k := 9%nat in
    let pad := (k / 2)%nat in
    let kernel := map (fun x => x / 9) (repeat 1 k) in
    let padded := Np.pad_edge out pad pad in
    Np.slice_inner (Np.convolve_same padded kernel) pad pad
  else out.

(** Lines 154-156: peak normalisation. *)
Definition normalise (out : list R) : option (list R) :=
  mx <- Np.amax out ;;
  Some (if Rltb (1 / 100000000) mx then map (fun x => x / mx) out else out).

Definition spectrum_to_bands (freqs mags edges : list R) : option (list R) :=
  acc <- accumulate_bands freqs mags edges ;;
  match acc with
  | NoBins out => Some out
  | Sums out =>
      let bands := (Z.of_nat (length edges) - 1)%Z in
      let out := map Np.log1p out in
      let out := smooth out bands in
      normalise out
  end.

(** ** Python numbers *)

(** [int(x)] of a float truncates towards zero. *)
Definition py_int (x : R) : Z :=
  if Rle_dec 0 x then Int_part x else (- Int_part (- x))%Z.

(** [int(q)] and [round(q)] on an exactly known rational: truncation towards
    zero, and rounding to the nearest integer with ties to the even one. *)
Definition Qint (q : Q) : Z :=
  if Qle_bool 0 q then Qfloor q else Qceiling q.

Definition Qpy_round (q : Q) : Z :=
  let f := Qfloor q in
  match (q - inject_Z f) ?= (1 # 2) with
  | Lt => f
  | Gt => (f + 1)%Z
  | Eq => if Z.even f then f else (f + 1)%Z
  end%Q.

(** [round(x)] on a float: to the nearest integer, ties to the even one. *)
Definition py_round (x : R) : Z :=
  let f := Int_part x in
  if Rltb (x - IZR f) (1 / 2) then f
  else if Rltb (1 / 2) (x - IZR f) then (f + 1)%Z
  else if Z.even f then f else (f + 1)%Z.

(** ** binary64

    The double nearest to a number, ties going to the even mantissa: a
    number with [2^e <= |x| < 2^(e+1)] is rounded to a multiple of
    [2^(e-52)], and to a multiple of [2^-1074] below [2^-1022].  The
    overflow to infinity from [2^1024] on is not modelled. *)

(** [floor(log2 |q|)] of a rational [q <> 0]. *)
Definition Qilog2 (q : Q) : Z :=
  let k := (Z.log2 (Z.abs (Qnum q)) - Z.log2 (Zpos (Qden q)))%Z in
  if Qle_bool (2 ^ k) (Qabs q) then k else (k - 1)%Z.

Definition Qulp (q : Q) : Q := (2 ^ (Z.max (Qilog2 q) (-1022) - 52))%Q.

Definition fl64Q (q : Q) : Q :=
  if Qeq_bool q 0 then 0%Q
  else Qred (inject_Z (Qpy_round (q / Qulp q)) * Qulp q).

(** The same on a real number. *)
Definition ilog2 (x : R) : Z := Int_part (ln (Rabs x) / ln 2).

Definition ulp (x : R) : R := powerRZ 2 (Z.max (ilog2 x) (-1022) - 52).

Definition fl64 (x : R) : R :=
  if Req_dec_T x 0 then 0 else IZR (py_round (x / ulp x)) * ulp x.

(** [x / y] on two floats, and on two [int]s: [ZeroDivisionError] on a zero
    divisor, and otherwise the double nearest to the quotient. *)
Definition Qdiv_py (x y : Q) : option Q :=
  if Qeq_bool y 0 then None else Some (fl64Q (x / y)).

(** ** Configuration (lines 19-44)

    The module-level constants.  The functions read them when they are
    called, so they are passed along as one record. *)

Record Config := {
  W : Z;  H : Z;  FPS : Z;
  BASE_RADIUS : Z;  SPOKES : Z;  BAR_THICKNESS : Z;
  BAR_MIN : Z;  BAR_MAX_EXTRA : Z;
  BASE_RING_ON : bool;  BASE_RING_W : Z;
  GLOW_ON : bool;  GLOW_STEPS : Z;  GLOW_ALPHA : Z;  GLOW_EXPAND : Z;
  WINDOW_SEC : R;  LOW_HZ : Z;  HIGH_HZ : Z;  SR : Z
}.

(** The values the script sets. *)
Definition script_config : Config := {|
  W := 3840;  H := 2160;  FPS := 60;
  BASE_RADIUS := 220;  SPOKES := 360;  BAR_THICKNESS := 2;
  BAR_MIN := 4;  BAR_MAX_EXTRA := 70;
  BASE_RING_ON := true;  BASE_RING_W := 1;
  GLOW_ON := false;  GLOW_STEPS := 0;  GLOW_ALPHA := 80;  GLOW_EXPAND := 2;
  WINDOW_SEC := 1 / 10;  LOW_HZ := 30;  HIGH_HZ := 12000;  SR := 44100
|}.

(** [CENTER = (W // 2, H // 2.5)]: an integer and a float floor division. *)
Definition CENTER (cfg : Config) : R * R :=
  (IZR (W cfg / 2), IZR (Qfloor (inject_Z (H cfg) / (5 # 2)))).

(** ** Band edge calculator ([compute_band_edges], lines 126-132) *)

Definition compute_band_edges (sr low high : R) (bands : Z) : option (list R) :=
  let nyq := sr / 2 in
  let hi := Rmin high (nyq - 1) in
  let lo := Rmax 1 (Rmin low (hi - 1)) in
  let hi := if Rleb hi lo then lo + 1 else hi in
  Np.geomspace lo hi (bands + 1).

(** The clamped cutoffs the edges run between. *)
Definition clamped_low (sr low high : R) : R :=
  Rmax 1 (Rmin low (Rmin high (sr / 2 - 1) - 1)).

Definition clamped_high (sr low high : R) : R :=
  let hi := Rmin high (sr / 2 - 1) in
  if Rleb hi (clamped_low sr low high) then clamped_low sr low high + 1 else hi.

(** [BAND_EDGES = compute_band_edges()]. *)
Definition BAND_EDGES (cfg : Config) : option (list R) :=
  compute_band_edges (IZR (SR cfg)) (IZR (LOW_HZ cfg)) (IZR (HIGH_HZ cfg)) (SPOKES cfg).

(** ** Spectral analyzer ([fft_magnitude], lines 117-124) *)

(** [1.0 / sr] raises [ZeroDivisionError] on [sr = 0]. *)
Definition fft_magnitude (sig : list R) (sr : Z) : option (list R * list R) :=
  let n := length sig in
  if (n <=? 1)%nat then Some ([0], [0]) else
  let spec := Np.rfft sig in
  let mags := map Np.cabs spec in
  if (sr =? 0)%Z then None else
  let freqs := Np.rfftfreq n (1 / IZR sr) in
  Some (freqs, mags).

(** ** Audio window extractor (lines 95-115) *)

(** What [to_soundarray] hands back: [arr.ndim] is 1 (mono samples) or
    2 (one row of channels per sample). *)
Inductive soundarray :=
| Arr1 (samples : list R)
| Arr2 (rows : list (list R)).

(** What cutting a range out of a clip gives: an object whose
    [to_soundarray(fps)] hands back the samples, or raises. *)
Definition Subclip := Z -> option soundarray.

(** A MoviePy audio clip: older versions have [subclip], newer ones
    [subclipped]; either cuts the sub-range out, or raises (MoviePy refuses
    a range that starts past the end of the clip).  Decoding is MoviePy's:
    the samples of a range are taken to depend on the range and the rate
    only. *)
Record Clip := {
  subclip : option (R -> R -> option Subclip);
  subclipped : option (R -> R -> option Subclip)
}.

Definition subclip_compat (clip : Clip) (start end_ : R) : option Subclip :=
  match subclip clip with
  | Some f => f start end_
  | None =>
      match subclipped clip with
      | Some g => g start end_
      | None => None
      end
  end.

Section Audio.

Variable cfg : Config.
Variable audio : Clip.
Variable duration : R.

(** The time range lines 103-106 ask for; [1.0 / FPS] raises
    [ZeroDivisionError] on [FPS = 0]. *)
Definition window_range (t win_sec : R) : option (R * R) :=
  let start := Rmax 0 (t - win_sec / 2) in
  let end_ := Rmin duration (t + win_sec / 2) in
  if Rleb end_ start then
    if (FPS cfg =? 0)%Z then None
    else Some (start, Rmin duration (start + Rmax (1 / IZR (FPS cfg)) (1 / 100)))
  else Some (start, end_).

(** The samples of that range, downmixed to mono (lines 107-110). *)
Definition window_samples (t win_sec : R) (sr : Z) : option (list R) :=
  r <- window_range t win_sec ;;
  sub <- subclip_compat audio (fst r) (snd r) ;;
  arr <- sub sr ;;
  Some (match arr with
        | Arr2 rows => Np.mean_rows rows
        | Arr1 a => a
        end).

(** In [int(sr * win_sec)], line 113, the [int] [sr] becomes a float, the
    float [win_sec] is the double nearest to the number it is written as,
    and their product is rounded before [int] truncates it. *)
Definition get_audio_window (t win_sec : R) (sr : Z) : option (list R) :=
  arr <- window_samples t win_sec sr ;;
  let n := length arr in
  if (n =? 0)%nat then Np.zeros (py_int (fl64 (fl64 (IZR sr) * fl64 win_sec)))
  else
    let win := Np.hanning n in
    Some (Np.mul arr win).

End Audio.

(** ** Images (PIL)

    Resampling and rasterisation are PIL's; an image is represented by the
    PIL operations that produced it, which determine its pixels. *)

Definition rgba := (Z * Z * Z * Z)%type.

Inductive DrawOp :=
| Ellipse (box : R * R * R * R) (outline : rgba) (width : Z)
| Line (p0 p1 : R * R) (fill : rgba) (width : Z).

Inductive Image :=
| Opened (path : string) (size : Z * Z)         (* Image.open(path).convert("RGB") *)
| Resized (img : Image) (size : Z * Z)          (* img.resize(size, Image.LANCZOS) *)
| Blank (size : Z * Z)                          (* Image.new("RGB", size, (0, 0, 0)) *)
| Pasted (canvas img : Image) (pos : Z * Z)     (* canvas.paste(img, pos) *)
| Cropped (img : Image) (box : Z * Z * Z * Z)   (* img.crop(box) *)
| ToRGBA (img : Image)                          (* img.convert("RGBA") *)
| ToRGB (img : Image)                           (* img.convert("RGB") *)
| Drawn (img : Image) (op : DrawOp).            (* a draw call on img *)

(** [img.size]. *)
Fixpoint size (img : Image) : Z * Z :=
  match img with
  | Opened _ sz => sz
  | Resized _ sz => sz
  | Blank sz => sz
  | Pasted canvas _ _ => size canvas
  | Cropped _ (l, t, r, b) => (r - l, b - t)%Z
  | ToRGBA i => size i
  | ToRGB i => size i
  | Drawn i _ => size i
  end.

(** [img.resize(size, Image.LANCZOS)]: a copy of the image when [size] is
    the size it has, and otherwise [ValueError] unless both dimensions are
    at least 1. *)
Definition resize (img : Image) (sz : Z * Z) : option Image :=
  let same := ((fst (size img) =? fst sz) && (snd (size img) =? snd sz))%Z in
  if same || ((1 <=? fst sz) && (1 <=? snd sz))%Z then Some (Resized img sz)
  else None.

(** [Image.new("RGB", size, (0, 0, 0))]: [ValueError] on a negative
    dimension. *)
Definition new_image (sz : Z * Z) : option Image :=
  if ((0 <=? fst sz) && (0 <=? snd sz))%Z then Some (Blank sz) else None.

(** [img.crop(box)]: [ValueError] when the box ends before it starts. *)
Definition crop (img : Image) (box : Z * Z * Z * Z) : option Image :=
  let '(l, t, r, b) := box in
  if ((r <? l) || (b <? t))%Z then None else Some (Cropped img box).

(** ** Background fitter ([load_and_fit_background], lines 62-90) *)

Definition Qltb (a b : Q) : bool := negb (Qle_bool b a).

(** An [int] as a float operand. *)
Definition float_of_int (z : Z) : Q := fl64Q (inject_Z z).

(** [x * y] on two floats. *)
Definition Qmul_py (x y : Q) : Q := fl64Q (x * y).

Section Background.

(** The image files: the pixel dimensions of the image stored at a path,
    [None] where [Image.open] fails. *)
Variable files : string -> option (Z * Z).

Definition load_and_fit_background (path : string) (w h : Z) (mode : string)
  : option Image :=
  sz <- files path ;;
  let img := Opened path sz in
  let src_w := fst sz in
  let src_h := snd sz in
  target_ratio <- Qdiv_py (inject_Z w) (inject_Z h) ;;
  src_ratio <- Qdiv_py (inject_Z src_w) (inject_Z src_h) ;;
  if String.eqb mode "contain" then
    new <- (if Qltb target_ratio src_ratio then
              q <- Qdiv_py (float_of_int w) src_ratio ;;
              Some (w, Qpy_round q)
            else
              Some (Qpy_round (Qmul_py (float_of_int h) src_ratio), h)) ;;
    let new_w := fst new in
    let new_h := snd new in
    img_resized <- resize img (new_w, new_h) ;;
    canvas <- new_image (w, h) ;;
    let x := ((w - new_w) / 2)%Z in
    let y := ((h - new_h) / 2)%Z in
    Some (Pasted canvas img_resized (x, y))
  else
    new <- (if Qltb src_ratio target_ratio then
              Some (Qpy_round (Qmul_py (float_of_int h) src_ratio), h)
            else
              q <- Qdiv_py (float_of_int w) src_ratio ;;
              Some (w, Qpy_round q)) ;;
    let new_w := fst new in
    let new_h := snd new in
    img_resized <- resize img (new_w, new_h) ;;
    let x := ((new_w - w) / 2)%Z in
    let y := ((new_h - h) / 2)%Z in
    crop img_resized (x, y, x + w, y + h)%Z.

End Background.

(** [img.crop(box)] fills whatever part of the box lies outside [img] with
    black: the crop is padded exactly when the box leaves the image. *)
Definition crop_is_padded (img : Image) : bool :=
  match img with
  | Cropped src (l, t, r, b) =>
      let '(sw, sh) := size src in
      ((l <? 0) || (t <? 0) || (sw <? r) || (sh <? b))%Z
  | _ => false
  end.

(** ** The mutable objects: PIL images and the band-edge array *)

Definition loc := nat.

Record Store := {
  images : list Image;      (* the image objects, by address *)
  edges_obj : list R        (* the contents of the array BAND_EDGES names *)
}.

(** Computations that read and write the store and may raise. *)
Definition M (A : Type) : Type := Store -> option (A * Store).

Definition ret {A} (a : A) : M A := fun s => Some (a, s).

Definition bind {A B} (m : M A) (k : A -> M B) : M B :=
  fun s => match m s with
           | Some (a, s') => k a s'
           | None => None
           end.

Notation "x <~ m ;; k" := (bind m (fun x => k))
  (at level 61, m at next level, right associativity).
Notation "m ;;; k" := (bind m (fun _ => k))
  (at level 61, right associativity).

Definition lift {A} (o : option A) : M A :=
  fun s => match o with Some a => Some (a, s) | None => None end.

Definition read_edges : M (list R) := fun s => Some (edges_obj s, s).

Definition read_image (l : loc) : M Image :=
  fun s => match nth_error (images s) l with
           | Some img => Some (img, s)
           | None => None
           end.

(** [img.copy()]: a new object with the same contents. *)
Definition image_copy (l : loc) : M loc :=
  fun s => match nth_error (images s) l with
           | Some img =>
               Some (length (images s),
                     {| images := images s ++ [img]; edges_obj := edges_obj s |})
           | None => None
           end.

Fixpoint set_nth {A} (a : list A) (i : nat) (v : A) : list A :=
  match a, i with
  | [], _ => []
  | _ :: a', O => v :: a'
  | x :: a', S i' => x :: set_nth a' i' v
  end.

(** A draw call through [ImageDraw.Draw(img)] changes [img] in place. *)
Definition draw (l : loc) (op : DrawOp) : M unit :=
  fun s => match nth_error (images s) l with
           | Some img =>
               Some (tt, {| images := set_nth (images s) l (Drawn img op);
                            edges_obj := edges_obj s |})
           | None => None
           end.

(** A [for] loop. *)
Fixpoint for_each {A} (xs : list A) (body : A -> M unit) : M unit :=
  match xs with
  | [] => ret tt
  | x :: xs' => body x ;;; for_each xs' body
  end.

(** [range(a, b)]. *)
Definition range (a b : Z) : list Z :=
  map (fun k => (a + Z.of_nat k)%Z) (seq 0 (Z.to_nat (b - a))).

(** ** Radial renderer and frame production (lines 160-202) *)

Section Render.

Variable cfg : Config.
Variable audio : Clip.
Variable duration : R.
Variable BG_BASE : loc.

(** Line 164, per level. *)
Definition bar_height (level : R) : R :=
  IZR (BAR_MIN cfg) + IZR (BAR_MAX_EXTRA cfg) * Np.power (Np.clipR level 0 1) (9 / 10).

(** Lines 167-171: the segment of one spoke. *)
Definition spoke (color : rgba) (w : Z) (th : R * R) : DrawOp :=
  let '(theta, h) := th in
  let cx := fst (CENTER cfg) in
  let cy := snd (CENTER cfg) in
  let x0 := cx + IZR (BASE_RADIUS cfg) * cos theta in
  let y0 := cy + IZR (BASE_RADIUS cfg) * sin theta in
  let x1 := cx + (IZR (BASE_RADIUS cfg) + h) * cos theta in
  let y1 := cy + (IZR (BASE_RADIUS cfg) + h) * sin theta in
  Line (x0, y0) (x1, y1) color w.

Definition draw_spokes (d : loc) (levels : list R) (color : rgba) (width : option Z)
  : M unit :=
  let w := Z.max 1 (match width with None => BAR_THICKNESS cfg | Some w => w end) in
  thetas <~ lift (Np.linspace 0 (2 * PI) (Z.of_nat (length levels)) false) ;;
  let heights := map bar_height levels in
  for_each (combine thetas heights) (fun th => draw d (spoke color w th)).

(** Lines 195-196: width and alpha of glow pass [i]. *)
Definition glow_width (i : Z) : Z := (BAR_THICKNESS cfg + i * GLOW_EXPAND cfg)%Z.

(** [1.0 - (i - 1) / max(1, GLOW_STEPS)]: a float division of two [int]s
    and a float subtraction. *)
Definition glow_fade (i : Z) : Q :=
  fl64Q (1 - fl64Q (inject_Z (i - 1) / inject_Z (Z.max 1 (GLOW_STEPS cfg)))).

Definition glow_alpha (i : Z) : Z :=
  Z.max 0 (Qint (Qmul_py (float_of_int (GLOW_ALPHA cfg)) (glow_fade i))).

(** Lines 175-177. *)
Definition frame_levels (t : R) : M (list R) :=
  sig <~ lift (get_audio_window cfg audio duration t (WINDOW_SEC cfg) (SR cfg)) ;;
  fm <~ lift (fft_magnitude sig (SR cfg)) ;;
  edges <~ read_edges ;;
  lift (spectrum_to_bands (fst fm) (snd fm) edges).

Definition make_frame_rgb (t : R) : M Image :=
  levels <~ frame_levels t ;;
  frame <~ image_copy BG_BASE ;;
  let d := frame in
  (if BASE_RING_ON cfg && (0 <? BASE_RING_W cfg)%Z then
     let cx := fst (CENTER cfg) in
     let cy := snd (CENTER cfg) in
     let r := IZR (BASE_RADIUS cfg) in
     draw d (Ellipse (cx - r, cy - r, cx + r, cy + r)
                     (255, 255, 255, 160)%Z (BASE_RING_W cfg))
   else ret tt) ;;;
  (if GLOW_ON cfg && (0 <? GLOW_STEPS cfg)%Z then
     for_each (range 1 (GLOW_STEPS cfg + 1)) (fun i =>
       let width := glow_width i in
       let alpha := glow_alpha i in
       draw_spokes d levels (255, 255, 255, alpha)%Z (Some width))
   else ret tt) ;;;
  draw_spokes d levels (255, 255, 255, 255)%Z (Some (BAR_THICKNESS cfg)) ;;;
  img <~ read_image frame ;;
  ret (ToRGB img).

End Render.

(** ** Start-up (lines 92 and 134): the objects every frame shares *)

Definition startup (files : string -> option (Z * Z)) (cfg : Config)
    (path mode : string) : option Store :=
  bg <- load_and_fit_background files path (W cfg) (H cfg) mode ;;
  edges <- BAND_EDGES cfg ;;
  Some {| images := [ToRGBA bg]; edges_obj := edges |}.

(** ** Vocabulary of the statements *)

(** Band boundaries in strictly increasing order. *)
Definition strictly_increasing (a : list R) : Prop :=
  forall i j, (i < j < length a)%nat -> nth i a 0 < nth j a 0.

Definition sorted (a : list R) : Prop :=
  forall i j, (i <= j < length a)%nat -> nth i a 0 <= nth j a 0.

(** Band [i] of [B] as the code fills it: [edges[i] <= f < edges[i+1]], the
    last band also taking [f = edges[B]]. *)
Definition in_band (edges : list R) (B i : nat) (f : R) : bool :=
  Rleb (nth i edges 0) f &&
  (Rltb f (nth (S i) edges 0) || ((S i =? B)%nat && Rleb f (nth B edges 0))).

(** Band [i] in the words of the specification: [edges[i] < f <= edges[i+1]],
    the index clamped into [0 .. B-1], so that band 0 also takes
    [f = edges[0]]. *)
Definition in_band_spec (edges : list R) (i : nat) (f : R) : bool :=
  (Rltb (nth i edges 0) f || ((i =? 0)%nat && Rleb (nth 0 edges 0) f)) &&
  Rleb f (nth (S i) edges 0).

(** The total magnitude of the bins a band predicate selects. *)
Definition band_total (sel : R -> bool) (freqs mags : list R) : R :=
  Np.sum (map snd (filter (fun fm => sel (fst fm)) (combine freqs mags))).

Definition sums_of (acc : accumulated) : list R :=
  match acc with NoBins out => out | Sums out => out end.

(** The band rule as the specification words it: band [i] ends with the
    total magnitude of the bins with [edges[i] < f <= edges[i+1]]. *)
Definition spec_band_rule (edges freqs mags : list R) (B : nat) : Prop :=
  forall acc, accumulate_bands freqs mags edges = Some acc ->
  forall i, (i < B)%nat ->
    nth i (sums_of acc) 0 = band_total (in_band_spec edges i) freqs mags.

(** The store with the image at address [l] replaced. *)
Definition set_image (s : Store) (l : loc) (img : Image) : Store :=
  {| images := set_nth (images s) l img; edges_obj := edges_obj s |}.

(** An image after a sequence of draw calls. *)
Definition drawn (img : Image) (ops : list DrawOp) : Image :=
  fold_left Drawn ops img.

(** The bars of one pass, in drawing order: bar [i] of [B] stands at the
    angle [2 pi i / B] and runs from radius [R] to radius [R + h_i]. *)
Definition spoke_ops (cfg : Config) (levels : list R) (color : rgba) (w : Z)
  : list DrawOp :=
  let B := length levels in
  let cx := fst (CENTER cfg) in
  let cy := snd (CENTER cfg) in
  let R := IZR (BASE_RADIUS cfg) in
  map (fun i =>
         let theta := 2 * PI * INR i / INR B in
         let h := bar_height cfg (nth i levels 0) in
         Line (cx + R * cos theta, cy + R * sin theta)
              (cx + (R + h) * cos theta, cy + (R + h) * sin theta)
              color w)
      (seq 0 B).

(** The draw calls of one frame, in order: the base ring, the glow passes
    [1 .. GLOW_STEPS], the sharp pass. *)
Definition ring_ops (cfg : Config) : list DrawOp :=
  if BASE_RING_ON cfg && (0 <? BASE_RING_W cfg)%Z then
    let cx := fst (CENTER cfg) in
    let cy := snd (CENTER cfg) in
    let r := IZR (BASE_RADIUS cfg) in
    [Ellipse (cx - r, cy - r, cx + r, cy + r) (255, 255, 255, 160)%Z (BASE_RING_W cfg)]
  else [].

Definition glow_pass_ops (cfg : Config) (levels : list R) (i : Z) : list DrawOp :=
  spoke_ops cfg levels (255, 255, 255, glow_alpha cfg i)%Z (Z.max 1 (glow_width cfg i)).

Definition glow_ops (cfg : Config) (levels : list R) : list DrawOp :=
  if GLOW_ON cfg && (0 <? GLOW_STEPS cfg)%Z then
    flat_map (glow_pass_ops cfg levels) (range 1 (GLOW_STEPS cfg + 1))
  else [].

Definition sharp_ops (cfg : Config) (levels : list R) : list DrawOp :=
  spoke_ops cfg levels (255, 255, 255, 255)%Z (Z.max 1 (BAR_THICKNESS cfg)).

Definition frame_ops (cfg : Config) (levels : list R) : list DrawOp :=
  ring_ops cfg ++ glow_ops cfg levels ++ sharp_ops cfg levels.

(** The band levels of the frame at [t], as a function of the track and of
    the band edges. *)
Definition levels_at (cfg : Config) (audio : Clip) (duration : R)
    (edges : list R) (t : R) : option (list R) :=
  sig <- get_audio_window cfg audio duration t (WINDOW_SEC cfg) (SR cfg) ;;
  fm <- fft_magnitude sig (SR cfg) ;;
  spectrum_to_bands (fst fm) (snd fm) edges.

(** The glow alpha in the words of the specification, with [round]. *)
Definition glow_alpha_spec (cfg : Config) (i : Z) : Z :=
  Z.max 0 (Qpy_round (inject_Z (GLOW_ALPHA cfg) *
                      (1 - inject_Z (i - 1) / inject_Z (Z.max 1 (GLOW_STEPS cfg))))).

(** A configuration with three glow passes. *)
Definition glow_config : Config := {|
  W := 3840;  H := 2160;  FPS := 60;
  BASE_RADIUS := 220;  SPOKES := 360;  BAR_THICKNESS := 2;
  BAR_MIN := 4;  BAR_MAX_EXTRA := 70;
  BASE_RING_ON := true;  BASE_RING_W := 1;
  GLOW_ON := true;  GLOW_STEPS := 3;  GLOW_ALPHA := 80;  GLOW_EXPAND := 2;
  WINDOW_SEC := 1 / 10;  LOW_HZ := 30;  HIGH_HZ := 12000;  SR := 44100
|}.

(** The same with ten glow passes. *)
Definition ten_pass_config : Config := {|
  W := 3840;  H := 2160;  FPS := 60;
  BASE_RADIUS := 220;  SPOKES := 360;  BAR_THICKNESS := 2;
  BAR_MIN := 4;  BAR_MAX_EXTRA := 70;
  BASE_RING_ON := true;  BASE_RING_W := 1;
  GLOW_ON := true;  GLOW_STEPS := 10;  GLOW_ALPHA := 80;  GLOW_EXPAND := 2;
  WINDOW_SEC := 1 / 10;  LOW_HZ := 30;  HIGH_HZ := 12000;  SR := 44100
|}.

(** A clip whose every range holds one sample, and a store with a 4x4
    background and two band edges. *)
Definition one_sample_clip : Clip :=
  {| subclip := None;
     subclipped := Some (fun _ _ => Some (fun _ => Some (Arr1 [1]))) |}.

(** A clip whose every range holds no sample at all. *)
Definition empty_clip : Clip :=
  {| subclip := Some (fun _ _ => Some (fun _ => Some (Arr1 [])));
     subclipped := None |}.

(** A clip of [D] seconds of silence in two channels, [sr] samples to the
    second, that refuses, as MoviePy does, a range that starts at or after
    its end. *)
Definition silent_stereo (D : R) : Clip :=
  {| subclip := None;
     subclipped := Some (fun a b =>
       if Rleb D a then None
       else Some (fun sr =>
              Some (Arr2 (repeat [0; 0] (Z.to_nat (py_int ((b - a) * IZR sr))))))) |}.

(** The part of MoviePy's contract the script relies on: a range that is
    not empty and lies within the track can be cut out and read at the
    rate [sr]. *)
Definition cuts_inside (audio : Clip) (duration : R) (sr : Z) : Prop :=
  forall a b, 0 <= a < b -> b <= duration ->
    exists sub arr, subclip_compat audio a b = Some sub /\ sub sr = Some arr.

(** The fallback as the specification words it: when the range holds no
    sample, the window is [round(win_sec * sr)] zeros. *)
Definition fallback_rounds (cfg : Config) (audio : Clip) (duration t win_sec : R)
    (sr : Z) : Prop :=
  window_samples cfg audio duration t win_sec sr = Some [] ->
  get_audio_window cfg audio duration t win_sec sr =
  Some (repeat 0 (Z.to_nat (py_round (win_sec * IZR sr)))).

Definition small_store : Store :=
  {| images := [ToRGBA (Blank (4, 4)%Z)]; edges_obj := [1; 2] |}.

(** A directory whose every image file is 100 by 100 pixels, one whose
    every image file is 1024 by 478 pixels, and one whose every image file
    is 10000 pixels wide and 1 pixel high. *)
Definition square_files (path : string) : option (Z * Z) := Some (100, 100)%Z.

Definition wide_files (path : string) : option (Z * Z) := Some (1024, 478)%Z.

Definition strip_files (path : string) : option (Z * Z) := Some (10000, 1)%Z.

(** A bar of a pass: a line of the given colour and width that starts on
    the circle of radius [BASE_RADIUS] around the centre, points away from
    the centre, and ends [h] further out, [h] between [BAR_MIN] and
    [BAR_MIN + BAR_MAX_EXTRA]. *)
Definition radial_bar (cfg : Config) (color : rgba) (w : Z) (op : DrawOp) : Prop :=
  match op with
  | Line (x0, y0) (x1, y1) fill width =>
      let cx := fst (CENTER cfg) in
      let cy := snd (CENTER cfg) in
      let r := IZR (BASE_RADIUS cfg) in
      fill = color /\ width = w /\
      (x0 - cx) * (x0 - cx) + (y0 - cy) * (y0 - cy) = r * r /\
      exists h,
        IZR (BAR_MIN cfg) <= h <= IZR (BAR_MIN cfg) + IZR (BAR_MAX_EXTRA cfg) /\
        (x1 - cx) * (x1 - cx) + (y1 - cy) * (y1 - cy) = (r + h) * (r + h) /\
        (x1 - cx) * r = (x0 - cx) * (r + h) /\
        (y1 - cy) * r = (y0 - cy) * (r + h)
  | Ellipse _ _ _ => False
  end.

(** The bound on the last edge as the specification words it, for a
    sample rate above 2. *)
Definition last_edge_below_nyquist (sr low high : R) (B : nat) : Prop :=
  2 < sr -> (1 <= B)%nat ->
  exists edges, compute_band_edges sr low high (Z.of_nat B) = Some edges /\
    nth B edges 0 < sr / 2.

(* ================================================================== *)
(** * Proofs *)

(** ** Comparisons *)

Lemma Rleb_true x y : Rleb x y = true <-> x <= y.
Proof. unfold Rleb; destruct (Rle_dec x y); split; auto; discriminate. Qed.

Lemma Rleb_false x y : Rleb x y = false <-> y < x.
Proof.
  unfold Rleb; destruct (Rle_dec x y); split; trivial; try discriminate; lra.
Qed.

Lemma Rltb_true x y : Rltb x y = true <-> x < y.
Proof. unfold Rltb; destruct (Rlt_dec x y); split; auto; discriminate. Qed.

Lemma Rltb_false x y : Rltb x y = false <-> y <= x.
Proof.
  unfold Rltb; destruct (Rlt_dec x y); split; trivial; try discriminate; lra.
Qed.

(** Decide the float comparisons of a goal whose operands are numerals. *)
Ltac Rcmp :=
  repeat match goal with
         | |- context [Rleb ?a ?b] =>
             let E := fresh in
             first [ assert (E : Rleb a b = true) by (apply Rleb_true; lra)
                   | assert (E : Rleb a b = false) by (apply Rleb_false; lra) ];
             rewrite E; clear E
         | |- context [Rltb ?a ?b] =>
             let E := fresh in
             first [ assert (E : Rltb a b = true) by (apply Rltb_true; lra)
                   | assert (E : Rltb a b = false) by (apply Rltb_false; lra) ];
             rewrite E; clear E
         end.

(** Evaluate a goal over numerals. *)
Ltac Reval := repeat (progress (simpl; Rcmp)).

(** ** Rounding to integers and to binary64 *)

Lemma Qpow2_pos z : (0 < 2 ^ z)%Q.
Proof. apply Qpower_0_lt. reflexivity. Qed.

Lemma Qpow2_succ z : (2 ^ (z + 1) == 2 * 2 ^ z)%Q.
Proof. rewrite Qpower_plus by discriminate. change (2 ^ 1)%Q with 2%Q. ring. Qed.

Lemma Qilog2_spec q : ~ (q == 0)%Q ->
  (2 ^ Qilog2 q <= Qabs q /\ Qabs q < 2 ^ (Qilog2 q + 1))%Q.
Proof.
  intros Hq. unfold Qilog2.
  destruct q as [n d]. cbn [Qnum Qden].
  assert (Hn : (0 < Z.abs n)%Z).
  { assert (n <> 0%Z); [|lia]. intros ->. apply Hq. reflexivity. }
  set (a := Z.log2 (Z.abs n)). set (b := Z.log2 (Zpos d)).
  assert (Ha : (0 <= a)%Z) by apply Z.log2_nonneg.
  assert (Hb : (0 <= b)%Z) by apply Z.log2_nonneg.
  destruct (Z.log2_spec (Z.abs n) Hn) as [Ha1 Ha2]. fold a in Ha1, Ha2.
  destruct (Z.log2_spec (Zpos d) ltac:(lia)) as [Hb1 Hb2]. fold b in Hb1, Hb2.
  rewrite Zle_Qle, Zpower_Qpower in Ha1, Hb1 by lia.
  rewrite Zlt_Qlt, Zpower_Qpower in Ha2, Hb2 by lia.
  change (inject_Z 2) with 2%Q in *.
  replace (Z.succ a) with (a + 1)%Z in Ha2 by lia.
  replace (Z.succ b) with (b + 1)%Z in Hb2 by lia.
  set (x := Qabs (n # d)).
  assert (Ex : (x * inject_Z (Zpos d) == inject_Z (Z.abs n))%Q).
  { unfold x. simpl. unfold Qeq, Qmult, inject_Z. simpl. lia. }
  set (k := (a - b)%Z).
  assert (Ek : (2 ^ a == 2 ^ k * 2 ^ b)%Q).
  { unfold k. rewrite Qpower_minus by discriminate. field.
    apply Qpower_not_0. discriminate. }
  pose proof (Qpow2_pos k) as Pk. pose proof (Qpow2_pos b) as Pb.
  pose proof (Qpow2_pos (k - 1)) as Pk1.
  pose proof (Qpow2_succ a) as Sa. pose proof (Qpow2_succ b) as Sb.
  pose proof (Qpow2_succ k) as Sk.
  assert (Sk1 : (2 ^ k == 2 * 2 ^ (k - 1))%Q).
  { rewrite <- Qpow2_succ. now replace (k - 1 + 1)%Z with k by lia. }
  assert (Hx : (0 <= x)%Q) by apply Qabs_nonneg.
  assert (Hup : (x < 2 ^ (k + 1))%Q).
  { destruct (Qlt_le_dec x (2 ^ (k + 1))) as [H|H]; [exact H|]. exfalso. nra. }
  assert (Hlo : (2 ^ (k - 1) <= x)%Q).
  { destruct (Qlt_le_dec x (2 ^ (k - 1))) as [H|H]; [|exact H]. exfalso. nra. }
  destruct (Qle_bool (2 ^ k) x) eqn:E.
  - apply Qle_bool_iff in E. split; assumption.
  - replace (k - 1 + 1)%Z with k by lia. split; [exact Hlo|].
    destruct (Qlt_le_dec x (2 ^ k)) as [H|H]; [exact H|].
    apply Qle_bool_iff in H. congruence.
Qed.

Lemma Qpy_round_comp q q' : (q == q')%Q -> Qpy_round q = Qpy_round q'.
Proof.
  intros E. unfold Qpy_round. rewrite (Qfloor_comp _ _ E).
  assert (E' : (q - inject_Z (Qfloor q') == q' - inject_Z (Qfloor q'))%Q)
    by (rewrite E; reflexivity).
  now rewrite (Qcompare_comp _ _ E' _ _ (Qeq_refl (1 # 2))).
Qed.

Lemma Qpy_round_bounds q :
  (Qfloor q <= Qpy_round q <= Qfloor q + 1)%Z.
Proof.
  unfold Qpy_round. destruct (_ ?= _)%Q; [destruct (Z.even _)| |]; lia.
Qed.

Lemma Qpy_round_Z z : Qpy_round (inject_Z z) = z.
Proof.
  unfold Qpy_round. rewrite Qfloor_Z.
  assert (E : forall x, ((x - x ?= 1 # 2) = Lt)%Q)
    by (intros x; apply (proj1 (Qlt_alt _ _)); lra).
  now rewrite E.
Qed.

Lemma Qpy_round_le q z : (q <= inject_Z z)%Q -> (Qpy_round q <= z)%Z.
Proof.
  intros Hq.
  pose proof (Qfloor_resp_le _ _ Hq) as Hf. rewrite Qfloor_Z in Hf.
  destruct (Z.eq_dec (Qfloor q) z) as [E|N].
  - (* q is the integer z itself *)
    pose proof (Qfloor_le q) as Hl. rewrite E in Hl.
    assert (Eq' : (q == inject_Z z)%Q) by lra.
    rewrite (Qpy_round_comp _ _ Eq'), Qpy_round_Z. lia.
  - pose proof (Qpy_round_bounds q). lia.
Qed.

Lemma Qpy_round_nonneg q : (0 <= q)%Q -> (0 <= Qpy_round q)%Z.
Proof.
  intros Hq. pose proof (Qfloor_resp_le _ _ Hq) as Hf.
  change (Qfloor 0) with 0%Z in Hf.
  pose proof (Qpy_round_bounds q). lia.
Qed.

Lemma Qpy_round_ge q z : (inject_Z z <= q)%Q -> (z <= Qpy_round q)%Z.
Proof.
  intros Hq.
  pose proof (Qfloor_resp_le _ _ Hq) as Hf. rewrite Qfloor_Z in Hf.
  pose proof (Qpy_round_bounds q). lia.
Qed.

Lemma Qpy_round_monotone a b : (a <= b)%Q -> (Qpy_round a <= Qpy_round b)%Z.
Proof.
  intros Hab.
  pose proof (Qfloor_resp_le _ _ Hab) as Hf.
  destruct (Z.eq_dec (Qfloor a) (Qfloor b)) as [E|N].
  - unfold Qpy_round. rewrite E.
    destruct (Qcompare_spec (a - inject_Z (Qfloor b)) (1 # 2)) as [Ha|Ha|Ha];
    destruct (Qcompare_spec (b - inject_Z (Qfloor b)) (1 # 2)) as [Hb|Hb|Hb];
      try lia; try (destruct (Z.even (Qfloor b)); lia); exfalso; lra.
  - pose proof (Qpy_round_bounds a). pose proof (Qpy_round_bounds b). lia.
Qed.

Lemma Qulp_pos q : (0 < Qulp q)%Q.
Proof. apply Qpow2_pos. Qed.

Lemma fl64Q_eq q : (fl64Q q == inject_Z (Qpy_round (q / Qulp q)) * Qulp q)%Q.
Proof.
  unfold fl64Q. destruct (Qeq_bool q 0) eqn:E.
  - apply Qeq_bool_iff in E.
    assert (E0 : (q / Qulp q == inject_Z 0)%Q).
    { change (inject_Z 0) with 0%Q. unfold Qdiv.
      rewrite (Qmult_comp _ _ E _ _ (Qeq_refl (/ Qulp q))). ring. }
    rewrite (Qpy_round_comp _ _ E0), Qpy_round_Z. change (inject_Z 0) with 0%Q. ring.
  - apply Qred_correct.
Qed.

Lemma fl64Q_nonneg q : (0 <= q)%Q -> (0 <= fl64Q q)%Q.
Proof.
  intros Hq. rewrite fl64Q_eq. pose proof (Qulp_pos q) as Hu.
  assert (H : (0 <= Qpy_round (q / Qulp q))%Z).
  { apply Qpy_round_ge. change (inject_Z 0) with 0%Q.
    apply Qle_shift_div_l; [exact Hu|]. lra. }
  rewrite Zle_Qle in H. change (inject_Z 0) with 0%Q in H. nra.
Qed.

Lemma fl64Q_nonpos q : (q <= 0)%Q -> (fl64Q q <= 0)%Q.
Proof.
  intros Hq. rewrite fl64Q_eq. pose proof (Qulp_pos q) as Hu.
  assert (H : (Qpy_round (q / Qulp q) <= 0)%Z).
  { apply Qpy_round_le. change (inject_Z 0) with 0%Q.
    apply Qle_shift_div_r; [exact Hu|]. lra. }
  rewrite Zle_Qle in H. change (inject_Z 0) with 0%Q in H. nra.
Qed.

(** Rounding keeps the order of non-negative numbers. *)
Lemma fl64Q_monotone x y : (0 <= x)%Q -> (x <= y)%Q -> (fl64Q x <= fl64Q y)%Q.
Proof.
  intros Hx Hxy.
  destruct (Qeq_dec x 0) as [E0|Nx].
  { assert (E : fl64Q x = 0%Q).
    { unfold fl64Q. now rewrite (proj2 (Qeq_bool_iff x 0) E0). }
    rewrite E. apply fl64Q_nonneg. lra. }
  assert (Ny : ~ (y == 0)%Q) by (intros E; apply Nx; lra).
  destruct (Qilog2_spec x Nx) as [Lx Ux]. destruct (Qilog2_spec y Ny) as [Ly Uy].
  rewrite Qabs_pos in Lx, Ux by lra. rewrite Qabs_pos in Ly, Uy by lra.
  rewrite !fl64Q_eq. unfold Qulp.
  set (ex := Qilog2 x) in *. set (ey := Qilog2 y) in *.
  assert (Hexy : (ex <= ey)%Z).
  { assert (H : (2 ^ ex < 2 ^ (ey + 1))%Q) by lra.
    apply Qpower_lt_compat_l_inv in H; [lia|reflexivity]. }
  set (cx := Z.max ex (-1022)). set (cy := Z.max ey (-1022)).
  pose proof (Qpow2_pos (cx - 52)) as Pux. pose proof (Qpow2_pos (cy - 52)) as Puy.
  destruct (Z.eq_dec cx cy) as [Ec|Nc].
  - rewrite <- Ec.
    assert (H : (Qpy_round (x / 2 ^ (cx - 52)) <= Qpy_round (y / 2 ^ (cx - 52)))%Z).
    { apply Qpy_round_monotone. apply Qle_shift_div_l; [exact Pux|].
      unfold Qdiv. rewrite <- Qmult_assoc, (Qmult_comm (/ _)), Qmult_inv_r; lra. }
    rewrite Zle_Qle in H. nra.
  - assert (Hc : (cx < cy)%Z) by lia.
    assert (Ecy : cy = ey) by lia.
    apply Qle_trans with (2 ^ cy)%Q.
    + set (j := (cy - cx + 52)%Z).
      assert (Ej : (2 ^ cy == inject_Z (2 ^ j) * 2 ^ (cx - 52))%Q).
      { rewrite Zpower_Qpower by lia. change (inject_Z 2) with 2%Q.
        rewrite <- Qpower_plus by discriminate. unfold j.
        now replace (cy - cx + 52 + (cx - 52))%Z with cy by lia. }
      assert (Hx2 : (x <= 2 ^ cy)%Q).
      { apply Qle_trans with (2 ^ (ex + 1))%Q; [lra|].
        apply Qpower_le_compat_l; [lia|discriminate]. }
      assert (H : (Qpy_round (x / 2 ^ (cx - 52)) <= 2 ^ j)%Z).
      { apply Qpy_round_le. apply Qle_shift_div_r; [exact Pux|]. lra. }
      rewrite Zle_Qle in H. nra.
    + assert (Ej : (2 ^ cy == inject_Z (2 ^ 52) * 2 ^ (cy - 52))%Q).
      { rewrite Zpower_Qpower by lia. change (inject_Z 2) with 2%Q.
        rewrite <- Qpower_plus by discriminate.
        now replace (52 + (cy - 52))%Z with cy by lia. }
      assert (H : (2 ^ 52 <= Qpy_round (y / 2 ^ (cy - 52)))%Z).
      { apply Qpy_round_ge. apply Qle_shift_div_l; [exact Puy|].
        rewrite <- Ej, Ecy. exact Ly. }
      rewrite Zle_Qle in H. nra.
Qed.

Lemma Q2R_inject_Z z : Q2R (inject_Z z) = IZR z.
Proof. unfold Q2R, inject_Z. simpl. lra. Qed.

Lemma Q2R_abs q : Q2R (Qabs q) = Rabs (Q2R q).
Proof.
  destruct (Qlt_le_dec q 0) as [H|H].
  - rewrite (Qeq_eqR _ _ (Qabs_neg q (Qlt_le_weak _ _ H))), Q2R_opp.
    apply Qlt_Rlt in H. rewrite RMicromega.Q2R_0 in H.
    now rewrite Rabs_left.
  - rewrite (Qeq_eqR _ _ (Qabs_pos q H)).
    apply Qle_Rle in H. rewrite RMicromega.Q2R_0 in H.
    now rewrite Rabs_pos_eq.
Qed.

Lemma Q2R_pow2 z : Q2R (2 ^ z) = powerRZ 2 z.
Proof.
  rewrite RMicromega.Q2RpowerRZ by (left; discriminate).
  f_equal. unfold Q2R. simpl. lra.
Qed.

Lemma Int_part_Q2R q : Int_part (Q2R q) = Qfloor q.
Proof.
  symmetry. apply Int_part_spec.
  pose proof (Qle_Rle _ _ (Qfloor_le q)) as H1.
  pose proof (Qlt_Rlt _ _ (Qlt_floor q)) as H2.
  rewrite Q2R_inject_Z in H1, H2. rewrite plus_IZR in H2. lra.
Qed.

Lemma py_round_Q2R q : py_round (Q2R q) = Qpy_round q.
Proof.
  unfold py_round, Qpy_round. rewrite Int_part_Q2R.
  set (f := Qfloor q).
  assert (E : Q2R q - IZR f = Q2R (q - inject_Z f))
    by (now rewrite Q2R_minus, Q2R_inject_Z).
  assert (Eh : 1 / 2 = Q2R (1 # 2)) by (unfold Q2R; simpl; lra).
  rewrite E, Eh.
  destruct (Qcompare_spec (q - inject_Z f) (1 # 2)) as [H|H|H].
  - apply Qeq_eqR in H. rewrite H.
    now rewrite (proj2 (Rltb_false _ _)) by lra.
  - apply Qlt_Rlt in H. now rewrite (proj2 (Rltb_true _ _) H).
  - apply Qlt_Rlt in H.
    rewrite (proj2 (Rltb_false _ _)) by lra.
    now rewrite (proj2 (Rltb_true _ _) H).
Qed.

Lemma ln_2_pos : 0 < ln 2.
Proof. rewrite <- ln_1. apply ln_increasing; lra. Qed.

Lemma ln_pow2 z : ln (powerRZ 2 z) = IZR z * ln 2.
Proof.
  rewrite powerRZ_Rpower by lra. unfold Rpower. apply ln_exp.
Qed.

Lemma pow2_pos z : 0 < powerRZ 2 z.
Proof. apply powerRZ_lt. lra. Qed.

(** The exponent of [x] is the one [e] with [2^e <= |x| < 2^(e+1)]. *)
Lemma ilog2_unique x e :
  powerRZ 2 e <= Rabs x < powerRZ 2 (e + 1) -> ilog2 x = e.
Proof.
  intros [Hlo Hhi]. unfold ilog2. symmetry. apply Int_part_spec.
  pose proof ln_2_pos as H2. pose proof (pow2_pos e) as Pe.
  assert (L1 : IZR e * ln 2 <= ln (Rabs x)).
  { rewrite <- ln_pow2. destruct Hlo as [Hlt|Heq].
    - apply Rlt_le, ln_increasing; assumption.
    - rewrite Heq. lra. }
  assert (L2 : ln (Rabs x) < (IZR e + 1) * ln 2).
  { rewrite <- plus_IZR, <- ln_pow2. apply ln_increasing; lra. }
  split.
  - apply Rmult_lt_reg_r with (ln 2); [exact H2|].
    unfold Rdiv, Rminus. rewrite Rmult_plus_distr_r, Rmult_assoc, Rinv_l by lra. lra.
  - apply Rmult_le_reg_r with (ln 2); [exact H2|].
    unfold Rdiv. rewrite Rmult_assoc, Rinv_l by lra. lra.
Qed.

Lemma ilog2_Q2R q : ~ (q == 0)%Q -> ilog2 (Q2R q) = Qilog2 q.
Proof.
  intros Hq. apply ilog2_unique.
  destruct (Qilog2_spec q Hq) as [Lo Hi].
  apply Qle_Rle in Lo. apply Qlt_Rlt in Hi.
  now rewrite Q2R_pow2, Q2R_abs in Lo, Hi.
Qed.

(** The two roundings agree: on a rational number, [fl64] is [fl64Q]. *)
Lemma fl64_Q2R q : fl64 (Q2R q) = Q2R (fl64Q q).
Proof.
  unfold fl64, fl64Q.
  destruct (Qeq_bool q 0) eqn:E.
  - apply Qeq_bool_iff, Qeq_eqR in E. rewrite RMicromega.Q2R_0 in E.
    destruct (Req_dec_T (Q2R q) 0); [now rewrite RMicromega.Q2R_0|contradiction].
  - assert (Hq : ~ (q == 0)%Q).
    { intros H. apply Qeq_bool_iff in H. congruence. }
    destruct (Req_dec_T (Q2R q) 0) as [E0|_].
    { exfalso. apply Hq. apply eqR_Qeq. now rewrite RMicromega.Q2R_0. }
    assert (Eu : ulp (Q2R q) = Q2R (Qulp q)).
    { unfold ulp, Qulp. now rewrite ilog2_Q2R, Q2R_pow2. }
    rewrite Eu, (Qeq_eqR _ _ (Qred_correct _)), Q2R_mult, Q2R_inject_Z.
    rewrite <- Q2R_div, py_round_Q2R; [reflexivity|].
    apply Qpower_not_0. discriminate.
Qed.

Lemma py_round_nonneg x : 0 <= x -> (0 <= py_round x)%Z.
Proof.
  intros Hx. unfold py_round.
  destruct (base_Int_part x) as [H1 H2].
  assert (Hf : (0 <= Int_part x)%Z).
  { assert (Hlt : IZR (-1) < IZR (Int_part x)) by (simpl; lra).
    apply lt_IZR in Hlt. lia. }
  destruct (Rltb _ _); [lia|]. destruct (Rltb _ _); [lia|].
  destruct (Z.even _); lia.
Qed.

Lemma py_round_nonpos x : x <= 0 -> (py_round x <= 0)%Z.
Proof.
  intros Hx. unfold py_round.
  destruct (base_Int_part x) as [H1 H2].
  assert (Hf : (Int_part x <= 0)%Z).
  { apply le_IZR. lra. }
  destruct (Z.eq_dec (Int_part x) 0) as [E|N].
  - rewrite E. rewrite E in H1. simpl in H1.
    rewrite (proj2 (Rltb_true _ _)) by (simpl; lra). lia.
  - destruct (Rltb _ _); [lia|]. destruct (Rltb _ _); [lia|].
    destruct (Z.even _); lia.
Qed.

Lemma ulp_pos x : 0 < ulp x.
Proof. apply pow2_pos. Qed.

(** Rounding keeps the sign. *)
Lemma fl64_nonneg x : 0 <= x -> 0 <= fl64 x.
Proof.
  intros Hx. unfold fl64. destruct (Req_dec_T x 0); [lra|].
  pose proof (ulp_pos x) as Hu.
  apply Rmult_le_pos; [|lra]. apply IZR_le, py_round_nonneg.
  apply Rmult_le_pos; [lra|]. apply Rlt_le, Rinv_0_lt_compat, Hu.
Qed.

Lemma fl64_nonpos x : x <= 0 -> fl64 x <= 0.
Proof.
  intros Hx. unfold fl64. destruct (Req_dec_T x 0); [lra|].
  pose proof (ulp_pos x) as Hu.
  assert (H : IZR (py_round (x / ulp x)) <= 0).
  { apply IZR_le, py_round_nonpos.
    assert (0 <= - x * / ulp x).
    { apply Rmult_le_pos; [lra|]. apply Rlt_le, Rinv_0_lt_compat, Hu. }
    unfold Rdiv. lra. }
  nra.
Qed.

Lemma fl64_product_nonneg a b : 0 <= a * b -> 0 <= fl64 (fl64 a * fl64 b).
Proof.
  intros H. apply fl64_nonneg.
  destruct (Rle_dec 0 a) as [Ha|Ha]; destruct (Rle_dec 0 b) as [Hb|Hb].
  - apply Rmult_le_pos; now apply fl64_nonneg.
  - destruct (Req_dec a 0) as [->|Na].
    + unfold fl64 at 1. destruct (Req_dec_T 0 0); [lra|contradiction].
    + exfalso. nra.
  - destruct (Req_dec b 0) as [->|Nb].
    + unfold fl64 at 2. destruct (Req_dec_T 0 0); [lra|contradiction].
    + exfalso. nra.
  - pose proof (fl64_nonpos a ltac:(lra)). pose proof (fl64_nonpos b ltac:(lra)). nra.
Qed.

(** ** Binary search *)

Lemma strictly_increasing_sorted a : strictly_increasing a -> sorted a.
Proof.
  intros Hs i j [Hij Hj].
  destruct (Nat.eq_dec i j) as [->|Hne]; [lra|].
  apply Rlt_le, Hs; lia.
Qed.

Lemma binsearch_right_spec a key : sorted a ->
  forall fuel lo hi,
    (lo <= hi <= length a)%nat -> (hi - lo <= fuel)%nat ->
    (forall j, (j < lo)%nat -> nth j a 0 <= key) ->
    (forall j, (hi <= j < length a)%nat -> key < nth j a 0) ->
    let r := Np.binsearch_right fuel a key lo hi in
    (lo <= r <= hi)%nat /\
    (forall j, (j < r)%nat -> nth j a 0 <= key) /\
    (forall j, (r <= j < length a)%nat -> key < nth j a 0).
Proof.
  intros Hsort fuel; induction fuel as [|fuel IH]; intros lo hi Hlh Hfuel Hlo Hhi;
    cbn [Np.binsearch_right].
  - assert (lo = hi) by lia; subst; repeat split; auto; lia.
  - destruct (Nat.ltb_spec lo hi) as [Hlt|Hge].
    + set (mid := (lo + (hi - lo) / 2)%nat).
      assert (Hmid : (lo <= mid < hi)%nat).
      { unfold mid; split; [lia|].
        assert ((hi - lo) / 2 < hi - lo)%nat by (apply Nat.div_lt; lia). lia. }
      destruct (Rleb (nth mid a 0) key) eqn:E.
      * apply Rleb_true in E.
        destruct (IH (S mid) hi) as (H1 & H2 & H3); try lia; auto.
        { intros j Hj. apply Rle_trans with (nth mid a 0); auto.
          apply Hsort; lia. }
        repeat split; auto; lia.
      * apply Rleb_false in E.
        destruct (IH lo mid) as (H1 & H2 & H3); try lia; auto.
        { intros j Hj. apply Rlt_le_trans with (nth mid a 0); auto. }
        repeat split; auto; lia.
    + assert (lo = hi) by lia; subst; repeat split; auto; lia.
Qed.

(** On a sorted array the search returns the number [r] of entries that are
    at most the key: they are the first [r]. *)
Lemma searchsorted_right_spec a key : sorted a ->
  exists r, Np.searchsorted_right a key = Z.of_nat r /\ (r <= length a)%nat /\
    (forall j, (j < r)%nat -> nth j a 0 <= key) /\
    (forall j, (r <= j < length a)%nat -> key < nth j a 0).
Proof.
  intros Hs. unfold Np.searchsorted_right.
  assert (H0 : forall j, (j < 0)%nat -> nth j a 0 <= key) by (intros j Hj; lia).
  assert (H1 : forall j, (length a <= j < length a)%nat -> key < nth j a 0)
    by (intros j Hj; lia).
  destruct (binsearch_right_spec a key Hs (length a) 0 (length a)
              ltac:(lia) ltac:(lia) H0 H1) as (B1 & B2 & B3).
  eexists; split; [reflexivity|]. repeat split; auto; lia.
Qed.

(** ** Band indices *)

Lemma band_index_range edges B f : (1 <= B)%nat ->
  (0 <= band_index edges (Z.of_nat B) f < Z.of_nat B)%Z.
Proof. unfold band_index, Np.clip; lia. Qed.

(** For a kept bin, the index the code computes is [i] exactly when the
    frequency lies in band [i]. *)
Lemma band_index_in_band edges B f i :
  strictly_increasing edges -> length edges = S B -> (1 <= B)%nat ->
  nth 0 edges 0 <= f <= nth B edges 0 -> (i < B)%nat ->
  (band_index edges (Z.of_nat B) f =? Z.of_nat i)%Z = in_band edges B i f.
Proof.
  intros Hinc Hlen HB [Hlo Hhi] Hi.
  destruct (searchsorted_right_spec edges f (strictly_increasing_sorted _ Hinc))
    as (r & Er & Hr & Hle & Hgt).
  assert (Hr1 : (1 <= r)%nat).
  { destruct r; [|lia]. specialize (Hgt 0%nat ltac:(lia)). lra. }
  unfold band_index, Np.clip, in_band. rewrite Er.
  destruct (Nat.eq_dec r (S B)) as [->|Hne].
  - (* the key is the last edge *)
    assert (Ef : f = nth B edges 0) by (specialize (Hle B ltac:(lia)); lra).
    destruct (Nat.eq_dec (S i) B) as [EiB|NiB].
    + replace (Z.min _ _) with (Z.of_nat i) by lia.
      rewrite Z.eqb_refl. symmetry.
      rewrite (proj2 (Nat.eqb_eq _ _) EiB).
      assert (nth i edges 0 < nth B edges 0) by (apply Hinc; lia).
      rewrite (proj2 (Rleb_true _ _)) by lra.
      rewrite (proj2 (Rleb_true _ _)) by lra.
      now rewrite orb_true_r.
    + rewrite (proj2 (Z.eqb_neq _ _)) by lia. symmetry.
      rewrite (proj2 (Nat.eqb_neq _ _) NiB).
      assert (nth (S i) edges 0 < nth B edges 0) by (apply Hinc; lia).
      rewrite (proj2 (Rltb_false _ _)) by lra.
      now rewrite andb_false_r.
  - assert (Hfr : f < nth r edges 0) by (apply Hgt; lia).
    assert (Hrf : nth (r - 1) edges 0 <= f) by (apply Hle; lia).
    replace (Z.min _ _) with (Z.of_nat (r - 1)) by lia.
    destruct (Nat.eq_dec (r - 1) i) as [<-|Nri].
    + rewrite Z.eqb_refl. symmetry.
      rewrite (proj2 (Rleb_true _ _)) by lra.
      replace (S (r - 1)) with r by lia.
      now rewrite (proj2 (Rltb_true _ _)) by lra.
    + rewrite (proj2 (Z.eqb_neq _ _)) by lia. symmetry.
      destruct (Nat.lt_ge_cases i (r - 1)) as [Hlt|Hge].
      * (* the band lies below the key *)
        assert (nth (S i) edges 0 <= f) by (apply Hle; lia).
        rewrite (proj2 (Rltb_false _ _)) by lra.
        destruct (Nat.eqb_spec (S i) B); [lia|].
        now rewrite andb_false_r.
      * (* the band lies above the key *)
        assert (f < nth i edges 0) by (apply Hgt; lia).
        now rewrite (proj2 (Rleb_false _ _)) by lra.
Qed.

(** ** Masks and accumulation *)

Lemma bool_index_map_fst {A B} (p : A -> bool) (xs : list A) (ys : list B) :
  length xs = length ys ->
  Np.bool_index xs (map p xs) = Some (map fst (filter (fun xy => p (fst xy)) (combine xs ys))).
Proof.
  revert ys; induction xs as [|x xs IH]; intros [|y ys] Hl; try discriminate; auto.
  simpl. rewrite (IH ys) by (simpl in Hl; lia). simpl.
  destruct (p x); reflexivity.
Qed.

Lemma bool_index_map_snd {A B} (p : A -> bool) (xs : list A) (ys : list B) :
  length xs = length ys ->
  Np.bool_index ys (map p xs) = Some (map snd (filter (fun xy => p (fst xy)) (combine xs ys))).
Proof.
  revert ys; induction xs as [|x xs IH]; intros [|y ys] Hl; try discriminate; auto.
  simpl. rewrite (IH ys) by (simpl in Hl; lia). simpl.
  destruct (p x); reflexivity.
Qed.

Lemma add_nth_length out i v : length (Np.add_nth out i v) = length out.
Proof.
  revert i; induction out as [|x out IH]; intros [|i]; simpl; auto.
Qed.

Lemma add_nth_nth out i v k : (i < length out)%nat ->
  nth k (Np.add_nth out i v) 0 = nth k out 0 + (if (k =? i)%nat then v else 0).
Proof.
  revert i k; induction out as [|x out IH]; intros i k Hi; simpl in Hi; [lia|].
  destruct i, k; simpl; try lra.
  rewrite IH by lia. reflexivity.
Qed.

(** [np.add.at] with every index in range: entry [k] grows by the values
    whose index is [k]. *)
Lemma add_at_spec (g : R -> Z) (bins : list (R * R)) :
  forall out, (forall f, 0 <= g f < Z.of_nat (length out))%Z ->
  exists out', Np.add_at out (map g (map fst bins)) (map snd bins) = Some out' /\
    length out' = length out /\
    forall k, nth k out' 0 =
              nth k out 0 +
              Np.sum (map snd (filter (fun fm => (g (fst fm) =? Z.of_nat k)%Z) bins)).
Proof.
  induction bins as [|[f m] bins IH]; intros out Hg; simpl.
  - exists out; repeat split; auto. intros k; simpl; lra.
  - unfold Np.resolve.
    pose proof (Hg f) as Hf.
    rewrite (proj2 (Z.leb_le _ _)) by lia.
    rewrite (proj2 (Z.ltb_lt _ _)) by lia. simpl.
    destruct (IH (Np.add_nth out (Z.to_nat (g f)) m)) as (out' & E & L & N).
    { intros f'. rewrite add_nth_length. apply Hg. }
    exists out'. split; [exact E|]. split.
    { rewrite L. apply add_nth_length. }
    intros k. rewrite N, add_nth_nth by lia.
    destruct (Z.eqb_spec (g f) (Z.of_nat k)) as [Ek|Nk].
    + rewrite (proj2 (Nat.eqb_eq k (Z.to_nat (g f)))) by lia. simpl. lra.
    + rewrite (proj2 (Nat.eqb_neq k (Z.to_nat (g f)))) by lia. lra.
Qed.

Lemma nth_repeat_0 n k : nth k (repeat 0 n) 0 = 0.
Proof.
  revert k; induction n; intros [|k]; simpl; auto.
Qed.

Lemma any_map {A} (p : A -> bool) xs :
  Np.any (map p xs) = existsb p xs.
Proof.
  unfold Np.any. induction xs; simpl; auto. now rewrite IHxs.
Qed.

Lemma filter_filter {A} (p q : A -> bool) xs :
  filter q (filter p xs) = filter (fun x => p x && q x) xs.
Proof.
  induction xs as [|x xs IH]; simpl; auto.
  destruct (p x); simpl; [destruct (q x)|]; now rewrite IH.
Qed.

Lemma last_edge edges B : length edges = S B ->
  nth_error edges (length edges - 1) = Some (nth B edges 0).
Proof.
  intros H. rewrite H. replace (S B - 1)%nat with B by lia.
  apply nth_error_nth'. lia.
Qed.

Lemma first_edge edges B : length edges = S B ->
  nth_error edges 0 = Some (nth 0 edges 0).
Proof. intros H. apply nth_error_nth'. lia. Qed.

Lemma kept_band edges B f i :
  strictly_increasing edges -> length edges = S B -> (1 <= B)%nat -> (i < B)%nat ->
  (Rleb (nth 0 edges 0) f && Rleb f (nth B edges 0)) &&
  (band_index edges (Z.of_nat B) f =? Z.of_nat i)%Z = in_band edges B i f.
Proof.
  intros Hinc Hlen HB Hi.
  destruct (Rleb (nth 0 edges 0) f) eqn:E0; simpl.
  - destruct (Rleb f (nth B edges 0)) eqn:EB; simpl.
    + apply Rleb_true in E0, EB. apply band_index_in_band; auto.
    + apply Rleb_false in EB. unfold in_band.
      rewrite (proj2 (Rleb_false f _) EB), andb_false_r, orb_false_r.
      assert (nth (S i) edges 0 <= nth B edges 0).
      { apply (strictly_increasing_sorted _ Hinc); lia. }
      rewrite (proj2 (Rltb_false _ _)) by lra.
      now rewrite andb_false_r.
  - apply Rleb_false in E0. unfold in_band.
    assert (nth 0 edges 0 <= nth i edges 0).
    { apply (strictly_increasing_sorted _ Hinc); lia. }
    now rewrite (proj2 (Rleb_false _ _)) by lra.
Qed.

Lemma filter_none {A} (p : A -> bool) xs :
  existsb p xs = false -> filter p xs = [].
Proof.
  induction xs as [|x xs IH]; simpl; auto.
  destruct (p x); simpl; [discriminate|auto].
Qed.

Lemma existsb_fst_combine {A B} (p : A -> bool) (xs : list A) (ys : list B) :
  existsb p xs = false -> existsb (fun xy => p (fst xy)) (combine xs ys) = false.
Proof.
  revert ys; induction xs as [|x xs IH]; intros [|y ys]; simpl; auto.
  destruct (p x); simpl; [discriminate|auto].
Qed.

Lemma existsb_false_weaken {A} (p q : A -> bool) xs :
  (forall x, q x = true -> p x = true) ->
  existsb p xs = false -> existsb q xs = false.
Proof.
  intros Hqp. induction xs as [|x xs IH]; simpl; auto.
  intros H. apply orb_false_iff in H as [Hp Hx].
  rewrite IH by auto. rewrite orb_false_r.
  destruct (q x) eqn:E; auto. rewrite (Hqp _ E) in Hp. discriminate.
Qed.

(** The sums line 145 leaves, for any edges (sorted or not): entry [k] is
    the total magnitude of the kept bins whose clamped index is [k]. *)
Lemma accumulate_bands_sums edges freqs mags B :
  length edges = S B -> (1 <= B)%nat -> length freqs = length mags ->
  exists acc, accumulate_bands freqs mags edges = Some acc /\
    length (sums_of acc) = B /\
    forall k, nth k (sums_of acc) 0 =
      band_total (fun f => (Rleb (nth 0 edges 0) f && Rleb f (nth B edges 0)) &&
                           (band_index edges (Z.of_nat B) f =? Z.of_nat k)%Z)
                 freqs mags.
Proof.
  intros Hlen HB Hfm.
  unfold accumulate_bands, band_mask.
  rewrite (first_edge _ _ Hlen), (last_edge _ _ Hlen). cbn [obind].
  replace (Z.of_nat (length edges) - 1)%Z with (Z.of_nat B) by lia.
  unfold Np.zeros. rewrite (proj2 (Z.ltb_ge _ _)) by lia. cbn [obind].
  rewrite Nat2Z.id.
  set (kept := fun f => Rleb (nth 0 edges 0) f && Rleb f (nth B edges 0)).
  rewrite any_map.
  destruct (existsb kept freqs) eqn:Eany; cbn [negb].
  - rewrite (bool_index_map_fst kept freqs mags Hfm).
    rewrite (bool_index_map_snd kept freqs mags Hfm). cbn [obind].
    destruct (add_at_spec (band_index edges (Z.of_nat B))
                (filter (fun xy => kept (fst xy)) (combine freqs mags))
                (repeat 0 B)) as (out & E & L & N).
    { intros f. rewrite repeat_length. apply band_index_range; auto. }
    rewrite E. cbn [obind]. eexists; split; [reflexivity|]. cbn [sums_of].
    split. { now rewrite L, repeat_length. }
    intros k. rewrite N, nth_repeat_0, filter_filter. unfold band_total.
    now rewrite Rplus_0_l.
  - eexists; split; [reflexivity|]. cbn [sums_of].
    split. { apply repeat_length. }
    intros k. rewrite nth_repeat_0. unfold band_total.
    rewrite filter_none; [reflexivity|].
    apply existsb_false_weaken with (p := fun xy => kept (fst xy)).
    + intros [f m]; cbn [fst]. intros H. apply andb_true_iff in H. apply H.
    + apply existsb_fst_combine, Eany.
Qed.

(** C1: every bin of frequency [f] with [edges[0] <= f <= edges[B]] adds its
    magnitude to exactly one band, the band [i] with
    [edges[i] <= f < edges[i+1]] (a bin at [f = edges[B]] goes to the last
    band [B-1]); so band [i] ends with the total magnitude of the bins in
    that range, and a band no bin falls into keeps the sum 0. *)
Theorem accumulate_bands_by_band edges freqs mags B :
  strictly_increasing edges -> length edges = S B -> (1 <= B)%nat ->
  length freqs = length mags ->
  exists acc, accumulate_bands freqs mags edges = Some acc /\
    length (sums_of acc) = B /\
    forall i, (i < B)%nat ->
      nth i (sums_of acc) 0 = band_total (in_band edges B i) freqs mags.
Proof.
  intros Hinc Hlen HB Hfm.
  destruct (accumulate_bands_sums edges freqs mags B Hlen HB Hfm) as (acc & E & L & N).
  exists acc. repeat split; auto.
  intros i Hi. rewrite N. unfold band_total. do 2 f_equal.
  apply filter_ext. intros [f m]; cbn [fst]. apply kept_band; auto.
Qed.

Lemma edges_1_2_4_increasing : strictly_increasing [1; 2; 4].
Proof. 
  intros i j [Hij Hj]; simpl in Hj.
  destruct j as [|[|[|j]]]; destruct i as [|[|[|i]]]; simpl; try lia; lra.
Qed.

Lemma accumulate_bands_by_band_witness :
  exists acc, accumulate_bands [2; 3; 5] [1; 7; 9] [1; 2; 4] = Some acc /\
    length (sums_of acc) = 2%nat /\
    forall i, (i < 2)%nat ->
      nth i (sums_of acc) 0 = band_total (in_band [1; 2; 4] 2 i) [2; 3; 5] [1; 7; 9].
Proof.
  apply (accumulate_bands_by_band [1; 2; 4] [2; 3; 5] [1; 7; 9] 2).
  - exact edges_1_2_4_increasing.
  - reflexivity.
  - lia.
  - reflexivity.
Defined.

Lemma accumulate_bands_at_inner_edge :
  accumulate_bands [2] [1] [1; 2; 4] = Some (Sums [0; 0 + 1]).
Proof.
  unfold accumulate_bands, band_mask, band_index, Np.searchsorted_right.
  Reval. reflexivity.
Qed.

(** C1, counterexample to the rule as worded: with edges [1, 2, 4] a bin at
    [f = 2] satisfies [edges[0] < f <= edges[1]], yet the code adds it to
    band 1 and leaves band 0 at 0. *)
Lemma spec_band_rule_fails : ~ spec_band_rule [1; 2; 4] [2] [1] 2.
Proof.
  intros Hrule.
  specialize (Hrule _ accumulate_bands_at_inner_edge 0%nat ltac:(lia)).
  revert Hrule. unfold band_total, in_band_spec. Reval. lra.
Qed.

(** ** Properties the aggregation steps preserve *)

Section Preserved.

(** A property of numbers that holds of 0 and is kept by sums, such as
    being non-negative or being zero. *)
Variable P : R -> Prop.
Hypothesis P0 : P 0.
Hypothesis Padd : forall x y, P x -> P y -> P (x + y).

Lemma sum_preserved a : Forall P a -> P (Np.sum a).
Proof. induction 1; simpl; auto. Qed.

Lemma padd_preserved a b : Forall P a -> Forall P b -> Forall P (Np.padd a b).
Proof.
  intros Ha; revert b; induction Ha as [|x a Hx Ha IH]; intros b Hb; simpl; auto.
  destruct Hb as [|y b Hy Hb]; auto.
Qed.

Lemma convolve_full_preserved a v :
  (forall x y, P x -> In y v -> P (x * y)) ->
  Forall P a -> Forall P (Np.convolve_full a v).
Proof.
  intros Hmul Ha; induction Ha as [|x a Hx Ha IH]; simpl; auto.
  destruct v as [|y v]; auto.
  apply padd_preserved; [|constructor; auto].
  apply Forall_forall. intros z Hz. apply in_map_iff in Hz as (w & <- & Hw). auto.
Qed.

Lemma firstn_preserved {A} (Q : A -> Prop) n a : Forall Q a -> Forall Q (firstn n a).
Proof.
  intros Ha; revert n; induction Ha; intros [|n]; simpl; auto.
Qed.

Lemma skipn_preserved {A} (Q : A -> Prop) n a : Forall Q a -> Forall Q (skipn n a).
Proof.
  intros Ha; revert n; induction Ha; intros [|n]; simpl; auto.
Qed.

Lemma repeat_preserved {A} (Q : A -> Prop) x n : Q x -> Forall Q (repeat x n).
Proof. intros; induction n; simpl; auto. Qed.

Lemma last_preserved a : Forall P a -> P (last a 0).
Proof.
  induction 1 as [|x a Hx Ha IH]; [exact P0|].
  destruct a; auto.
Qed.

Lemma pad_edge_preserved a l r : Forall P a -> Forall P (Np.pad_edge a l r).
Proof.
  intros Ha. unfold Np.pad_edge. repeat (apply Forall_app; split); auto.
  - apply repeat_preserved. destruct Ha; auto.
  - apply repeat_preserved, last_preserved, Ha.
Qed.

Lemma smooth_preserved out bands :
  (forall x, P x -> P (x * (1 / 9))) ->
  Forall P out -> Forall P (smooth out bands).
Proof.
  intros Hk Ho. unfold smooth. destruct (9 <=? bands)%Z; auto.
  unfold Np.slice_inner, Np.convolve_same.
  apply firstn_preserved, skipn_preserved, firstn_preserved, skipn_preserved.
  apply convolve_full_preserved; [|apply pad_edge_preserved, Ho].
  intros x y Hx Hy. apply in_map_iff in Hy as (w & <- & Hw).
  apply repeat_spec in Hw; subst w. auto.
Qed.

End Preserved.

(** ** Lengths *)

Lemma padd_length a b : length (Np.padd a b) = Nat.max (length a) (length b).
Proof.
  revert b; induction a as [|x a IH]; intros [|y b]; simpl; auto.
Qed.

Lemma convolve_full_length a v : a <> [] -> v <> [] ->
  length (Np.convolve_full a v) = (length a + length v - 1)%nat.
Proof.
  intros Ha Hv. induction a as [|x a IH]; [congruence|].
  destruct v as [|y v]; [congruence|].
  cbn [Np.convolve_full]. rewrite padd_length, length_map. cbn [length].
  destruct a as [|x' a].
  - simpl. lia.
  - rewrite IH by discriminate. cbn [length]. lia.
Qed.

Lemma smooth_length out bands :
  Z.of_nat (length out) = bands -> length (smooth out bands) = length out.
Proof.
  intros Hl. unfold smooth. destruct (Z.leb_spec 9 bands) as [H9|]; auto.
  assert (Hn : (9 <= length out)%nat) by lia.
  unfold Np.slice_inner, Np.convolve_same.
  change (9 / 2)%nat with 4%nat.
  set (padded := Np.pad_edge out 4 4).
  set (kernel := map (fun x => x / 9) (repeat 1 9)).
  assert (Hp : length padded = (length out + 8)%nat).
  { unfold padded, Np.pad_edge. rewrite !length_app, !repeat_length. lia. }
  assert (Hk : length kernel = 9%nat) by reflexivity.
  assert (Hc : length (Np.convolve_full padded kernel) = (length out + 16)%nat).
  { rewrite convolve_full_length.
    - rewrite Hp, Hk. lia.
    - intros E. rewrite E in Hp. simpl in Hp. lia.
    - discriminate. }
  rewrite Hp, Hk.
  replace (Nat.min (length out + 8) 9) with 9%nat by lia.
  replace (Nat.max (length out + 8) 9) with (length out + 8)%nat by lia.
  change (9 - 1 - 9 / 2)%nat with 4%nat.
  rewrite !length_firstn, !length_skipn, !length_firstn, !length_skipn, Hc. lia.
Qed.

(** ** Peak normalisation *)

Lemma fold_Rmax_upper a : forall x,
  x <= fold_left Rmax a x /\ Forall (fun y => y <= fold_left Rmax a x) a.
Proof.
  induction a as [|y a IH]; intros x; simpl.
  - split; [lra|constructor].
  - destruct (IH (Rmax x y)) as [H1 H2].
    pose proof (Rmax_l x y). pose proof (Rmax_r x y).
    split; [lra|]. constructor; [lra|auto].
Qed.

Lemma fold_Rmax_preserved (P : R -> Prop) a : forall x,
  P x -> Forall P a -> P (fold_left Rmax a x).
Proof.
  induction a as [|y a IH]; intros x Hx Ha; simpl; auto.
  inversion Ha; subst. apply IH; auto.
  unfold Rmax. destruct (Rle_dec x y); auto.
Qed.

(** The maximum bounds every entry and is itself an entry's property. *)
Lemma amax_spec a : a <> [] ->
  exists mx, Np.amax a = Some mx /\ Forall (fun y => y <= mx) a /\
    forall P : R -> Prop, Forall P a -> P mx.
Proof.
  destruct a as [|x a]; [congruence|]. intros _.
  exists (fold_left Rmax a x). split; [reflexivity|].
  destruct (fold_Rmax_upper a x) as [H1 H2]. split.
  - constructor; auto.
  - intros P HP. inversion HP; subst. apply fold_Rmax_preserved; auto.
Qed.

Lemma log1p_nonneg x : 0 <= x -> 0 <= Np.log1p x.
Proof.
  intros Hx. unfold Np.log1p. rewrite <- ln_1.
  destruct (Req_dec x 0) as [->|Hne].
  - rewrite Rplus_0_r. lra.
  - apply Rlt_le, ln_increasing; lra.
Qed.

Lemma log1p_0 : Np.log1p 0 = 0.
Proof. unfold Np.log1p. rewrite Rplus_0_r. apply ln_1. Qed.

Lemma normalise_unit out : out <> [] -> Forall (fun x => 0 <= x) out ->
  exists res, normalise out = Some res /\ length res = length out /\
    Forall (fun x => 0 <= x <= 1) res.
Proof.
  intros Hne Hpos. unfold normalise.
  destruct (amax_spec out Hne) as (mx & E & Hub & Hin). rewrite E. cbn [obind].
  eexists; split; [reflexivity|].
  destruct (Rltb (1 / 100000000) mx) eqn:Emx.
  - apply Rltb_true in Emx. split; [apply length_map|].
    apply Forall_forall. intros y Hy. apply in_map_iff in Hy as (x & <- & Hx).
    rewrite Forall_forall in Hpos, Hub.
    specialize (Hpos x Hx). specialize (Hub x Hx). simpl in Hub.
    assert (0 < mx) by lra.
    split.
    + apply Rmult_le_pos; [lra|]. apply Rlt_le, Rinv_0_lt_compat; lra.
    + apply Rmult_le_reg_r with mx; [lra|].
      unfold Rdiv. rewrite Rmult_assoc, Rinv_l by lra. lra.
  - apply Rltb_false in Emx. split; [reflexivity|].
    rewrite Forall_forall in Hpos, Hub |- *. intros x Hx.
    specialize (Hpos x Hx). specialize (Hub x Hx). simpl in Hub. lra.
Qed.

(** ** The band aggregator end to end *)

Lemma Forall_of_nth (P : R -> Prop) a : (forall k, P (nth k a 0)) -> Forall P a.
Proof.
  intros H. apply Forall_nth. intros i d Hi.
  rewrite (nth_indep a d 0 Hi). apply H.
Qed.

Lemma band_total_preserved (P : R -> Prop) sel freqs mags :
  P 0 -> (forall x y, P x -> P y -> P (x + y)) ->
  Forall P mags -> P (band_total sel freqs mags).
Proof.
  intros P0 Padd Hm. unfold band_total. apply sum_preserved; auto.
  apply Forall_forall. intros m Hin.
  apply in_map_iff in Hin as ([f m'] & <- & Hin).
  apply filter_In in Hin as [Hin _]. apply in_combine_r in Hin.
  rewrite Forall_forall in Hm. auto.
Qed.

Lemma accumulate_bands_preserved edges freqs mags B :
  length edges = S B -> (1 <= B)%nat -> length freqs = length mags ->
  exists acc, accumulate_bands freqs mags edges = Some acc /\
    length (sums_of acc) = B /\
    forall P : R -> Prop, P 0 -> (forall x y, P x -> P y -> P (x + y)) ->
      Forall P mags -> Forall P (sums_of acc).
Proof.
  intros Hlen HB Hfm.
  destruct (accumulate_bands_sums edges freqs mags B Hlen HB Hfm) as (acc & E & L & N).
  exists acc. repeat split; auto.
  intros P P0 Padd Hm. apply Forall_of_nth. intros k. rewrite N.
  apply band_total_preserved; auto.
Qed.

(** The early return of line 141 hands back the zero-filled array. *)
Lemma accumulate_bands_nobins edges freqs mags out :
  accumulate_bands freqs mags edges = Some (NoBins out) ->
  Forall (fun x => x = 0) out.
Proof.
  unfold accumulate_bands.
  destruct (Np.zeros _) as [z|] eqn:Ez; [|discriminate]. cbn [obind].
  destruct (band_mask edges freqs) as [mask|]; [|discriminate]. cbn [obind].
  destruct (negb (Np.any mask)).
  - intros [= <-]. unfold Np.zeros in Ez.
    destruct (_ <? 0)%Z; [discriminate|]. injection Ez as <-.
    now apply repeat_preserved.
  - destruct (Np.bool_index freqs mask); [|discriminate]. cbn [obind].
    destruct (Np.bool_index mags mask); [|discriminate]. cbn [obind].
    destruct (Np.add_at _ _ _); discriminate.
Qed.

Lemma nonempty_length {A} (a : list A) : (1 <= length a)%nat -> a <> [].
Proof. destruct a; simpl; [lia|discriminate]. Qed.

Lemma all_zero_repeat a : Forall (fun x => x = 0) a -> a = repeat 0 (length a).
Proof. induction 1; simpl; congruence. Qed.

Lemma normalise_zero out : out <> [] -> Forall (fun x => x = 0) out ->
  normalise out = Some out.
Proof.
  intros Hne Hz. unfold normalise.
  destruct (amax_spec out Hne) as (mx & E & _ & Hin). rewrite E. cbn [obind].
  rewrite (Hin _ Hz). now rewrite (proj2 (Rltb_false _ _)) by lra.
Qed.

Lemma spectrum_to_bands_zero edges freqs mags B :
  length edges = S B -> (1 <= B)%nat -> length freqs = length mags ->
  Forall (fun m => m = 0) mags ->
  spectrum_to_bands freqs mags edges = Some (repeat 0 B).
Proof.
  intros Hlen HB Hfm Hz. unfold spectrum_to_bands.
  destruct (accumulate_bands_preserved edges freqs mags B Hlen HB Hfm)
    as (acc & E & L & HP).
  rewrite E. cbn [obind].
  specialize (HP (fun x => x = 0) eq_refl ltac:(intros; lra) Hz).
  destruct acc as [out|out]; cbn [sums_of] in *.
  - now rewrite (all_zero_repeat _ HP), L.
  - set (sm := smooth (map Np.log1p out) (Z.of_nat (length edges) - 1)).
    assert (Hs : Forall (fun x => x = 0) sm).
    { apply smooth_preserved; auto; try (intros; lra).
      apply Forall_forall. intros y Hy. apply in_map_iff in Hy as (x & <- & Hx).
      rewrite Forall_forall in HP. rewrite (HP x Hx). apply log1p_0. }
    assert (Hl : length sm = B).
    { unfold sm. rewrite smooth_length; rewrite length_map; lia. }
    rewrite normalise_zero; auto.
    + now rewrite (all_zero_repeat _ Hs), Hl.
    + apply nonempty_length; lia.
Qed.

(** ** The spectrum of silence *)

Lemma sum_zero a : Forall (fun x => x = 0) a -> Np.sum a = 0.
Proof. intros H. apply (sum_preserved (fun x => x = 0)); auto. intros; lra. Qed.

Lemma dft_bin_zero n k : Np.cabs (Np.dft_bin (repeat 0 n) k) = 0.
Proof.
  unfold Np.dft_bin, Np.cabs. cbn [fst snd].
  rewrite !sum_zero.
  - replace (0 * 0 + - 0 * - 0) with 0 by lra. apply sqrt_0.
  - apply Forall_forall. intros y Hy. apply in_map_iff in Hy as ([j x] & <- & Hin).
    apply in_combine_r, repeat_spec in Hin. subst x. lra.
  - apply Forall_forall. intros y Hy. apply in_map_iff in Hy as ([j x] & <- & Hin).
    apply in_combine_r, repeat_spec in Hin. subst x. lra.
Qed.

Lemma fft_magnitude_zero n sr : sr <> 0%Z ->
  exists freqs mags, fft_magnitude (repeat 0 n) sr = Some (freqs, mags) /\
    length freqs = length mags /\ Forall (fun m => m = 0) mags.
Proof.
  intros Hsr. unfold fft_magnitude. rewrite repeat_length.
  destruct (Nat.leb_spec n 1).
  - exists [0], [0]. repeat split; auto.
  - rewrite (proj2 (Z.eqb_neq _ _) Hsr).
    eexists _, _. split; [reflexivity|]. split.
    + unfold Np.rfftfreq, Np.rfft. rewrite !length_map, !length_seq, repeat_length. reflexivity.
    + apply Forall_forall. intros y Hy. apply in_map_iff in Hy as (z & <- & Hz).
      unfold Np.rfft in Hz. apply in_map_iff in Hz as (k & <- & _).
      apply dft_bin_zero.
Qed.

(** The aggregator returns, for non-negative magnitudes with levels in
    [0, 1]. *)
Lemma spectrum_to_bands_levels edges freqs mags B :
  length edges = S B -> (1 <= B)%nat -> length freqs = length mags ->
  Forall (fun m => 0 <= m) mags ->
  exists out, spectrum_to_bands freqs mags edges = Some out /\
    length out = B /\ Forall (fun x => 0 <= x <= 1) out.
Proof.
  intros Hlen HB Hfm Hpos.
  unfold spectrum_to_bands.
  destruct (accumulate_bands_preserved edges freqs mags B Hlen HB Hfm)
    as (acc & E & L & HP).
  rewrite E. cbn [obind].
  specialize (HP (fun x => 0 <= x) (Rle_refl 0) ltac:(intros; lra) Hpos).
  destruct acc as [out|out]; cbn [sums_of] in *.
  - exists out. repeat split; auto.
    eapply Forall_impl; [|exact (accumulate_bands_nobins _ _ _ _ E)].
    intros x ->. lra.
  - set (sm := smooth (map Np.log1p out) (Z.of_nat (length edges) - 1)).
    assert (Hs : Forall (fun x => 0 <= x) sm).
    { apply smooth_preserved; auto; try (intros; lra).
      apply Forall_forall. intros y Hy. apply in_map_iff in Hy as (x & <- & Hx).
      rewrite Forall_forall in HP. apply log1p_nonneg; auto. }
    assert (Hl : length sm = B).
    { unfold sm. rewrite smooth_length; rewrite length_map; lia. }
    destruct (normalise_unit sm) as (res & En & Ln & Hu); auto.
    { apply nonempty_length; lia. }
    exists res. repeat split; auto. lia.
Qed.

(** What the aggregator returns once bins were accumulated: the smoothed
    logarithms, divided by their maximum only when it exceeds 1e-8. *)
Lemma spectrum_to_bands_scaling edges freqs mags B sums mx :
  length edges = S B ->
  accumulate_bands freqs mags edges = Some (Sums sums) ->
  let sm := smooth (map Np.log1p sums) (Z.of_nat B) in
  Np.amax sm = Some mx ->
  (mx <= 1 / 100000000 -> spectrum_to_bands freqs mags edges = Some sm) /\
  (1 / 100000000 < mx ->
     spectrum_to_bands freqs mags edges = Some (map (fun x => x / mx) sm)).
Proof.
  intros Hlen Eacc sm Emx. unfold spectrum_to_bands, normalise.
  rewrite Eacc. cbn [obind].
  replace (Z.of_nat (length edges) - 1)%Z with (Z.of_nat B) by lia.
  fold sm. rewrite Emx. cbn [obind]. split; intros Hmx.
  - now rewrite (proj2 (Rltb_false _ _) Hmx).
  - now rewrite (proj2 (Rltb_true _ _) Hmx).
Qed.

Lemma log1p_le x : 0 <= x -> Np.log1p x <= x.
Proof.
  intros [Hx|<-].
  - unfold Np.log1p. rewrite <- (ln_exp x) at 2.
    apply Rlt_le, ln_increasing; [lra|]. apply exp_ineq1. lra.
  - rewrite log1p_0. lra.
Qed.

(** C2: for non-negative magnitudes the band aggregator returns [B] levels,
    each in [0, 1]; all-zero magnitudes, and so the spectrum of an all-zero
    sample window, give all-zero levels; and when bins were accumulated and
    the maximum of the smoothed logarithms is at most 1e-8, the aggregator
    returns them as they are, with no division, while a larger maximum
    divides them all. *)
Theorem spectrum_to_bands_unit_interval edges freqs mags B :
  length edges = S B -> (1 <= B)%nat -> length freqs = length mags ->
  Forall (fun m => 0 <= m) mags ->
  (exists out, spectrum_to_bands freqs mags edges = Some out /\
     length out = B /\ Forall (fun x => 0 <= x <= 1) out) /\
  (Forall (fun m => m = 0) mags ->
     spectrum_to_bands freqs mags edges = Some (repeat 0 B)) /\
  (forall n sr, sr <> 0%Z ->
     exists fs ms, fft_magnitude (repeat 0 n) sr = Some (fs, ms) /\
       spectrum_to_bands fs ms edges = Some (repeat 0 B)) /\
  (forall sums mx,
     accumulate_bands freqs mags edges = Some (Sums sums) ->
     let sm := smooth (map Np.log1p sums) (Z.of_nat B) in
     Np.amax sm = Some mx ->
     (mx <= 1 / 100000000 -> spectrum_to_bands freqs mags edges = Some sm) /\
     (1 / 100000000 < mx ->
        spectrum_to_bands freqs mags edges = Some (map (fun x => x / mx) sm))).
Proof.
  intros Hlen HB Hfm Hpos. split; [|split; [|split]].
  - now apply spectrum_to_bands_levels.
  - intros Hz. eapply spectrum_to_bands_zero; eauto.
  - intros n sr Hsr.
    destruct (fft_magnitude_zero n sr Hsr) as (fs & ms & E & L & Hz).
    exists fs, ms. split; auto. eapply spectrum_to_bands_zero; eauto.
  - intros sums mx Eacc sm Emx. now apply spectrum_to_bands_scaling.
Qed.

Lemma accumulate_bands_tiny :
  accumulate_bands [2] [1 / 1000000000] [1; 2; 4] = Some (Sums [0; 0 + 1 / 1000000000]).
Proof.
  unfold accumulate_bands, band_mask, band_index, Np.searchsorted_right.
  Reval. reflexivity.
Qed.

(** A single bin of magnitude 1e-9: the levels are the logarithms
    themselves, [log1p(1e-9)] in band 1, not scaled up to 1. *)
Lemma spectrum_to_bands_unit_interval_witness :
  spectrum_to_bands [2] [1 / 1000000000] [1; 2; 4] =
  Some [Np.log1p 0; Np.log1p (0 + 1 / 1000000000)].
Proof.
  destruct (spectrum_to_bands_unit_interval [1; 2; 4] [2] [1 / 1000000000] 2)
    as (_ & _ & _ & Hscale).
  - reflexivity.
  - lia.
  - reflexivity.
  - repeat constructor. lra.
  - destruct (Hscale _ (Rmax (Np.log1p 0) (Np.log1p (0 + 1 / 1000000000)))
                accumulate_bands_tiny eq_refl) as [Hsmall _].
    apply Hsmall.
    pose proof (log1p_le (0 + 1 / 1000000000) ltac:(lra)) as H1.
    rewrite log1p_0. unfold Rmax. destruct (Rle_dec _ _); lra.
Defined.

(** ** Band edges *)

Lemma ln_10_pos : 0 < ln 10.
Proof. rewrite <- ln_1. apply ln_increasing; lra. Qed.

Lemma Rpower_10_log10 x : 0 < x -> Rpower 10 (Np.log10 x) = x.
Proof.
  intros Hx. unfold Rpower, Np.log10, Rdiv.
  rewrite Rmult_assoc, Rinv_l, Rmult_1_r by (pose proof ln_10_pos; lra).
  now apply exp_ln.
Qed.

Lemma log10_increasing x y : 0 < x -> x < y -> Np.log10 x < Np.log10 y.
Proof.
  intros Hx Hxy. unfold Np.log10, Rdiv.
  apply Rmult_lt_compat_r.
  - apply Rinv_0_lt_compat, ln_10_pos.
  - now apply ln_increasing.
Qed.

Lemma last_map_seq (f : nat -> R) n d : last (map f (seq 0 (S n))) d = f n.
Proof. rewrite seq_S, map_app. simpl. apply last_last. Qed.

Lemma nth_map_seq (f : nat -> R) n i d : (i < n)%nat -> nth i (map f (seq 0 n)) d = f i.
Proof.
  intros Hi. rewrite (nth_indep _ d (f 0%nat)) by (rewrite length_map, length_seq; lia).
  rewrite map_nth, seq_nth; auto.
Qed.

Lemma set_last_same a d : a <> [] -> Np.set_last a (last a d) = a.
Proof.
  intros Ha. unfold Np.set_last. destruct a as [|x a]; [congruence|].
  symmetry. apply app_removelast_last. discriminate.
Qed.

Lemma clamped_low_ge_1 sr low high : 1 <= clamped_low sr low high.
Proof. unfold clamped_low. apply Rmax_l. Qed.

Lemma clamped_low_lt_high sr low high :
  clamped_low sr low high < clamped_high sr low high.
Proof.
  unfold clamped_high.
  destruct (Rleb _ _) eqn:E; [lra|].
  now apply Rleb_false in E.
Qed.

(** With a Nyquist frequency above 2 the upper edge stays below it. *)
Lemma clamped_high_below_nyquist sr low high :
  4 < sr -> clamped_high sr low high < sr / 2.
Proof.
  intros Hsr. unfold clamped_high, clamped_low.
  destruct (Rleb _ _) eqn:E.
  - apply Rleb_true in E. revert E.
    unfold Rmax, Rmin; repeat destruct (Rle_dec _ _); lra.
  - unfold Rmin; destruct (Rle_dec _ _); lra.
Qed.

Lemma compute_band_edges_eq sr low high B : (1 <= B)%nat ->
  let lo := clamped_low sr low high in
  let hi := clamped_high sr low high in
  let step := (Np.log10 hi - Np.log10 lo) / INR B in
  compute_band_edges sr low high (Z.of_nat B) =
  Some (map (fun i => Rpower 10 (INR i * step + Np.log10 lo)) (seq 0 (S B))).
Proof.
  intros HB lo hi step.
  pose proof (clamped_low_ge_1 sr low high) as Hlo.
  pose proof (clamped_low_lt_high sr low high) as Hhi.
  fold lo in Hlo, Hhi. fold hi in Hhi.
  unfold compute_band_edges.
  change (Rmax 1 (Rmin low (Rmin high (sr / 2 - 1) - 1))) with lo.
  change (if Rleb (Rmin high (sr / 2 - 1)) lo then lo + 1 else Rmin high (sr / 2 - 1))
    with hi.
  unfold Np.geomspace.
  destruct (Req_dec_T lo 0); [lra|]. destruct (Req_dec_T hi 0); [lra|].
  unfold Np.logspace, Np.linspace.
  rewrite (proj2 (Z.ltb_ge _ _)) by lia.
  replace (Z.to_nat (Z.of_nat B + 1)) with (S B) by lia.
  rewrite (proj2 (Nat.ltb_lt 1 (S B))) by lia.
  rewrite (proj2 (Z.ltb_lt 0 _)) by lia.
  rewrite (proj2 (Z.ltb_lt 1 _)) by lia.
  cbn [andb obind]. replace (S B - 1)%nat with B by lia. fold step.
  assert (HBn : 0 < INR B) by (apply lt_0_INR; lia).
  assert (Elast : INR B * step + Np.log10 lo = Np.log10 hi).
  { unfold step. field. lra. }
  set (y := map (fun i => INR i * step + Np.log10 lo) (seq 0 (S B))).
  assert (Ey : Np.set_last y (Np.log10 hi) = y).
  { rewrite <- Elast. rewrite <- (last_map_seq (fun i => INR i * step + Np.log10 lo) B 0).
    apply set_last_same. discriminate. }
  rewrite Ey. unfold y. rewrite map_map.
  set (e := map (fun i => Rpower 10 (INR i * step + Np.log10 lo)) (seq 0 (S B))).
  assert (Efirst : Np.set_first e lo = e).
  { unfold e. cbn [seq map Np.set_first]. f_equal.
    change (INR 0) with 0. rewrite Rmult_0_l, Rplus_0_l.
    symmetry. apply Rpower_10_log10. lra. }
  rewrite Efirst.
  assert (El : Np.set_last e hi = e).
  { replace hi with (last e 0).
    - apply set_last_same. discriminate.
    - unfold e. rewrite last_map_seq, Elast. apply Rpower_10_log10. lra. }
  now rewrite El.
Qed.

Lemma compute_band_edges_nth sr low high B i : (1 <= B)%nat -> (i <= B)%nat ->
  let lo := clamped_low sr low high in
  let hi := clamped_high sr low high in
  let step := (Np.log10 hi - Np.log10 lo) / INR B in
  exists edges, compute_band_edges sr low high (Z.of_nat B) = Some edges /\
    length edges = S B /\
    nth i edges 0 = Rpower 10 (INR i * step + Np.log10 lo).
Proof.
  intros HB Hi lo hi step. eexists. split; [apply compute_band_edges_eq; auto|].
  split.
  - now rewrite length_map, length_seq.
  - fold lo hi step. rewrite nth_map_seq by lia. reflexivity.
Qed.

Lemma compute_band_edges_ends sr low high B : (1 <= B)%nat ->
  exists edges, compute_band_edges sr low high (Z.of_nat B) = Some edges /\
    nth 0 edges 0 = clamped_low sr low high /\
    nth B edges 0 = clamped_high sr low high.
Proof.
  intros HB.
  pose proof (clamped_low_ge_1 sr low high) as Hlo.
  pose proof (clamped_low_lt_high sr low high) as Hhi.
  eexists. split; [apply compute_band_edges_eq; auto|].
  assert (HBn : 0 < INR B) by (apply lt_0_INR; lia).
  rewrite !nth_map_seq by lia. split.
  - change (INR 0) with 0. rewrite Rmult_0_l, Rplus_0_l.
    apply Rpower_10_log10. lra.
  - replace (INR B * _ + _) with (Np.log10 (clamped_high sr low high))
      by (field; lra).
    apply Rpower_10_log10. lra.
Qed.

(** C3: for every sample rate, band count [B >= 1] and cutoffs, the band edge
    calculator returns [B+1] strictly increasing edges in geometric
    progression from the clamped low cutoff (at least 1) to the clamped high
    cutoff; for a sample rate above 4 the last edge is below [sr/2]. *)
Theorem compute_band_edges_spec sr low high B : (1 <= B)%nat ->
  let lo := clamped_low sr low high in
  let hi := clamped_high sr low high in
  exists edges, compute_band_edges sr low high (Z.of_nat B) = Some edges /\
    length edges = S B /\
    strictly_increasing edges /\
    (forall i, (i < B)%nat ->
       nth (S i) edges 0 = nth i edges 0 * Rpower (hi / lo) (1 / INR B)) /\
    nth 0 edges 0 = lo /\ nth B edges 0 = hi /\
    1 <= nth 0 edges 0 /\
    (4 < sr -> nth B edges 0 < sr / 2).
Proof.
  intros HB lo hi.
  pose proof (clamped_low_ge_1 sr low high) as Hlo.
  pose proof (clamped_low_lt_high sr low high) as Hhi.
  fold lo in Hlo, Hhi. fold hi in Hhi.
  destruct (compute_band_edges_ends sr low high B HB) as (edges & E & E0 & EB).
  fold lo in E0. fold hi in EB.
  exists edges. split; [exact E|].
  set (step := (Np.log10 hi - Np.log10 lo) / INR B).
  assert (E' : map (fun i => Rpower 10 (INR i * step + Np.log10 lo)) (seq 0 (S B))
               = edges).
  { pose proof (compute_band_edges_eq sr low high B HB) as E2.
    cbv zeta in E2. fold lo hi step in E2. congruence. }
  clear E. rename E' into E.
  assert (HBn : 0 < INR B) by (apply lt_0_INR; lia).
  assert (Hstep : 0 < step).
  { unfold step. apply Rmult_lt_0_compat; [|now apply Rinv_0_lt_compat].
    pose proof (log10_increasing lo hi ltac:(lra) Hhi). lra. }
  assert (Hlen : length edges = S B) by (now rewrite <- E, length_map, length_seq).
  repeat split; auto.
  - (* strictly increasing *)
    intros i j [Hij Hj]. rewrite Hlen in Hj. rewrite <- E.
    rewrite !nth_map_seq by lia.
    apply Rpower_lt; [lra|].
    apply Rplus_lt_compat_r, Rmult_lt_compat_r; auto.
    now apply lt_INR.
  - (* constant ratio *)
    intros i Hi. rewrite <- E. rewrite !nth_map_seq by lia.
    rewrite S_INR.
    replace ((INR i + 1) * step + Np.log10 lo)
      with ((INR i * step + Np.log10 lo) + step) by ring.
    rewrite Rpower_plus. f_equal.
    unfold Rpower. f_equal. unfold step, Np.log10.
    replace (ln (hi / lo)) with (ln hi - ln lo).
    2:{ unfold Rdiv. rewrite ln_mult, ln_Rinv; try lra.
        apply Rinv_0_lt_compat; lra. }
    field.
    split; [lra|]. pose proof ln_10_pos; lra.
  - lra.
  - intros Hsr. rewrite EB. now apply clamped_high_below_nyquist.
Qed.

Lemma compute_band_edges_spec_witness :
  exists edges, compute_band_edges 44100 30 12000 (Z.of_nat 360) = Some edges /\
    length edges = 361%nat /\
    strictly_increasing edges /\
    (forall i, (i < 360)%nat ->
       nth (S i) edges 0 =
       nth i edges 0 *
       Rpower (clamped_high 44100 30 12000 / clamped_low 44100 30 12000) (1 / INR 360)) /\
    nth 0 edges 0 = clamped_low 44100 30 12000 /\
    nth 360 edges 0 = clamped_high 44100 30 12000 /\
    1 <= nth 0 edges 0 /\
    (4 < 44100 -> nth 360 edges 0 < 44100 / 2).
Proof.
  apply (compute_band_edges_spec 44100 30 12000 360). lia.
Defined.

Lemma clamped_high_at_sr_3 : clamped_high 3 30 12000 = 2.
Proof.
  unfold clamped_high, clamped_low, Rleb, Rmin, Rmax.
  repeat destruct (Rle_dec _ _); lra.
Qed.

(** C3, counterexample to the bound at a sample rate above 2: with
    [sr = 3] the high cutoff is clamped to 0.5, the low one to 1, and the
    forced [high = low + 1 = 2] is the last edge, above [sr / 2 = 1.5]. *)
Lemma last_edge_below_nyquist_fails : ~ last_edge_below_nyquist 3 30 12000 1.
Proof.
  intros H. destruct (H ltac:(lra) ltac:(lia)) as (edges & E & Hlt).
  destruct (compute_band_edges_ends 3 30 12000 1 ltac:(lia)) as (edges' & E' & _ & EB).
  rewrite E in E'. injection E' as <-.
  rewrite EB, clamped_high_at_sr_3 in Hlt. lra.
Qed.

(** ** The store *)

Lemma set_nth_same {A} (a : list A) i v : nth_error a i = Some v -> set_nth a i v = a.
Proof.
  revert i; induction a as [|x a IH]; intros [|i] H; simpl in *; try discriminate.
  - congruence.
  - now rewrite IH.
Qed.

Lemma set_nth_set_nth {A} (a : list A) i v w :
  set_nth (set_nth a i v) i w = set_nth a i w.
Proof.
  revert i; induction a as [|x a IH]; intros [|i]; simpl; auto.
  now rewrite IH.
Qed.

Lemma nth_error_set_nth {A} (a : list A) i v : (i < length a)%nat ->
  nth_error (set_nth a i v) i = Some v.
Proof.
  revert i; induction a as [|x a IH]; intros [|i] H; simpl in *; try lia; auto.
  apply IH; lia.
Qed.

Lemma nth_error_set_nth_other {A} (a : list A) i j v : i <> j ->
  nth_error (set_nth a i v) j = nth_error a j.
Proof.
  revert i j; induction a as [|x a IH]; intros [|i] [|j] H; simpl; auto; try lia.
Qed.

Lemma set_nth_length {A} (a : list A) i v : length (set_nth a i v) = length a.
Proof.
  revert i; induction a as [|x a IH]; intros [|i]; simpl; auto.
Qed.

Lemma set_image_same s l img : nth_error (images s) l = Some img -> set_image s l img = s.
Proof.
  intros H. unfold set_image. rewrite set_nth_same by auto. now destruct s.
Qed.

Lemma set_image_twice s l img img' :
  set_image (set_image s l img) l img' = set_image s l img'.
Proof. unfold set_image; simpl. now rewrite set_nth_set_nth. Qed.

Lemma set_image_lookup s l img img0 : nth_error (images s) l = Some img0 ->
  nth_error (images (set_image s l img)) l = Some img.
Proof.
  intros H. simpl. apply nth_error_set_nth.
  apply nth_error_Some. congruence.
Qed.

(** A loop of draw calls on one image applies them in order, to that image
    only. *)
Lemma for_each_draw {A} (f : A -> DrawOp) d (xs : list A) : forall s img,
  nth_error (images s) d = Some img ->
  for_each xs (fun x => draw d (f x)) s = Some (tt, set_image s d (drawn img (map f xs))).
Proof.
  induction xs as [|x xs IH]; intros s img H; simpl.
  - unfold ret. now rewrite set_image_same.
  - unfold bind, draw at 1. rewrite H.
    rewrite (IH _ (Drawn img (f x))).
    + cbn [drawn fold_left]. f_equal. f_equal.
      change {| images := set_nth (images s) d (Drawn img (f x));
                edges_obj := edges_obj s |}
        with (set_image s d (Drawn img (f x))).
      apply set_image_twice.
    + simpl. apply nth_error_set_nth. apply nth_error_Some. congruence.
Qed.

(** ** Bars *)

Lemma linspace_open a b n :
  Np.linspace a b (Z.of_nat n) false =
  Some (map (fun i => INR i * ((b - a) / INR n) + a) (seq 0 n)).
Proof.
  unfold Np.linspace. rewrite (proj2 (Z.ltb_ge _ _)) by lia.
  now rewrite Nat2Z.id.
Qed.

Lemma combine_map_seq {A B} (f : nat -> A) (g : R -> B) levels : forall k,
  combine (map f (seq k (length levels))) (map g levels) =
  map (fun i => (f i, g (nth (i - k) levels 0))) (seq k (length levels)).
Proof.
  induction levels as [|x levels IH]; intros k; simpl; auto.
  rewrite Nat.sub_diag. f_equal. rewrite IH.
  apply map_ext_in. intros i Hi. apply in_seq in Hi.
  replace (i - k)%nat with (S (i - S k)) by lia. reflexivity.
Qed.

Lemma draw_spokes_ops cfg d levels color width s img :
  nth_error (images s) d = Some img ->
  draw_spokes cfg d levels color width s =
  Some (tt, set_image s d
              (drawn img
                 (spoke_ops cfg levels color
                    (Z.max 1 (match width with
                              | None => BAR_THICKNESS cfg
                              | Some w => w
                              end))))).
Proof.
  intros H. unfold draw_spokes.
  rewrite linspace_open. unfold bind at 1, lift at 1.
  rewrite (for_each_draw _ d _ s img H). do 4 f_equal.
  rewrite combine_map_seq, map_map. unfold spoke_ops.
  apply map_ext_in. intros i Hi. apply in_seq in Hi.
  rewrite Nat.sub_0_r. cbn [spoke].
  assert (HB : INR (length levels) <> 0) by (apply not_0_INR; lia).
  replace (INR i * ((2 * PI - 0) / INR (length levels)) + 0)
    with (2 * PI * INR i / INR (length levels)) by (field; auto).
  reflexivity.
Qed.

Lemma power_0 y : Np.power 0 y = 0.
Proof. unfold Np.power. destruct (Req_dec_T 0 0); [reflexivity|lra]. Qed.

Lemma power_1 y : Np.power 1 y = 1.
Proof.
  unfold Np.power. destruct (Req_dec_T 1 0); [lra|].
  unfold Rpower. rewrite ln_1, Rmult_0_r. apply exp_0.
Qed.

Lemma power_nonneg x y : 0 <= Np.power x y.
Proof.
  unfold Np.power. destruct (Req_dec_T x 0); [lra|].
  unfold Rpower. apply Rlt_le, exp_pos.
Qed.

Lemma power_monotone x1 x2 y : 0 <= y -> 0 <= x1 <= x2 ->
  Np.power x1 y <= Np.power x2 y.
Proof.
  intros Hy [H1 H12]. unfold Np.power at 1.
  destruct (Req_dec_T x1 0); [apply power_nonneg|].
  unfold Np.power. destruct (Req_dec_T x2 0); [lra|].
  apply Rle_Rpower_l; lra.
Qed.

Lemma clipR_unit x : 0 <= Np.clipR x 0 1 <= 1.
Proof.
  unfold Np.clipR, Rmin, Rmax. repeat destruct (Rle_dec _ _); lra.
Qed.

Lemma clipR_monotone x1 x2 : x1 <= x2 -> Np.clipR x1 0 1 <= Np.clipR x2 0 1.
Proof.
  unfold Np.clipR, Rmin, Rmax. repeat destruct (Rle_dec _ _); lra.
Qed.

Lemma clipR_id x : 0 <= x <= 1 -> Np.clipR x 0 1 = x.
Proof.
  unfold Np.clipR, Rmin, Rmax. repeat destruct (Rle_dec _ _); lra.
Qed.

(** C4: a bar has length [BAR_MIN + BAR_MAX_EXTRA * clamp(level,0,1)^0.9]:
    [BAR_MIN] at level 0, [BAR_MIN + BAR_MAX_EXTRA] at level 1, and never
    shorter for a higher level; a pass draws bar [i] of [B] as the segment
    from [(cx + R cos t, cy + R sin t)] to
    [(cx + (R+h) cos t, cy + (R+h) sin t)] at [t = 2 pi i / B]. *)
Theorem draw_spokes_geometry cfg d levels color width s img :
  (0 <= BAR_MAX_EXTRA cfg)%Z ->
  nth_error (images s) d = Some img ->
  (forall level, bar_height cfg level =
     IZR (BAR_MIN cfg) +
     IZR (BAR_MAX_EXTRA cfg) * Np.power (Rmin (Rmax level 0) 1) (9 / 10)) /\
  bar_height cfg 0 = IZR (BAR_MIN cfg) /\
  bar_height cfg 1 = IZR (BAR_MIN cfg) + IZR (BAR_MAX_EXTRA cfg) /\
  (forall l1 l2, l1 <= l2 -> bar_height cfg l1 <= bar_height cfg l2) /\
  draw_spokes cfg d levels color width s =
  Some (tt, set_image s d
              (drawn img
                 (spoke_ops cfg levels color
                    (Z.max 1 (match width with
                              | None => BAR_THICKNESS cfg
                              | Some w => w
                              end))))).
Proof.
  intros Hextra Himg. repeat split.
  - unfold bar_height. rewrite clipR_id by lra. rewrite power_0. lra.
  - unfold bar_height. rewrite clipR_id by lra. rewrite power_1. lra.
  - intros l1 l2 Hl. unfold bar_height.
    apply Rplus_le_compat_l, Rmult_le_compat_l.
    + now apply IZR_le.
    + apply power_monotone; [lra|].
      pose proof (clipR_unit l1). pose proof (clipR_monotone l1 l2 Hl). lra.
  - now apply draw_spokes_ops.
Qed.

Lemma draw_spokes_geometry_witness :
  let s := {| images := [Blank (1, 1)%Z]; edges_obj := [] |} in
  (forall level, bar_height script_config level =
     4 + 70 * Np.power (Rmin (Rmax level 0) 1) (9 / 10)) /\
  bar_height script_config 0 = 4 /\
  bar_height script_config 1 = 4 + 70 /\
  (forall l1 l2, l1 <= l2 -> bar_height script_config l1 <= bar_height script_config l2) /\
  draw_spokes script_config 0%nat [0; 1] (255, 255, 255, 255)%Z None s =
  Some (tt, set_image s 0%nat
              (drawn (Blank (1, 1)%Z)
                 (spoke_ops script_config [0; 1] (255, 255, 255, 255)%Z
                    (Z.max 1 (BAR_THICKNESS script_config))))).
Proof.
  intros s.
  apply (draw_spokes_geometry script_config 0%nat [0; 1] (255, 255, 255, 255)%Z None s
           (Blank (1, 1)%Z)).
  - simpl. lia.
  - reflexivity.
Defined.

(** ** Audio windows *)

Lemma mul_length a b : length (Np.mul a b) = Nat.min (length a) (length b).
Proof.
  revert b; induction a as [|x a IH]; intros [|y b]; simpl; auto.
Qed.

Lemma hanning_length n : length (Np.hanning n) = n.
Proof.
  destruct n as [|[|n]]; simpl; auto.
  now rewrite length_map, length_seq.
Qed.

Lemma py_int_nonneg x : 0 <= x -> (0 <= py_int x)%Z.
Proof.
  intros Hx. unfold py_int. destruct (Rle_dec 0 x) as [_|n]; [|contradiction].
  destruct (base_Int_part x) as [_ H].
  assert (Hlt : IZR (-1) < IZR (Int_part x)) by (simpl; lra).
  apply lt_IZR in Hlt. lia.
Qed.

(** [int] and the rounded product on rational operands, where they
    evaluate. *)
Lemma py_int_Q2R q : py_int (Q2R q) = Qint q.
Proof.
  unfold py_int, Qint.
  destruct (Rle_dec 0 (Q2R q)) as [H|H].
  - rewrite <- RMicromega.Q2R_0 in H. apply Rle_Qle in H.
    rewrite (proj2 (Qle_bool_iff 0 q) H). apply Int_part_Q2R.
  - destruct (Qle_bool 0 q) eqn:E.
    + apply Qle_bool_iff, Qle_Rle in E. rewrite RMicromega.Q2R_0 in E. contradiction.
    + rewrite <- Q2R_opp, Int_part_Q2R. reflexivity.
Qed.

Lemma zero_fill_Q sr (w : Q) :
  py_int (fl64 (fl64 (IZR sr) * fl64 (Q2R w))) =
  Qint (fl64Q (fl64Q (inject_Z sr) * fl64Q w)).
Proof.
  now rewrite <- Q2R_inject_Z, !fl64_Q2R, <- Q2R_mult, fl64_Q2R, py_int_Q2R.
Qed.

Lemma zero_fill_nonneg sr win_sec : 0 <= IZR sr * win_sec ->
  (0 <= py_int (fl64 (fl64 (IZR sr) * fl64 win_sec)))%Z.
Proof. intros H. now apply py_int_nonneg, fl64_product_nonneg. Qed.

Lemma py_int_ge_1 x : 0 <= x -> ((1 <= py_int x)%Z <-> 1 <= x).
Proof.
  intros Hx. unfold py_int. destruct (Rle_dec 0 x) as [_|n]; [|contradiction].
  destruct (base_Int_part x) as [H1 H2]. split.
  - intros H. apply IZR_le in H. lra.
  - intros H. assert (Hlt : IZR 0 < IZR (Int_part x)) by (simpl; lra).
    apply lt_IZR in Hlt. lia.
Qed.

(** For a timestamp inside the track the requested range is never empty. *)
Lemma window_range_inside cfg duration t win_sec :
  0 < win_sec -> 0 <= t < duration ->
  let start := Rmax 0 (t - win_sec / 2) in
  let end_ := Rmin duration (t + win_sec / 2) in
  window_range cfg duration t win_sec = Some (start, end_) /\
  0 <= start <= t /\ t < end_ <= duration.
Proof.
  intros Hw Ht start end_.
  assert (Hs : 0 <= start <= t).
  { unfold start, Rmax. destruct (Rle_dec _ _); lra. }
  assert (He : t < end_ <= duration).
  { unfold end_, Rmin. destruct (Rle_dec _ _); lra. }
  repeat split; try lra.
  unfold window_range. fold start end_.
  now rewrite (proj2 (Rleb_false end_ start)) by lra.
Qed.

(** Inside the track, a clip that keeps MoviePy's contract hands back the
    samples of the window. *)
Lemma window_samples_inside cfg audio duration t win_sec sr :
  0 < win_sec -> 0 <= t < duration -> cuts_inside audio duration sr ->
  exists sub sa,
    subclip_compat audio (Rmax 0 (t - win_sec / 2))
                         (Rmin duration (t + win_sec / 2)) = Some sub /\
    sub sr = Some sa /\
    window_samples cfg audio duration t win_sec sr =
    Some (match sa with Arr2 rows => Np.mean_rows rows | Arr1 a => a end).
Proof.
  intros Hw Ht Hcut.
  destruct (window_range_inside cfg duration t win_sec Hw Ht) as (Er & Hs & He).
  cbv zeta in Er, Hs, He.
  set (start := Rmax 0 (t - win_sec / 2)) in *.
  set (end_ := Rmin duration (t + win_sec / 2)) in *.
  assert (Hse : 0 <= start < end_) by lra.
  destruct (Hcut start end_ Hse (proj2 He)) as (sub & sa & Esub & Esa).
  exists sub, sa. split; [exact Esub|]. split; [exact Esa|].
  unfold window_samples. rewrite Er. cbn [obind fst snd].
  rewrite Esub. cbn [obind]. now rewrite Esa.
Qed.

(** C5: for a timestamp [t] in [[0, D)] the extractor asks for the range
    [[max(0, t - w/2), min(D, t + w/2)]], which holds [t], is not empty, and
    spans the whole window of [w] seconds unless cut at the start or end of
    the track; the range is cut with [subclip] where the clip has it and
    with [subclipped] otherwise.  The samples the clip hands back for that
    range, averaged over the channels, are returned tapered, as many as
    they are.  When the clip hands back none, the window is [int(sr * w)]
    zeros, [int] truncating the float product, and not an error.  So the
    window holds at least one sample when the clip hands back one, and
    otherwise exactly when the float product [sr * w] is at least 1. *)
Theorem get_audio_window_spec cfg audio duration t win_sec sr :
  0 < win_sec -> (0 < sr)%Z -> 0 <= t < duration ->
  cuts_inside audio duration sr ->
  let start := Rmax 0 (t - win_sec / 2) in
  let end_ := Rmin duration (t + win_sec / 2) in
  let p := fl64 (fl64 (IZR sr) * fl64 win_sec) in
  window_range cfg duration t win_sec = Some (start, end_) /\
  0 <= start <= t /\ t < end_ <= duration /\
  end_ - start <= win_sec /\
  (win_sec / 2 <= t <= duration - win_sec / 2 -> end_ - start = win_sec) /\
  exists sub sa w,
    (forall f, subclip audio = Some f -> f start end_ = Some sub) /\
    (subclip audio = None ->
       forall g, subclipped audio = Some g -> g start end_ = Some sub) /\
    sub sr = Some sa /\
    let arr := match sa with Arr2 rows => Np.mean_rows rows | Arr1 a => a end in
    window_samples cfg audio duration t win_sec sr = Some arr /\
    get_audio_window cfg audio duration t win_sec sr = Some w /\
    (arr <> [] ->
       w = Np.mul arr (Np.hanning (length arr)) /\
       length w = length arr /\ (1 <= length w)%nat) /\
    (arr = [] ->
       0 <= p /\ w = repeat 0 (Z.to_nat (py_int p)) /\
       ((1 <= length w)%nat <-> 1 <= p)).
Proof.
  intros Hw Hsr Ht Hcut start end_ p.
  destruct (window_range_inside cfg duration t win_sec Hw Ht) as (Er & Hs & He).
  fold start end_ in Er, Hs, He.
  destruct (window_samples_inside cfg audio duration t win_sec sr Hw Ht Hcut)
    as (sub & sa & Esub & Esa & Earr).
  fold start end_ in Esub.
  set (arr := match sa with Arr2 rows => Np.mean_rows rows | Arr1 a => a end) in *.
  assert (Hp : 0 <= p).
  { apply fl64_product_nonneg. apply Rmult_le_pos; [|lra]. apply IZR_le. lia. }
  assert (Eget : get_audio_window cfg audio duration t win_sec sr
                 = Some (if (length arr =? 0)%nat then repeat 0 (Z.to_nat (py_int p))
                         else Np.mul arr (Np.hanning (length arr)))).
  { unfold get_audio_window. rewrite Earr. cbn [obind]. fold p.
    destruct (length arr =? 0)%nat; [|reflexivity].
    unfold Np.zeros. now rewrite (proj2 (Z.ltb_ge _ _)) by (now apply py_int_nonneg). }
  split; [exact Er|]. split; [exact Hs|]. split; [exact He|].
  split.
  { unfold start, end_, Rmax, Rmin. repeat destruct (Rle_dec _ _); lra. }
  split.
  { intros Hin. unfold start, end_, Rmax, Rmin. repeat destruct (Rle_dec _ _); lra. }
  exists sub, sa. eexists.
  split.
  { intros f Ef. unfold subclip_compat in Esub. now rewrite Ef in Esub. }
  split.
  { intros En g Eg. unfold subclip_compat in Esub. now rewrite En, Eg in Esub. }
  split; [exact Esa|]. cbv zeta. fold arr.
  split; [exact Earr|]. split; [exact Eget|].
  split.
  - intros Hne.
    assert (E0 : (length arr =? 0)%nat = false).
    { apply Nat.eqb_neq. destruct arr; [congruence|discriminate]. }
    rewrite E0. split; [reflexivity|].
    rewrite mul_length, hanning_length.
    apply Nat.eqb_neq in E0. lia.
  - intros Hnil. rewrite Hnil. cbn [length Nat.eqb].
    split; [exact Hp|]. split; [reflexivity|].
    rewrite repeat_length, <- (py_int_ge_1 p Hp).
    pose proof (py_int_nonneg p Hp). lia.
Qed.

(** C5, counterexample to the rounded length: at 3 samples per second and a
    window of half a second a range without samples gives [int(1.5) = 1]
    zero, where [round(1.5)] is 2. *)
Lemma fallback_rounds_fails : ~ fallback_rounds script_config empty_clip 2 1 (1 / 2) 3.
Proof.
  unfold fallback_rounds. intros H.
  assert (Es : window_samples script_config empty_clip 2 1 (1 / 2) 3 = Some []).
  { unfold window_samples.
    destruct (window_range_inside script_config 2 1 (1 / 2) ltac:(lra) ltac:(lra))
      as (-> & _). reflexivity. }
  specialize (H Es). unfold get_audio_window in H. rewrite Es in H.
  cbn [obind length Nat.eqb] in H.
  replace (1 / 2) with (Q2R (1 # 2)) in H at 1 by (unfold Q2R; simpl; lra).
  rewrite zero_fill_Q in H.
  replace (1 / 2 * IZR 3) with (Q2R (3 # 2)) in H by (unfold Q2R; simpl; lra).
  rewrite py_round_Q2R in H.
  vm_compute in H. discriminate.
Qed.

(** ** Frames *)

Lemma drawn_app img a b : drawn (drawn img a) b = drawn img (a ++ b).
Proof. unfold drawn. now rewrite fold_left_app. Qed.

(** A loop of passes draws their bars one pass after the other. *)
Lemma for_each_passes cfg d levels (c : Z -> rgba) (w : Z -> Z) (xs : list Z) :
  forall s img, nth_error (images s) d = Some img ->
  for_each xs (fun i => draw_spokes cfg d levels (c i) (Some (w i))) s =
  Some (tt, set_image s d
              (drawn img (flat_map (fun i => spoke_ops cfg levels (c i) (Z.max 1 (w i))) xs))).
Proof.
  induction xs as [|x xs IH]; intros s img H; simpl.
  - unfold ret. now rewrite set_image_same.
  - unfold bind. rewrite (draw_spokes_ops cfg d levels (c x) (Some (w x)) s img H).
    rewrite (IH _ _ (set_image_lookup s d _ img H)).
    now rewrite set_image_twice, drawn_app.
Qed.

Lemma frame_levels_eq cfg audio duration t s :
  frame_levels cfg audio duration t s =
  match levels_at cfg audio duration (edges_obj s) t with
  | Some levels => Some (levels, s)
  | None => None
  end.
Proof.
  unfold frame_levels, levels_at, bind, lift, read_edges.
  destruct (get_audio_window _ _ _ _ _ _) as [sig|]; cbn [obind]; auto.
  destruct (fft_magnitude _ _) as [fm|]; cbn [obind]; auto.
Qed.

Lemma set_nth_end {A} (a : list A) x v : set_nth (a ++ [x]) (length a) v = a ++ [v].
Proof. induction a as [|y a IH]; simpl; auto. now rewrite IH. Qed.

Lemma nth_error_end {A} (a : list A) x : nth_error (a ++ [x]) (length a) = Some x.
Proof. rewrite nth_error_app2, Nat.sub_diag by lia. reflexivity. Qed.

(** What one call of [make_frame_rgb] does: the frame is the background
    with the frame's draw calls applied, held by a new object; nothing else
    in the store changes. *)
Lemma make_frame_rgb_eq cfg audio duration BG_BASE t s levels bg :
  levels_at cfg audio duration (edges_obj s) t = Some levels ->
  nth_error (images s) BG_BASE = Some bg ->
  make_frame_rgb cfg audio duration BG_BASE t s =
  Some (ToRGB (drawn bg (frame_ops cfg levels)),
        {| images := images s ++ [drawn bg (frame_ops cfg levels)];
           edges_obj := edges_obj s |}).
Proof.
  intros Hlev Hbg. unfold make_frame_rgb.
  unfold bind at 1. rewrite frame_levels_eq, Hlev.
  unfold bind at 1, image_copy. rewrite Hbg.
  set (d := length (images s)).
  set (s1 := {| images := images s ++ [bg]; edges_obj := edges_obj s |}).
  assert (H1 : nth_error (images s1) d = Some bg) by apply nth_error_end.
  unfold bind at 1.
  assert (Ering : (if BASE_RING_ON cfg && (0 <? BASE_RING_W cfg)%Z
                   then draw d (Ellipse (fst (CENTER cfg) - IZR (BASE_RADIUS cfg),
                                         snd (CENTER cfg) - IZR (BASE_RADIUS cfg),
                                         fst (CENTER cfg) + IZR (BASE_RADIUS cfg),
                                         snd (CENTER cfg) + IZR (BASE_RADIUS cfg))
                                        (255, 255, 255, 160)%Z (BASE_RING_W cfg))
                   else ret tt) s1
                  = Some (tt, set_image s1 d (drawn bg (ring_ops cfg)))).
  { unfold ring_ops. destruct (BASE_RING_ON cfg && (0 <? BASE_RING_W cfg)%Z).
    - unfold draw. rewrite H1. reflexivity.
    - unfold ret. cbn [drawn fold_left]. now rewrite set_image_same. }
  cbv zeta. rewrite Ering. clear Ering.
  set (s2 := set_image s1 d (drawn bg (ring_ops cfg))).
  assert (H2 : nth_error (images s2) d = Some (drawn bg (ring_ops cfg)))
    by (apply (set_image_lookup s1 d _ bg H1)).
  unfold bind at 1.
  assert (Eglow : (if GLOW_ON cfg && (0 <? GLOW_STEPS cfg)%Z
                   then for_each (range 1 (GLOW_STEPS cfg + 1))
                          (fun i => draw_spokes cfg d levels
                                      (255, 255, 255, glow_alpha cfg i)%Z
                                      (Some (glow_width cfg i)))
                   else ret tt) s2
                  = Some (tt, set_image s2 d
                                (drawn (drawn bg (ring_ops cfg)) (glow_ops cfg levels)))).
  { unfold glow_ops. destruct (GLOW_ON cfg && (0 <? GLOW_STEPS cfg)%Z).
    - apply (for_each_passes cfg d levels
               (fun i => (255, 255, 255, glow_alpha cfg i)%Z) (glow_width cfg)).
      exact H2.
    - unfold ret. cbn [drawn fold_left]. now rewrite set_image_same. }
  rewrite Eglow. clear Eglow.
  unfold s2. rewrite set_image_twice, drawn_app.
  set (s3 := set_image s1 d (drawn bg (ring_ops cfg ++ glow_ops cfg levels))).
  assert (H3 : nth_error (images s3) d
               = Some (drawn bg (ring_ops cfg ++ glow_ops cfg levels)))
    by (apply (set_image_lookup s1 d _ bg H1)).
  unfold bind at 1.
  rewrite (draw_spokes_ops cfg d levels _ (Some (BAR_THICKNESS cfg)) s3 _ H3).
  unfold s3. rewrite set_image_twice, drawn_app, <- app_assoc.
  fold (sharp_ops cfg levels). fold (frame_ops cfg levels).
  unfold bind, read_image.
  rewrite (set_image_lookup s1 d _ bg H1). unfold ret.
  unfold set_image, s1, d. cbn [images edges_obj].
  now rewrite set_nth_end.
Qed.

(** ** Glow passes *)

Lemma Qint_neg q : (q < 0)%Q -> (Qint q <= 0)%Z.
Proof.
  intros Hq. unfold Qint.
  destruct (Qle_bool 0 q) eqn:E.
  - apply Qle_bool_iff in E. exfalso. lra.
  - pose proof (Qceiling_lt q) as Hc.
    assert (Hlt : (inject_Z (Qceiling q - 1) < inject_Z 0)%Q)
      by (apply Qlt_trans with q; [exact Hc|exact Hq]).
    rewrite <- Zlt_Qlt in Hlt. lia.
Qed.

Lemma Qint_monotone q1 q2 : (q1 <= q2)%Q -> (Qint q1 <= Qint q2)%Z.
Proof.
  intros Hq. unfold Qint at 2.
  destruct (Qle_bool 0 q2) eqn:E2.
  - unfold Qint. destruct (Qle_bool 0 q1) eqn:E1.
    + now apply Qfloor_resp_le.
    + apply Qle_bool_iff in E2.
      assert (Hn : (Qint q1 <= 0)%Z).
      { apply Qint_neg. destruct (Qlt_le_dec q1 0) as [Hlt|Hge]; auto.
        apply Qle_bool_iff in Hge. congruence. }
      unfold Qint in Hn. rewrite E1 in Hn.
      pose proof (Qfloor_resp_le 0 q2 E2) as Hf.
      change (Qfloor 0) with 0%Z in Hf. lia.
  - unfold Qint. destruct (Qle_bool 0 q1) eqn:E1.
    + apply Qle_bool_iff in E1.
      assert (E : Qle_bool 0 q2 = true) by (apply Qle_bool_iff; lra).
      congruence.
    + now apply Qceiling_resp_le.
Qed.

(** The fade factor of a pass lies in [0, 1] and never grows from one
    pass to the next, rounding included. *)
Lemma glow_fade_antitone cfg i j :
  (1 <= i <= j)%Z -> (j <= GLOW_STEPS cfg)%Z ->
  (0 <= glow_fade cfg j /\ glow_fade cfg j <= glow_fade cfg i)%Q.
Proof.
  intros Hij HjN. unfold glow_fade.
  replace (Z.max 1 (GLOW_STEPS cfg)) with (GLOW_STEPS cfg) by lia.
  set (m := inject_Z (GLOW_STEPS cfg)).
  assert (Hm : (0 < m)%Q).
  { unfold m. change 0%Q with (inject_Z 0). rewrite <- Zlt_Qlt. lia. }
  set (xi := (inject_Z (i - 1) / m)%Q).
  set (xj := (inject_Z (j - 1) / m)%Q).
  assert (Exi : (xi * m == inject_Z (i - 1))%Q) by (unfold xi; field; lra).
  assert (Exj : (xj * m == inject_Z (j - 1))%Q) by (unfold xj; field; lra).
  assert (Hab : (inject_Z (i - 1) <= inject_Z (j - 1))%Q) by (rewrite <- Zle_Qle; lia).
  assert (Hjm : (inject_Z (j - 1) < m)%Q) by (unfold m; rewrite <- Zlt_Qlt; lia).
  assert (Hi0 : (0 <= inject_Z (i - 1))%Q).
  { change 0%Q with (inject_Z 0). rewrite <- Zle_Qle. lia. }
  assert (Hxi : (0 <= xi)%Q) by nra.
  assert (Hx : (xi <= xj)%Q) by nra.
  assert (Hx1 : (xj <= 1)%Q) by nra.
  pose proof (fl64Q_monotone xi xj Hxi Hx) as Hf.
  pose proof (fl64Q_monotone xj 1 ltac:(lra) Hx1) as Hf1.
  assert (E1 : fl64Q 1 = 1%Q) by (vm_compute; reflexivity).
  rewrite E1 in Hf1.
  split.
  - apply fl64Q_nonneg. lra.
  - apply fl64Q_monotone; lra.
Qed.

Lemma Qint_nonpos q : (q <= 0)%Q -> (Qint q <= 0)%Z.
Proof. intros Hq. apply (Qint_monotone q 0 Hq). Qed.

Lemma glow_alpha_antitone cfg i j :
  (1 <= i <= j)%Z -> (j <= GLOW_STEPS cfg)%Z ->
  (glow_alpha cfg j <= glow_alpha cfg i)%Z.
Proof.
  intros Hij HjN. unfold glow_alpha, Qmul_py.
  destruct (glow_fade_antitone cfg i j Hij HjN) as [Hj0 Hji].
  set (fi := glow_fade cfg i) in *. set (fj := glow_fade cfg j) in *.
  set (A := float_of_int (GLOW_ALPHA cfg)).
  destruct (Qlt_le_dec A 0) as [HA|HA].
  - (* a negative base alpha: every pass is clamped to 0 *)
    assert (H1 : (Qint (fl64Q (A * fi)) <= 0)%Z)
      by (apply Qint_nonpos, fl64Q_nonpos; nra).
    assert (H2 : (Qint (fl64Q (A * fj)) <= 0)%Z)
      by (apply Qint_nonpos, fl64Q_nonpos; nra).
    lia.
  - assert (H : (Qint (fl64Q (A * fj)) <= Qint (fl64Q (A * fi)))%Z)
      by (apply Qint_monotone, fl64Q_monotone; nra).
    lia.
Qed.

Lemma glow_width_increasing cfg i j :
  (0 < GLOW_EXPAND cfg)%Z -> (i < j)%Z -> (glow_width cfg i < glow_width cfg j)%Z.
Proof. intros He Hij. unfold glow_width. nia. Qed.

(** C6: with glow enabled and [N >= 1] passes, pass [i] uses the alpha
    [max(0, int(GLOW_ALPHA * (1 - (i-1)/N)))] ([int] truncates the product,
    which is computed in binary64) and the width
    [BAR_THICKNESS + i * GLOW_EXPAND]; from pass 1 to pass [N] the alpha never
    grows and, for a positive [GLOW_EXPAND], the width grows strictly; the
    frame is the background with the base ring, then the [N] glow passes in
    order, and last the sharp pass at [BAR_THICKNESS] and alpha 255. *)
Theorem glow_passes_spec cfg audio duration BG_BASE t s levels bg :
  GLOW_ON cfg = true -> (1 <= GLOW_STEPS cfg)%Z ->
  levels_at cfg audio duration (edges_obj s) t = Some levels ->
  nth_error (images s) BG_BASE = Some bg ->
  let N := GLOW_STEPS cfg in
  (forall i, glow_alpha cfg i =
     Z.max 0 (Qint (fl64Q (fl64Q (inject_Z (GLOW_ALPHA cfg)) *
                           fl64Q (1 - fl64Q (inject_Z (i - 1) / inject_Z N)))))) /\
  (forall i, glow_width cfg i = (BAR_THICKNESS cfg + i * GLOW_EXPAND cfg)%Z) /\
  (forall i j, (1 <= i <= j)%Z -> (j <= N)%Z ->
     (glow_alpha cfg j <= glow_alpha cfg i)%Z) /\
  ((0 < GLOW_EXPAND cfg)%Z -> forall i j, (i < j)%Z ->
     (glow_width cfg i < glow_width cfg j)%Z) /\
  exists s',
    make_frame_rgb cfg audio duration BG_BASE t s =
    Some (ToRGB (drawn bg
                   (ring_ops cfg ++
                    flat_map (fun i =>
                                spoke_ops cfg levels (255, 255, 255, glow_alpha cfg i)%Z
                                  (Z.max 1 (glow_width cfg i)))
                             (range 1 (N + 1)) ++
                    spoke_ops cfg levels (255, 255, 255, 255)%Z
                      (Z.max 1 (BAR_THICKNESS cfg)))),
          s').
Proof.
  intros Hon HN Hlev Hbg N. repeat split.
  - intros i. unfold glow_alpha, glow_fade, Qmul_py, float_of_int.
    now replace (Z.max 1 (GLOW_STEPS cfg)) with N by lia.
  - intros i j Hij Hj. now apply glow_alpha_antitone.
  - intros He i j Hij. now apply glow_width_increasing.
  - eexists. rewrite (make_frame_rgb_eq _ _ _ _ _ _ _ _ Hlev Hbg).
    unfold frame_ops, glow_ops, sharp_ops, glow_pass_ops.
    rewrite Hon, (proj2 (Z.ltb_lt 0 (GLOW_STEPS cfg))) by lia.
    reflexivity.
Qed.

(** C6, counterexample to the alpha with [round]: with a base alpha of 80 and
    three passes the third pass has [80 * (1 - 2/3) = 26.67]; the code's
    [int] gives 26, rounding gives 27. *)
Lemma glow_alpha_spec_fails :
  ~ (forall i, (1 <= i <= GLOW_STEPS glow_config)%Z ->
       glow_alpha glow_config i = glow_alpha_spec glow_config i).
Proof.
  intros H. specialize (H 3%Z ltac:(simpl; lia)).
  vm_compute in H. discriminate.
Qed.

(** ** The spectral analyzer *)

Lemma cabs_nonneg z : 0 <= Np.cabs z.
Proof. unfold Np.cabs. apply sqrt_pos. Qed.

Lemma rfftfreq_nth n d k : (k <= n / 2)%nat ->
  nth k (Np.rfftfreq n d) 0 = INR k * (1 / (INR n * d)).
Proof. intros Hk. unfold Np.rfftfreq. rewrite nth_map_seq by lia. reflexivity. Qed.

Lemma fft_magnitude_long sig sr : (1 < length sig)%nat -> sr <> 0%Z ->
  fft_magnitude sig sr =
  Some (Np.rfftfreq (length sig) (1 / IZR sr), map Np.cabs (Np.rfft sig)).
Proof.
  intros Hn Hsr. unfold fft_magnitude.
  rewrite (proj2 (Nat.leb_gt _ _)) by lia.
  now rewrite (proj2 (Z.eqb_neq _ _) Hsr).
Qed.

(** The analyzer returns as many frequencies as magnitudes, and no negative
    magnitude. *)
Lemma fft_magnitude_shape sig sr : sr <> 0%Z ->
  exists freqs mags, fft_magnitude sig sr = Some (freqs, mags) /\
    length freqs = length mags /\ Forall (fun m => 0 <= m) mags.
Proof.
  intros Hsr. destruct (Nat.le_gt_cases (length sig) 1) as [Hle|Hgt].
  - exists [0], [0]. unfold fft_magnitude.
    rewrite (proj2 (Nat.leb_le _ _) Hle). repeat split; auto.
    constructor; [lra|constructor].
  - rewrite fft_magnitude_long by auto. eexists _, _. split; [reflexivity|]. split.
    + unfold Np.rfftfreq, Np.rfft. now rewrite !length_map, !length_seq.
    + apply Forall_forall. intros y Hy. apply in_map_iff in Hy as (z & <- & _).
      apply cabs_nonneg.
Qed.

(** C7: a sequence of at most one sample gives a single bin of magnitude 0;
    a longer one of [n] samples gives the magnitudes [|X_k|] of the bins
    [k = 0 .. n/2] of its discrete Fourier transform, [n/2 + 1] of them,
    with as many frequencies [k * sr / n], none above the Nyquist frequency
    [sr / 2], which the last one reaches when [n] is even. *)
Theorem fft_magnitude_spec sig sr : (0 < sr)%Z ->
  let n := length sig in
  ((n <= 1)%nat -> fft_magnitude sig sr = Some ([0], [0])) /\
  ((1 < n)%nat ->
     exists freqs mags, fft_magnitude sig sr = Some (freqs, mags) /\
       length mags = (n / 2 + 1)%nat /\
       length freqs = length mags /\
       (forall k, (k <= n / 2)%nat ->
          nth k mags 0 =
          sqrt (fst (Np.dft_bin sig k) * fst (Np.dft_bin sig k) +
                snd (Np.dft_bin sig k) * snd (Np.dft_bin sig k))) /\
       (forall k, (k <= n / 2)%nat -> nth k freqs 0 = INR k * IZR sr / INR n) /\
       Forall (fun f => 0 <= f <= IZR sr / 2) freqs /\
       (Nat.even n = true -> nth (n / 2) freqs 0 = IZR sr / 2)).
Proof.
  intros Hsr n. subst n. remember (length sig) as n eqn:En. split.
  - intros Hn. unfold fft_magnitude. rewrite <- En.
    now rewrite (proj2 (Nat.leb_le _ _) Hn).
  - intros Hn. rewrite fft_magnitude_long by (try rewrite <- En; lia). rewrite <- En.
    assert (Hsr' : 0 < IZR sr) by (apply IZR_lt; lia).
    assert (Hn' : 0 < INR n) by (apply lt_0_INR; lia).
    assert (Hfreq : forall k, (k <= n / 2)%nat ->
              nth k (Np.rfftfreq n (1 / IZR sr)) 0 = INR k * IZR sr / INR n).
    { intros k Hk. rewrite rfftfreq_nth by auto. field.
      split; apply Rgt_not_eq; assumption. }
    eexists _, _. split; [reflexivity|].
    split; [|split; [|split; [|split; [|split]]]].
    + unfold Np.rfft. now rewrite !length_map, length_seq, <- En.
    + unfold Np.rfftfreq, Np.rfft. now rewrite !length_map, !length_seq, <- En.
    + intros k Hk. unfold Np.rfft. rewrite map_map, <- En.
      rewrite nth_map_seq by lia. reflexivity.
    + exact Hfreq.
    + apply Forall_of_nth. intros k.
      destruct (Nat.le_gt_cases k (n / 2)) as [Hk|Hk].
      * rewrite Hfreq by auto.
        assert (Hk2 : 2 * INR k <= INR n).
        { change 2 with (INR 2). rewrite <- mult_INR. apply le_INR.
          pose proof (Nat.Div0.mul_div_le n 2). lia. }
        assert (Hk0 : 0 <= INR k) by apply pos_INR.
        split.
        -- apply Rmult_le_pos; [nra|]. apply Rlt_le, Rinv_0_lt_compat, Hn'.
        -- apply Rmult_le_reg_r with (INR n); auto.
           unfold Rdiv. rewrite Rmult_assoc, Rinv_l by lra. nra.
      * rewrite nth_overflow.
        -- lra.
        -- unfold Np.rfftfreq. rewrite length_map, length_seq. lia.
    + intros Heven. rewrite Hfreq by lia.
      apply Nat.even_spec in Heven as (m & Em).
      replace (n / 2)%nat with m.
      2:{ rewrite Em, Nat.mul_comm, Nat.div_mul; lia. }
      rewrite Em, mult_INR. change (INR 2) with 2. field.
      rewrite Em in Hn'. rewrite mult_INR in Hn'. change (INR 2) with 2 in Hn'. lra.
Qed.

Lemma fft_magnitude_spec_witness :
  let sig := [1; 2; 3; 4] in
  let sr := 44100%Z in
  let n := length sig in
  ((n <= 1)%nat -> fft_magnitude sig sr = Some ([0], [0])) /\
  ((1 < n)%nat ->
     exists freqs mags, fft_magnitude sig sr = Some (freqs, mags) /\
       length mags = (n / 2 + 1)%nat /\
       length freqs = length mags /\
       (forall k, (k <= n / 2)%nat ->
          nth k mags 0 =
          sqrt (fst (Np.dft_bin sig k) * fst (Np.dft_bin sig k) +
                snd (Np.dft_bin sig k) * snd (Np.dft_bin sig k))) /\
       (forall k, (k <= n / 2)%nat -> nth k freqs 0 = INR k * IZR sr / INR n) /\
       Forall (fun f => 0 <= f <= IZR sr / 2) freqs /\
       (Nat.even n = true -> nth (n / 2) freqs 0 = IZR sr / 2)).
Proof.
  intros sig sr n. apply (fft_magnitude_spec [1; 2; 3; 4] 44100). lia.
Defined.

(** ** Frame production *)

(** The levels of a frame are defined whenever the clip hands back the
    samples of the window and the configuration is sound. *)
Lemma levels_at_total cfg audio duration edges t B arr :
  window_samples cfg audio duration t (WINDOW_SEC cfg) (SR cfg) = Some arr ->
  SR cfg <> 0%Z -> 0 <= IZR (SR cfg) * WINDOW_SEC cfg ->
  length edges = S B -> (1 <= B)%nat ->
  exists levels, levels_at cfg audio duration edges t = Some levels /\
    length levels = B /\ Forall (fun x => 0 <= x <= 1) levels.
Proof.
  intros Harr Hsr Hwin Hlen HB. unfold levels_at.
  assert (Esig : exists sig, get_audio_window cfg audio duration t
                               (WINDOW_SEC cfg) (SR cfg) = Some sig).
  { unfold get_audio_window. rewrite Harr. cbn [obind].
    destruct (_ =? 0)%nat; [|eauto].
    unfold Np.zeros. rewrite (proj2 (Z.ltb_ge _ _)); [eauto|].
    now apply zero_fill_nonneg. }
  destruct Esig as (sig & ->). cbn [obind].
  destruct (fft_magnitude_shape sig (SR cfg) Hsr) as (fs & ms & -> & Hl & Hpos).
  cbn [obind fst snd].
  now apply spectrum_to_bands_levels.
Qed.

Lemma make_frame_rgb_inv cfg audio duration BG_BASE t s r s' :
  make_frame_rgb cfg audio duration BG_BASE t s = Some (r, s') ->
  exists levels bg,
    levels_at cfg audio duration (edges_obj s) t = Some levels /\
    nth_error (images s) BG_BASE = Some bg.
Proof.
  unfold make_frame_rgb. unfold bind at 1. rewrite frame_levels_eq.
  destruct (levels_at _ _ _ _ _) as [levels|]; [|discriminate].
  unfold bind at 1, image_copy.
  destruct (nth_error _ _) as [bg|]; [|discriminate].
  intros _. eauto.
Qed.

(** C8: the frame at a timestamp is a function of the timestamp, the track,
    the background image and the band edges: a call that follows a call at
    the same timestamp returns the same levels and the same frame, and so
    does a call that follows a frame at any other timestamp, and a call from
    any state of the objects that holds the same background and edges. *)
Theorem make_frame_rgb_deterministic cfg audio duration BG_BASE t s r s1 :
  make_frame_rgb cfg audio duration BG_BASE t s = Some (r, s1) ->
  frame_levels cfg audio duration t s1 =
    match frame_levels cfg audio duration t s with
    | Some (levels, _) => Some (levels, s1)
    | None => None
    end /\
  (exists s2, make_frame_rgb cfg audio duration BG_BASE t s1 = Some (r, s2)) /\
  (forall t' r' s', make_frame_rgb cfg audio duration BG_BASE t' s = Some (r', s') ->
     exists s2, make_frame_rgb cfg audio duration BG_BASE t s' = Some (r, s2)) /\
  (forall s', nth_error (images s') BG_BASE = nth_error (images s) BG_BASE ->
     edges_obj s' = edges_obj s ->
     exists s2, make_frame_rgb cfg audio duration BG_BASE t s' = Some (r, s2)).
Proof.
  intros Hrun.
  destruct (make_frame_rgb_inv _ _ _ _ _ _ _ _ Hrun) as (levels & bg & Hlev & Hbg).
  rewrite (make_frame_rgb_eq _ _ _ _ _ _ _ _ Hlev Hbg) in Hrun.
  injection Hrun as <- <-.
  assert (Hagree : forall s', nth_error (images s') BG_BASE = nth_error (images s) BG_BASE ->
            edges_obj s' = edges_obj s ->
            exists s2, make_frame_rgb cfg audio duration BG_BASE t s'
                       = Some (ToRGB (drawn bg (frame_ops cfg levels)), s2)).
  { intros s' Himg Hedges. eexists. apply make_frame_rgb_eq.
    - now rewrite Hedges.
    - now rewrite Himg. }
  split; [|split; [|split]].
  - rewrite !frame_levels_eq. cbn [edges_obj]. now rewrite Hlev.
  - apply Hagree; cbn [images edges_obj]; auto.
    rewrite nth_error_app1; auto. apply nth_error_Some. congruence.
  - intros t' r' s' Hother.
    destruct (make_frame_rgb_inv _ _ _ _ _ _ _ _ Hother) as (levels' & bg' & Hlev' & Hbg').
    rewrite (make_frame_rgb_eq _ _ _ _ _ _ _ _ Hlev' Hbg') in Hother.
    injection Hother as <- <-.
    apply Hagree; cbn [images edges_obj]; auto.
    rewrite nth_error_app1; auto. apply nth_error_Some. congruence.
  - exact Hagree.
Qed.

(** C9: a call of [make_frame_rgb] leaves the background image, the band
    edges and every other object that existed before it as they were; the
    ring, glow and bar draw calls all go to one new object, the copy of the
    background. *)
Theorem make_frame_rgb_frame cfg audio duration BG_BASE t s r s' :
  make_frame_rgb cfg audio duration BG_BASE t s = Some (r, s') ->
  nth_error (images s') BG_BASE = nth_error (images s) BG_BASE /\
  edges_obj s' = edges_obj s /\
  (forall l, (l < length (images s))%nat ->
     nth_error (images s') l = nth_error (images s) l) /\
  exists bg levels,
    nth_error (images s) BG_BASE = Some bg /\
    images s' = images s ++ [drawn bg (frame_ops cfg levels)].
Proof.
  intros Hrun.
  destruct (make_frame_rgb_inv _ _ _ _ _ _ _ _ Hrun) as (levels & bg & Hlev & Hbg).
  rewrite (make_frame_rgb_eq _ _ _ _ _ _ _ _ Hlev Hbg) in Hrun.
  injection Hrun as <- <-. cbn [images edges_obj].
  assert (Hold : forall l, (l < length (images s))%nat ->
            nth_error (images s ++ [drawn bg (frame_ops cfg levels)]) l
            = nth_error (images s) l).
  { intros l Hl. now apply nth_error_app1. }
  repeat split; auto.
  - apply Hold. apply nth_error_Some. congruence.
  - eauto.
Qed.

(** ** One frame of a one-sample track *)

Lemma one_sample_levels cfg t : FPS cfg <> 0%Z ->
  levels_at cfg one_sample_clip 2 [1; 2] t = Some [0].
Proof.
  intros Hfps. unfold levels_at, get_audio_window, window_samples.
  assert (Er : exists r, window_range cfg 2 t (WINDOW_SEC cfg) = Some r).
  { unfold window_range. destruct (Rleb _ _); [|eauto].
    rewrite (proj2 (Z.eqb_neq _ _) Hfps). eauto. }
  destruct Er as (r & ->). cbn.
  unfold spectrum_to_bands, accumulate_bands, band_mask. Reval. reflexivity.
Qed.

Lemma empty_clip_cuts duration sr : cuts_inside empty_clip duration sr.
Proof. intros a b _ _. eexists _, _. split; reflexivity. Qed.

(** With the script's window and rate, a range without samples gives the
    4410 zeros of the fallback. *)
Lemma get_audio_window_spec_witness :
  get_audio_window script_config empty_clip 2 1 (1 / 10) 44100 =
  Some (repeat 0 4410).
Proof.
  destruct (get_audio_window_spec script_config empty_clip 2 1 (1 / 10) 44100)
    as (_ & _ & _ & _ & _ & sub & sa & w & Hf & _ & Esa & _ & Hget & _ & Hnil).
  - lra.
  - lia.
  - lra.
  - apply empty_clip_cuts.
  - specialize (Hf _ eq_refl). injection Hf as <-.
    injection Esa as <-.
    destruct (Hnil eq_refl) as (_ & Ew & _).
    rewrite Hget, Ew. do 2 f_equal.
    replace (1 / 10) with (Q2R (1 # 10)) by (unfold Q2R; simpl; lra).
    rewrite zero_fill_Q. vm_compute. reflexivity.
Defined.

Lemma glow_passes_spec_witness :
  let cfg := glow_config in
  let bg := ToRGBA (Blank (4, 4)%Z) in
  (forall i, glow_alpha cfg i =
     Z.max 0 (Qint (fl64Q (fl64Q (inject_Z (GLOW_ALPHA cfg)) *
                           fl64Q (1 - fl64Q (inject_Z (i - 1) /
                                             inject_Z (GLOW_STEPS cfg))))))) /\
  (forall i, glow_width cfg i = (BAR_THICKNESS cfg + i * GLOW_EXPAND cfg)%Z) /\
  (forall i j, (1 <= i <= j)%Z -> (j <= GLOW_STEPS cfg)%Z ->
     (glow_alpha cfg j <= glow_alpha cfg i)%Z) /\
  ((0 < GLOW_EXPAND cfg)%Z -> forall i j, (i < j)%Z ->
     (glow_width cfg i < glow_width cfg j)%Z) /\
  exists s',
    make_frame_rgb cfg one_sample_clip 2 0%nat 1 small_store =
    Some (ToRGB (drawn bg
                   (ring_ops cfg ++
                    flat_map (fun i =>
                                spoke_ops cfg [0] (255, 255, 255, glow_alpha cfg i)%Z
                                  (Z.max 1 (glow_width cfg i)))
                             (range 1 (GLOW_STEPS cfg + 1)) ++
                    spoke_ops cfg [0] (255, 255, 255, 255)%Z
                      (Z.max 1 (BAR_THICKNESS cfg)))),
          s').
Proof.
  intros cfg bg.
  apply (glow_passes_spec glow_config one_sample_clip 2 0%nat 1 small_store [0] bg).
  - reflexivity.
  - simpl. lia.
  - apply one_sample_levels. discriminate.
  - reflexivity.
Defined.

Lemma one_sample_frame cfg : FPS cfg <> 0%Z ->
  let frame := drawn (ToRGBA (Blank (4, 4)%Z)) (frame_ops cfg [0]) in
  make_frame_rgb cfg one_sample_clip 2 0%nat 1 small_store =
  Some (ToRGB frame,
        {| images := images small_store ++ [frame]; edges_obj := edges_obj small_store |}).
Proof.
  intros Hfps frame. apply make_frame_rgb_eq.
  - now apply one_sample_levels.
  - reflexivity.
Qed.

Lemma make_frame_rgb_deterministic_witness :
  let cfg := script_config in
  let frame := drawn (ToRGBA (Blank (4, 4)%Z)) (frame_ops cfg [0]) in
  let s1 := {| images := images small_store ++ [frame];
               edges_obj := edges_obj small_store |} in
  frame_levels cfg one_sample_clip 2 1 s1 =
    match frame_levels cfg one_sample_clip 2 1 small_store with
    | Some (levels, _) => Some (levels, s1)
    | None => None
    end /\
  (exists s2, make_frame_rgb cfg one_sample_clip 2 0%nat 1 s1 = Some (ToRGB frame, s2)) /\
  (forall t' r' s',
     make_frame_rgb cfg one_sample_clip 2 0%nat t' small_store = Some (r', s') ->
     exists s2, make_frame_rgb cfg one_sample_clip 2 0%nat 1 s' = Some (ToRGB frame, s2)) /\
  (forall s', nth_error (images s') 0 = nth_error (images small_store) 0 ->
     edges_obj s' = edges_obj small_store ->
     exists s2, make_frame_rgb cfg one_sample_clip 2 0%nat 1 s' = Some (ToRGB frame, s2)).
Proof.
  intros cfg frame s1.
  apply (make_frame_rgb_deterministic script_config one_sample_clip 2 0%nat 1
           small_store (ToRGB frame) s1).
  apply one_sample_frame. discriminate.
Defined.

Lemma make_frame_rgb_frame_witness :
  let cfg := script_config in
  let frame := drawn (ToRGBA (Blank (4, 4)%Z)) (frame_ops cfg [0]) in
  let s1 := {| images := images small_store ++ [frame];
               edges_obj := edges_obj small_store |} in
  nth_error (images s1) 0 = nth_error (images small_store) 0 /\
  edges_obj s1 = edges_obj small_store /\
  (forall l, (l < length (images small_store))%nat ->
     nth_error (images s1) l = nth_error (images small_store) l) /\
  exists bg levels,
    nth_error (images small_store) 0 = Some bg /\
    images s1 = images small_store ++ [drawn bg (frame_ops cfg levels)].
Proof.
  intros cfg frame s1.
  apply (make_frame_rgb_frame script_config one_sample_clip 2 0%nat 1
           small_store (ToRGB frame) s1).
  apply one_sample_frame. discriminate.
Defined.

(** ** Background fitting *)

(** Any mode other than ["contain"] takes the branch of ["cover"]. *)
Lemma load_and_fit_background_other_mode files path w h mode :
  mode <> "contain"%string ->
  load_and_fit_background files path w h mode =
  load_and_fit_background files path w h "cover".
Proof.
  intros Hm. unfold load_and_fit_background.
  now rewrite (proj2 (String.eqb_neq _ _) Hm).
Qed.

Lemma load_and_fit_background_cover_fits :
  exists fitted,
    load_and_fit_background square_files "bg.png" 3840 2160 "cover" = Some fitted.
Proof. eexists. vm_compute. reflexivity. Qed.

(** C10, at a square source on the 16:9 canvas: the ["cover"] branch scales
    the 100x100 image to 2160x2160, narrower than the 3840 pixel canvas, and
    crops the box from x = -840 to x = 3000, so the result has 840 black
    columns on either side, where ["contain"] puts them too. *)
Theorem load_and_fit_background_cover_pads :
  let src := Opened "bg.png" (100, 100)%Z in
  load_and_fit_background square_files "bg.png" 3840 2160 "cover" =
    Some (Cropped (Resized src (2160, 2160)%Z) (-840, 0, 3000, 2160)%Z) /\
  crop_is_padded (Cropped (Resized src (2160, 2160)%Z) (-840, 0, 3000, 2160)%Z) = true /\
  load_and_fit_background square_files "bg.png" 3840 2160 "contain" =
    Some (Pasted (Blank (3840, 2160)%Z) (Resized src (2160, 2160)%Z) (840, 0)%Z).
Proof. repeat split. Qed.

(** ** The script's own run *)

(** X20: with the script's configuration, a background that could be fitted
    and a clip that hands back the samples of every range inside the track,
    every timestamp inside the track gets its frame: 360 band levels, drawn
    on a copy of the background at address 0. *)
Lemma script_frames_are_produced files path mode audio duration s0 t :
  startup files script_config path mode = Some s0 ->
  cuts_inside audio duration (SR script_config) ->
  0 <= t < duration ->
  exists levels bg s',
    levels_at script_config audio duration (edges_obj s0) t = Some levels /\
    length levels = 360%nat /\
    nth_error (images s0) 0 = Some bg /\
    make_frame_rgb script_config audio duration 0%nat t s0 =
    Some (ToRGB (drawn bg (frame_ops script_config levels)), s').
Proof.
  intros Hstart Hclip Ht. unfold startup in Hstart.
  destruct (load_and_fit_background _ _ _ _ _) as [fitted|]; [|discriminate].
  cbn [obind] in Hstart.
  destruct (compute_band_edges_nth 44100 30 12000 360 0 ltac:(lia) ltac:(lia))
    as (edges & Eedges & Hlen & _).
  unfold BAND_EDGES in Hstart. cbn [SR LOW_HZ HIGH_HZ SPOKES script_config] in Hstart.
  change 360%Z with (Z.of_nat 360) in Hstart. rewrite Eedges in Hstart.
  cbn [obind] in Hstart. injection Hstart as <-.
  assert (Hw : 0 < WINDOW_SEC script_config) by (simpl; lra).
  destruct (window_samples_inside script_config audio duration t
              (WINDOW_SEC script_config) (SR script_config) Hw Ht Hclip)
    as (sub & sa & _ & _ & Earr).
  destruct (levels_at_total script_config audio duration edges t 360 _ Earr)
    as (levels & Hlev & Hl & _); auto; try discriminate; try lia.
  { simpl. lra. }
  exists levels, (ToRGBA fitted). eexists. repeat split; auto.
  now apply make_frame_rgb_eq.
Qed.

(** ** Worked values *)

Example Qpy_round_ties_to_even :
  map Qpy_round [(5 # 2); (7 # 2); (-5 # 2); (13 # 5)]%Q = [2; 4; -2; 3]%Z.
Proof. reflexivity. Qed.

Example Qint_truncates : map Qint [(80 # 3); (-80 # 3); 4]%Q = [26; -26; 4]%Z.
Proof. reflexivity. Qed.

Example glow_alpha_three_passes :
  map (glow_alpha glow_config) (range 1 4) = [80; 53; 26]%Z /\
  map (glow_width glow_config) (range 1 4) = [4; 6; 8]%Z.
Proof. split; reflexivity. Qed.

(** With ten passes the float product decides the last two alphas:
    [80 * (1.0 - 8 / 10)] is just below 16, and [80 * (1.0 - 9 / 10)] just
    below 8. *)
Example glow_alpha_ten_passes :
  map (glow_alpha ten_pass_config) (range 1 11) =
  [80; 72; 64; 56; 48; 40; 32; 24; 15; 7]%Z.
Proof. vm_compute. reflexivity. Qed.

Example fl64Q_tenth : fl64Q (1 # 10) = (3602879701896397 # 36028797018963968)%Q.
Proof. vm_compute. reflexivity. Qed.

(** The length of the zero-filled window: 4410 for the script's rate and
    window, and 28 at 100 samples per second and 0.29 seconds, where the
    float product is just below 29. *)
Example zero_fill_lengths :
  py_int (fl64 (fl64 (IZR 44100) * fl64 (1 / 10))) = 4410%Z /\
  py_int (fl64 (fl64 (IZR 100) * fl64 (29 / 100))) = 28%Z.
Proof.
  replace (1 / 10) with (Q2R (1 # 10)) by (unfold Q2R; simpl; lra).
  replace (29 / 100) with (Q2R (29 # 100)) by (unfold Q2R; simpl; lra).
  rewrite !zero_fill_Q. split; vm_compute; reflexivity.
Qed.

Example center_of_script : CENTER script_config = (1920, 864).
Proof. reflexivity. Qed.

Example searchsorted_right_at_edge :
  map (Np.searchsorted_right [1; 2; 4]) [1 / 2; 1; 2; 3; 4; 5] = [0; 1; 2; 2; 3; 3]%Z.
Proof. unfold Np.searchsorted_right. Reval. reflexivity. Qed.

Example wide_source_cover :
  load_and_fit_background (fun _ => Some (4000, 1000)%Z) "bg.png" 3840 2160 "cover" =
  Some (Cropped (Resized (Opened "bg.png" (4000, 1000)%Z) (3840, 960)%Z)
                (0, -600, 3840, 1560)%Z).
Proof. reflexivity. Qed.

(* ================================================================== *)
(** * Further properties of the source *)

(** ** The background fitter *)

Lemma Qltb_true a b : Qltb a b = true <-> (a < b)%Q.
Proof.
  unfold Qltb. destruct (Qle_bool b a) eqn:E; simpl.
  - apply Qle_bool_iff in E. split; [discriminate|lra].
  - split; [|reflexivity]. intros _.
    destruct (Qlt_le_dec a b) as [H|H]; [exact H|].
    apply Qle_bool_iff in H. congruence.
Qed.

Lemma Qltb_false a b : Qltb a b = false <-> (b <= a)%Q.
Proof.
  unfold Qltb. destruct (Qle_bool b a) eqn:E; simpl.
  - apply Qle_bool_iff in E. split; auto.
  - split; [discriminate|]. intros H. apply Qle_bool_iff in H. congruence.
Qed.

(** X1: whatever the mode and the source, an image the fitter returns
    measures exactly [w] by [h]. *)
Theorem load_and_fit_background_size files path w h mode img :
  load_and_fit_background files path w h mode = Some img ->
  size img = (w, h).
Proof.
  unfold load_and_fit_background.
  destruct (files path) as [sz|]; [|discriminate]. cbn [obind].
  destruct (Qdiv_py _ _) as [tr|]; [|discriminate]. cbn [obind].
  destruct (Qdiv_py _ _) as [r|]; [|discriminate]. cbn [obind].
  destruct (String.eqb mode "contain").
  - destruct (if Qltb tr r then _ else _) as [new|]; [|discriminate].
    cbn [obind].
    destruct (resize _ _) as [scaled|]; [|discriminate]. cbn [obind].
    unfold new_image. destruct (_ && _)%bool; [|discriminate].
    cbn [obind]. intros [= <-]. reflexivity.
  - destruct (if Qltb r tr then _ else _) as [new|]; [|discriminate].
    cbn [obind].
    destruct (resize _ _) as [scaled|]; [|discriminate]. cbn [obind].
    unfold crop. destruct (_ || _)%bool; [discriminate|].
    intros [= <-]. cbn [size]. f_equal; lia.
Qed.

Lemma load_and_fit_background_size_witness :
  size (Cropped (Resized (Opened "bg.png" (100, 100)%Z) (2160, 2160)%Z)
                (-840, 0, 3000, 2160)%Z) = (3840, 2160)%Z.
Proof.
  apply (load_and_fit_background_size square_files "bg.png" 3840 2160 "cover").
  reflexivity.
Defined.

(** The canvas of "contain" and the crop box of the other modes are
    refused for the same sizes, the negative ones. *)
Lemma canvas_and_crop_agree scaled w h x y :
  match crop scaled (x, y, x + w, y + h)%Z, new_image (w, h) with
  | Some c, Some canvas => c = Cropped scaled (x, y, x + w, y + h)%Z /\ canvas = Blank (w, h)
  | None, None => True
  | _, _ => False
  end.
Proof.
  unfold crop, new_image. cbn [fst snd].
  destruct (x + w <? x)%Z eqn:E1; destruct (y + h <? y)%Z eqn:E2;
    destruct (0 <=? w)%Z eqn:E3; destruct (0 <=? h)%Z eqn:E4; cbn [orb andb];
    auto; exfalso;
    repeat match goal with
           | H : (_ <? _)%Z = true |- _ => apply Z.ltb_lt in H
           | H : (_ <? _)%Z = false |- _ => apply Z.ltb_ge in H
           | H : (_ <=? _)%Z = true |- _ => apply Z.leb_le in H
           | H : (_ <=? _)%Z = false |- _ => apply Z.leb_gt in H
           end; lia.
Qed.

(** The centred crop box leaves the scaled source exactly when the source
    is narrower or lower than the box. *)
Lemma centred_crop_padded src nw nh w h :
  crop_is_padded (Cropped (Resized src (nw, nh))
                    ((nw - w) / 2, (nh - h) / 2,
                     (nw - w) / 2 + w, (nh - h) / 2 + h)%Z) = true
  <-> (nw < w \/ nh < h)%Z.
Proof.
  cbn [crop_is_padded size]. rewrite !orb_true_iff, !Z.ltb_lt.
  pose proof (Z.div_mod (nw - w) 2 ltac:(lia)).
  pose proof (Z.mod_pos_bound (nw - w) 2 ltac:(lia)).
  pose proof (Z.div_mod (nh - h) 2 ltac:(lia)).
  pose proof (Z.mod_pos_bound (nh - h) 2 ltac:(lia)).
  lia.
Qed.

(** X3: unless the source has, as a float, the very aspect ratio of the
    canvas, every other mode, "cover" included, does what "contain" does: it
    raises when "contain" raises, and otherwise scales the source to the
    very size "contain" scales it to.  It then crops the canvas-sized box
    centred on the scaled source, and the crop reaches outside the scaled
    source, and so carries black padding, exactly when the scaled source is
    narrower or lower than the canvas. *)
Theorem cover_scales_like_contain files path w h sw sh tr r mode :
  mode <> "contain"%string ->
  files path = Some (sw, sh) ->
  Qdiv_py (inject_Z w) (inject_Z h) = Some tr ->
  Qdiv_py (inject_Z sw) (inject_Z sh) = Some r ->
  ~ (r == tr)%Q ->
  match load_and_fit_background files path w h mode,
        load_and_fit_background files path w h "contain" with
  | Some c, Some p =>
      exists nw nh,
        let scaled := Resized (Opened path (sw, sh)) (nw, nh) in
        c = Cropped scaled ((nw - w) / 2, (nh - h) / 2,
                            (nw - w) / 2 + w, (nh - h) / 2 + h)%Z /\
        p = Pasted (Blank (w, h)) scaled ((w - nw) / 2, (h - nh) / 2)%Z /\
        (crop_is_padded c = true <-> (nw < w \/ nh < h)%Z)
  | None, None => True
  | _, _ => False
  end.
Proof.
  intros Hm Hf Etr Er Hne.
  unfold load_and_fit_background. rewrite Hf. cbn [obind fst snd].
  rewrite Etr, Er. cbn [obind].
  rewrite (proj2 (String.eqb_neq _ _) Hm).
  change (String.eqb "contain" "contain") with true. cbv iota.
  assert (Hnew : (if Qltb r tr
                  then Some (Qpy_round (Qmul_py (float_of_int h) r), h)
                  else q <- Qdiv_py (float_of_int w) r ;; Some (w, Qpy_round q))
                 = (if Qltb tr r
                    then q <- Qdiv_py (float_of_int w) r ;; Some (w, Qpy_round q)
                    else Some (Qpy_round (Qmul_py (float_of_int h) r), h))).
  { destruct (Qltb r tr) eqn:E1; destruct (Qltb tr r) eqn:E2; try reflexivity; exfalso.
    - apply Qltb_true in E1, E2. lra.
    - apply Qltb_false in E1, E2. apply Hne. lra. }
  rewrite Hnew.
  destruct (if Qltb tr r then _ else _) as [[nw nh]|]; cbn [obind fst snd]; [|exact I].
  unfold resize.
  destruct (_ || _)%bool; cbn [obind]; [|exact I].
  pose proof (canvas_and_crop_agree (Resized (Opened path (sw, sh)) (nw, nh))
                w h ((nw - w) / 2)%Z ((nh - h) / 2)%Z) as Hcc.
  destruct (crop _ _) as [c|]; destruct (new_image _) as [canvas|];
    cbn [obind]; try exact Hcc.
  destruct Hcc as [-> ->].
  exists nw, nh. cbv zeta. repeat split.
  - apply centred_crop_padded.
  - apply centred_crop_padded.
Qed.

Lemma cover_scales_like_contain_witness :
  match load_and_fit_background wide_files "bg.png" 3840 2160 "cover",
        load_and_fit_background wide_files "bg.png" 3840 2160 "contain" with
  | Some c, Some p =>
      exists nw nh,
        let scaled := Resized (Opened "bg.png" (1024, 478)%Z) (nw, nh) in
        c = Cropped scaled ((nw - 3840) / 2, (nh - 2160) / 2,
                            (nw - 3840) / 2 + 3840, (nh - 2160) / 2 + 2160)%Z /\
        p = Pasted (Blank (3840, 2160)%Z) scaled
                   ((3840 - nw) / 2, (2160 - nh) / 2)%Z /\
        (crop_is_padded c = true <-> (nw < 3840 \/ nh < 2160)%Z)
  | None, None => True
  | _, _ => False
  end.
Proof.
  apply (cover_scales_like_contain wide_files "bg.png" 3840 2160 1024 478
           (fl64Q (3840 # 2160)) (fl64Q (1024 # 478)) "cover").
  - discriminate.
  - reflexivity.
  - vm_compute. reflexivity.
  - vm_compute. reflexivity.
  - vm_compute. discriminate.
Defined.

(** The sizes float rounding decides: a 1024 by 478 source is scaled to
    1793 rows, [3840 / (1024 / 478)] being just above 1792.5 as a float
    where the exact quotient is the tie 1792.5; and a 10000 by 1 source
    would be scaled to no row at all, which PIL refuses. *)
Example wide_source_rows :
  load_and_fit_background wide_files "bg.png" 3840 2160 "contain" =
    Some (Pasted (Blank (3840, 2160)%Z)
                 (Resized (Opened "bg.png" (1024, 478)%Z) (3840, 1793)%Z)
                 (0, 183)%Z) /\
  Qpy_round (3840 / (1024 # 478)) = 1792%Z.
Proof. split; vm_compute; reflexivity. Qed.

Example strip_source_raises :
  load_and_fit_background strip_files "bg.png" 3840 2160 "contain" = None /\
  load_and_fit_background strip_files "bg.png" 3840 2160 "cover" = None.
Proof. split; vm_compute; reflexivity. Qed.

(** ** The audio window outside the track and its taper *)

(** X4: outside the track the fallback of line 105-106 repairs only one
    side.  For a timestamp so early that the window ends at or before 0 the
    requested range becomes [[0, min(D, max(1/FPS, 0.01))]], which is not
    empty; for a timestamp so late that the window starts at or after the
    end [D] of the track the range stays [[t - w/2, D]], whose end is not
    after its start. *)
Theorem window_range_outside cfg duration t win_sec :
  0 < win_sec -> 0 < duration -> (0 < FPS cfg)%Z ->
  (t + win_sec / 2 <= 0 ->
     let e := Rmin duration (Rmax (1 / IZR (FPS cfg)) (1 / 100)) in
     window_range cfg duration t win_sec = Some (0, e) /\ 0 < e <= duration) /\
  (duration <= t - win_sec / 2 ->
     window_range cfg duration t win_sec = Some (t - win_sec / 2, duration)).
Proof.
  intros Hw HD Hfps.
  assert (Hf : (FPS cfg =? 0)%Z = false) by (apply Z.eqb_neq; lia).
  split.
  - intros Ht e. unfold window_range.
    assert (Es : Rmax 0 (t - win_sec / 2) = 0) by (apply Rmax_left; lra).
    assert (Ee : Rmin duration (t + win_sec / 2) = t + win_sec / 2)
      by (apply Rmin_right; lra).
    rewrite Es, Ee, (proj2 (Rleb_true _ _)) by lra.
    rewrite Hf, Rplus_0_l. split; [reflexivity|].
    unfold e. pose proof (Rmax_r (1 / IZR (FPS cfg)) (1 / 100)).
    unfold Rmin. destruct (Rle_dec _ _); lra.
  - intros Ht. unfold window_range.
    assert (Es : Rmax 0 (t - win_sec / 2) = t - win_sec / 2)
      by (apply Rmax_right; lra).
    assert (Ee : Rmin duration (t + win_sec / 2) = duration)
      by (apply Rmin_left; lra).
    rewrite Es, Ee, (proj2 (Rleb_true _ _)) by lra.
    rewrite Hf. do 2 f_equal.
    pose proof (Rmax_r (1 / IZR (FPS cfg)) (1 / 100)).
    apply Rmin_left. lra.
Qed.

Lemma window_range_outside_witness :
  (-1 + 1 / 10 / 2 <= 0 ->
     let e := Rmin 2 (Rmax (1 / IZR (FPS script_config)) (1 / 100)) in
     window_range script_config 2 (-1) (1 / 10) = Some (0, e) /\ 0 < e <= 2) /\
  (2 <= -1 - 1 / 10 / 2 ->
     window_range script_config 2 (-1) (1 / 10) = Some (-1 - 1 / 10 / 2, 2)).
Proof.
  apply (window_range_outside script_config 2 (-1) (1 / 10)).
  - lra.
  - lra.
  - reflexivity.
Defined.

Lemma mul_nth a b k : nth k (Np.mul a b) 0 = nth k a 0 * nth k b 0.
Proof.
  revert b k; induction a as [|x a IH]; intros [|y b] [|k]; simpl;
    try ring; try (destruct k; ring).
  apply IH.
Qed.

Lemma hanning_nth M k : (2 <= M)%nat -> (k < M)%nat ->
  nth k (Np.hanning M) 0 =
  1 / 2 + 1 / 2 * cos (PI * (1 - INR M + 2 * INR k) / (INR M - 1)).
Proof.
  intros HM Hk. destruct M as [|[|M]]; try lia.
  unfold Np.hanning. now rewrite nth_map_seq by lia.
Qed.

(** A Hann coefficient lies between 0 and 1. *)
Lemma hanning_unit M k : 0 <= nth k (Np.hanning M) 0 <= 1.
Proof.
  destruct (Nat.lt_ge_cases k M) as [Hk|Hk].
  - destruct (Nat.lt_ge_cases M 2) as [HM|HM].
    + assert (M = 1%nat) by lia. subst M. assert (k = 0%nat) by lia. subst k.
      simpl. lra.
    + rewrite hanning_nth by lia.
      pose proof (COS_bound (PI * (1 - INR M + 2 * INR k) / (INR M - 1))). lra.
  - rewrite nth_overflow by (rewrite hanning_length; lia). lra.
Qed.

Lemma hanning_ends M : (2 <= M)%nat ->
  nth 0 (Np.hanning M) 0 = 0 /\ nth (M - 1) (Np.hanning M) 0 = 0.
Proof.
  intros HM.
  assert (HM1 : INR M - 1 <> 0).
  { assert (2 <= INR M) by (change 2 with (INR 2); now apply le_INR). lra. }
  rewrite !hanning_nth by lia. split.
  - replace (PI * (1 - INR M + 2 * INR 0) / (INR M - 1)) with (- PI)
      by (change (INR 0) with 0; field; exact HM1).
    rewrite cos_neg, cos_PI. lra.
  - rewrite minus_INR by lia. change (INR 1) with 1.
    replace (PI * (1 - INR M + 2 * (INR M - 1)) / (INR M - 1)) with PI
      by (field; exact HM1).
    rewrite cos_PI. lra.
Qed.

(** X5: when the extracted range holds samples, the window returned has
    their number, no sample of it is larger in absolute value than the
    extracted one, a single sample is returned as it is, and from two
    samples on the first and the last sample of the window are 0. *)
Theorem get_audio_window_taper cfg audio duration t win_sec sr arr :
  window_samples cfg audio duration t win_sec sr = Some arr ->
  arr <> [] ->
  exists w, get_audio_window cfg audio duration t win_sec sr = Some w /\
    length w = length arr /\
    (forall k, Rabs (nth k w 0) <= Rabs (nth k arr 0)) /\
    (length arr = 1%nat -> w = arr) /\
    ((2 <= length arr)%nat -> nth 0 w 0 = 0 /\ nth (length arr - 1) w 0 = 0).
Proof.
  intros Harr Hne. unfold get_audio_window. rewrite Harr. cbn [obind].
  assert (Hn : (length arr =? 0)%nat = false).
  { apply Nat.eqb_neq. destruct arr; [congruence|discriminate]. }
  rewrite Hn. eexists. split; [reflexivity|].
  split; [|split; [|split]].
  - rewrite mul_length, hanning_length. lia.
  - intros k. rewrite mul_nth, Rabs_mult.
    pose proof (hanning_unit (length arr) k) as Hu.
    rewrite (Rabs_pos_eq (nth k (Np.hanning _) 0)) by lra.
    pose proof (Rabs_pos (nth k arr 0)). nra.
  - intros H1. destruct arr as [|x [|y arr]]; try discriminate.
    simpl. now rewrite Rmult_1_r.
  - intros H2. destruct (hanning_ends (length arr) H2) as [E0 E1].
    rewrite !mul_nth, E0, E1. lra.
Qed.

Lemma get_audio_window_taper_witness :
  exists w, get_audio_window script_config one_sample_clip 2 1 (1 / 10) 44100 = Some w /\
    length w = length [1] /\
    (forall k, Rabs (nth k w 0) <= Rabs (nth k [1] 0)) /\
    (length [1] = 1%nat -> w = [1]) /\
    ((2 <= length [1])%nat -> nth 0 w 0 = 0 /\ nth (length [1] - 1) w 0 = 0).
Proof.
  apply (get_audio_window_taper script_config one_sample_clip 2 1 (1 / 10) 44100 [1]).
  - unfold window_samples.
    destruct (window_range_inside script_config 2 1 (1 / 10) ltac:(lra) ltac:(lra))
      as (-> & _). reflexivity.
  - discriminate.
Defined.

(** ** The spectrum: first bin, scaling, bound *)

Lemma sum_map_scale {A} (g : A -> R) c l :
  Np.sum (map (fun p => c * g p) l) = c * Np.sum (map g l).
Proof. induction l as [|p l IH]; simpl; [ring|]. rewrite IH. ring. Qed.

Lemma sum_combine_snd (h : R -> R) x : forall start,
  Np.sum (map (fun p => h (snd p)) (combine (seq start (length x)) x)) =
  Np.sum (map h x).
Proof.
  induction x as [|v x IH]; intros start; simpl; auto.
  now rewrite IH.
Qed.

Lemma combine_map_snd {A B C} (f : B -> C) (js : list A) (x : list B) :
  combine js (map f x) = map (fun p => (fst p, f (snd p))) (combine js x).
Proof.
  revert x; induction js as [|j js IH]; intros [|v x]; simpl; auto.
  now rewrite IH.
Qed.

(** The real and the imaginary sum of a bin, term by term. *)
Lemma dft_bin_eq x k :
  Np.dft_bin x k =
  (Np.sum (map (fun p => snd p * cos (2 * PI * INR (fst p) * INR k / INR (length x)))
               (combine (seq 0 (length x)) x)),
   - Np.sum (map (fun p => snd p * sin (2 * PI * INR (fst p) * INR k / INR (length x)))
                 (combine (seq 0 (length x)) x))).
Proof.
  unfold Np.dft_bin. f_equal; [|f_equal]; f_equal;
    apply map_ext; intros [j v]; reflexivity.
Qed.

Lemma dft_bin_scale c x k :
  Np.dft_bin (map (Rmult c) x) k =
  (c * fst (Np.dft_bin x k), c * snd (Np.dft_bin x k)).
Proof.
  rewrite !dft_bin_eq, length_map, combine_map_snd, !map_map. cbn [fst snd].
  f_equal.
  - rewrite <- sum_map_scale. f_equal. apply map_ext. intros [j v]. cbn [fst snd]. ring.
  - rewrite <- Ropp_mult_distr_r, <- sum_map_scale. do 2 f_equal.
    apply map_ext. intros [j v]. cbn [fst snd]. ring.
Qed.

Lemma cabs_scale c z : Np.cabs (c * fst z, c * snd z) = Rabs c * Np.cabs z.
Proof.
  unfold Np.cabs. cbn [fst snd].
  replace (c * fst z * (c * fst z) + c * snd z * (c * snd z))
    with (c² * (fst z * fst z + snd z * snd z)) by (unfold Rsqr; ring).
  rewrite sqrt_mult_alt by apply Rle_0_sqr.
  now rewrite sqrt_Rsqr_abs.
Qed.

Lemma hypot_add_squares a b c d u v :
  0 <= u -> 0 <= v -> u * u = a * a + b * b -> v * v = c * c + d * d ->
  (a + c) * (a + c) + (b + d) * (b + d) <= (u + v) * (u + v).
Proof.
  intros Hu Hv Eu Ev.
  assert (H1 : (a * c + b * d) * (a * c + b * d) <= (u * v) * (u * v)).
  { replace ((u * v) * (u * v)) with ((u * u) * (v * v)) by ring.
    rewrite Eu, Ev.
    replace ((a * a + b * b) * (c * c + d * d))
      with ((a * c + b * d) * (a * c + b * d) + (a * d - b * c)²)
      by (unfold Rsqr; ring).
    pose proof (Rle_0_sqr (a * d - b * c)). lra. }
  assert (Huv : 0 <= u * v) by (apply Rmult_le_pos; assumption).
  assert (H2 : a * c + b * d <= u * v).
  { destruct (Rle_lt_dec (a * c + b * d) (u * v)) as [H|H]; [exact H|].
    exfalso. assert (u * v * (u * v) < (a * c + b * d) * (a * c + b * d)).
    { apply Rmult_le_0_lt_compat; lra. }
    lra. }
  replace ((a + c) * (a + c) + (b + d) * (b + d))
    with (a * a + b * b + (c * c + d * d) + 2 * (a * c + b * d)) by ring.
  replace ((u + v) * (u + v)) with (u * u + v * v + 2 * (u * v)) by ring.
  rewrite Eu, Ev. lra.
Qed.

(** The length of a sum of plane vectors is at most the sum of their
    lengths. *)
Lemma hypot_add a b c d :
  sqrt ((a + c) * (a + c) + (b + d) * (b + d)) <=
  sqrt (a * a + b * b) + sqrt (c * c + d * d).
Proof.
  assert (Hu : 0 <= sqrt (a * a + b * b)) by apply sqrt_pos.
  assert (Hv : 0 <= sqrt (c * c + d * d)) by apply sqrt_pos.
  rewrite <- (sqrt_square (sqrt (a * a + b * b) + sqrt (c * c + d * d))) by lra.
  apply sqrt_le_1_alt.
  apply hypot_add_squares; auto; apply sqrt_sqrt; nra.
Qed.

Lemma hypot_sum {A} (f g : A -> R) l :
  sqrt (Np.sum (map f l) * Np.sum (map f l) + Np.sum (map g l) * Np.sum (map g l)) <=
  Np.sum (map (fun p => sqrt (f p * f p + g p * g p)) l).
Proof.
  induction l as [|p l IH]; simpl.
  - replace (0 * 0 + 0 * 0) with 0 by ring. rewrite sqrt_0. lra.
  - eapply Rle_trans; [apply hypot_add|]. lra.
Qed.

Lemma hypot_unit v t : sqrt (v * cos t * (v * cos t) + v * sin t * (v * sin t)) = Rabs v.
Proof.
  replace (v * cos t * (v * cos t) + v * sin t * (v * sin t))
    with (v² * ((sin t)² + (cos t)²)) by (unfold Rsqr; ring).
  now rewrite sin2_cos2, Rmult_1_r, sqrt_Rsqr_abs.
Qed.

Lemma cabs_dft_bin_le x k : Np.cabs (Np.dft_bin x k) <= Np.sum (map Rabs x).
Proof.
  rewrite dft_bin_eq. unfold Np.cabs. cbn [fst snd].
  rewrite Rmult_opp_opp.
  eapply Rle_trans; [apply hypot_sum|].
  rewrite <- (sum_combine_snd Rabs x 0). apply Req_le. f_equal.
  apply map_ext. intros [j v]. cbn [fst snd]. apply hypot_unit.
Qed.

Lemma dft_bin_0 x : Np.cabs (Np.dft_bin x 0) = Rabs (Np.sum x).
Proof.
  rewrite dft_bin_eq. unfold Np.cabs. cbn [fst snd].
  assert (Ec : map (fun p : nat * R =>
                      snd p * cos (2 * PI * INR (fst p) * INR 0 / INR (length x)))
                   (combine (seq 0 (length x)) x)
               = map (fun p => snd p) (combine (seq 0 (length x)) x)).
  { apply map_ext. intros [j v]. cbn [fst snd]. change (INR 0) with 0.
    replace (2 * PI * INR j * 0 / INR (length x)) with 0 by (unfold Rdiv; ring).
    rewrite cos_0. ring. }
  assert (Es : map (fun p : nat * R =>
                      snd p * sin (2 * PI * INR (fst p) * INR 0 / INR (length x)))
                   (combine (seq 0 (length x)) x)
               = map (fun p => 0 * snd p) (combine (seq 0 (length x)) x)).
  { apply map_ext. intros [j v]. cbn [fst snd]. change (INR 0) with 0.
    replace (2 * PI * INR j * 0 / INR (length x)) with 0 by (unfold Rdiv; ring).
    rewrite sin_0. ring. }
  rewrite Ec, Es, sum_map_scale.
  rewrite (sum_combine_snd (fun v => v) x 0), map_id.
  replace (Np.sum x * Np.sum x + - (0 * _) * - (0 * _)) with (Np.sum x)² by (unfold Rsqr; ring).
  apply sqrt_Rsqr_abs.
Qed.

(** X6: for a window of more than one sample, bin 0 is the frequency 0 and
    its magnitude is the absolute value of the sum of the samples; the
    frequencies go up in equal steps of [sr / n]. *)
Theorem fft_magnitude_first_bin sig sr : (1 < length sig)%nat -> (0 < sr)%Z ->
  exists freqs mags, fft_magnitude sig sr = Some (freqs, mags) /\
    nth 0 freqs 0 = 0 /\
    nth 0 mags 0 = Rabs (Np.sum sig) /\
    (forall k, (k < length sig / 2)%nat ->
       nth (S k) freqs 0 = nth k freqs 0 + IZR sr / INR (length sig)) /\
    strictly_increasing freqs.
Proof.
  intros Hn Hsr. rewrite fft_magnitude_long by lia.
  assert (Hsr' : 0 < IZR sr) by (apply IZR_lt; lia).
  assert (Hn' : 0 < INR (length sig)) by (apply lt_0_INR; lia).
  assert (Hstep : 0 < 1 / (INR (length sig) * (1 / IZR sr))).
  { apply Rdiv_lt_0_compat; [lra|]. apply Rmult_lt_0_compat; auto.
    apply Rdiv_lt_0_compat; lra. }
  eexists _, _. split; [reflexivity|]. split; [|split; [|split]].
  - rewrite rfftfreq_nth by lia. change (INR 0) with 0. ring.
  - unfold Np.rfft. rewrite map_map, nth_map_seq by lia. apply dft_bin_0.
  - intros k Hk. rewrite !rfftfreq_nth by lia. rewrite S_INR. field.
    split; apply Rgt_not_eq; assumption.
  - intros i j [Hij Hj]. unfold Np.rfftfreq in Hj.
    rewrite length_map, length_seq in Hj.
    rewrite !rfftfreq_nth by lia.
    apply Rmult_lt_compat_r; auto. now apply lt_INR.
Qed.

Lemma fft_magnitude_first_bin_witness :
  exists freqs mags, fft_magnitude [1; 2; 3; 4] 44100 = Some (freqs, mags) /\
    nth 0 freqs 0 = 0 /\
    nth 0 mags 0 = Rabs (Np.sum [1; 2; 3; 4]) /\
    (forall k, (k < length [1; 2; 3; 4] / 2)%nat ->
       nth (S k) freqs 0 = nth k freqs 0 + IZR 44100 / INR (length [1; 2; 3; 4])) /\
    strictly_increasing freqs.
Proof.
  apply (fft_magnitude_first_bin [1; 2; 3; 4] 44100); simpl; lia.
Defined.

(** X7: multiplying every sample by [c] leaves the frequencies as they are
    and multiplies every magnitude by [|c|]. *)
Theorem fft_magnitude_scale c sig sr freqs mags :
  fft_magnitude sig sr = Some (freqs, mags) ->
  fft_magnitude (map (Rmult c) sig) sr = Some (freqs, map (Rmult (Rabs c)) mags).
Proof.
  unfold fft_magnitude. rewrite length_map.
  destruct (length sig <=? 1)%nat.
  - intros [= <- <-]. simpl. now rewrite Rmult_0_r.
  - destruct (sr =? 0)%Z; [discriminate|].
    intros [= <- <-]. do 2 f_equal.
    unfold Np.rfft. rewrite length_map, !map_map.
    apply map_ext. intros k. rewrite dft_bin_scale. apply cabs_scale.
Qed.

Lemma fft_magnitude_scale_witness :
  fft_magnitude (map (Rmult 3) [1; 2]) 44100 =
  Some (Np.rfftfreq 2 (1 / IZR 44100),
        map (Rmult (Rabs 3)) (map Np.cabs (Np.rfft [1; 2]))).
Proof.
  apply (fft_magnitude_scale 3 [1; 2] 44100).
  apply fft_magnitude_long; [simpl; lia|discriminate].
Defined.

(** X8: no magnitude is negative, and none exceeds the sum of the absolute
    values of the samples. *)
Theorem fft_magnitude_bound sig sr freqs mags :
  fft_magnitude sig sr = Some (freqs, mags) ->
  Forall (fun m => 0 <= m <= Np.sum (map Rabs sig)) mags.
Proof.
  assert (Hpos : 0 <= Np.sum (map Rabs sig)).
  { apply (sum_preserved (fun x => 0 <= x)); [lra|intros; lra|].
    apply Forall_forall. intros y Hy. apply in_map_iff in Hy as (v & <- & _).
    apply Rabs_pos. }
  unfold fft_magnitude. destruct (length sig <=? 1)%nat.
  - intros [= <- <-]. constructor; [lra|constructor].
  - destruct (sr =? 0)%Z; [discriminate|].
    intros [= <- <-]. apply Forall_forall. intros m Hm.
    apply in_map_iff in Hm as (z & <- & Hz).
    unfold Np.rfft in Hz. apply in_map_iff in Hz as (k & <- & _).
    split; [apply cabs_nonneg|apply cabs_dft_bin_le].
Qed.

Lemma fft_magnitude_bound_witness :
  Forall (fun m => 0 <= m <= Np.sum (map Rabs [1; -2]))
         (map Np.cabs (Np.rfft [1; -2])).
Proof.
  apply (fft_magnitude_bound [1; -2] 44100 (Np.rfftfreq 2 (1 / IZR 44100))).
  apply fft_magnitude_long; [simpl; lia|discriminate].
Defined.

(** ** The smoothing of the bands is a moving average *)

Lemma sum_app a b : Np.sum (a ++ b) = Np.sum a + Np.sum b.
Proof. induction a as [|x a IH]; simpl; [ring|]. rewrite IH. ring. Qed.

Lemma sum_map_zero {A} (f : A -> R) l :
  (forall m, In m l -> f m = 0) -> Np.sum (map f l) = 0.
Proof.
  induction l as [|m l IH]; intros H; simpl; auto.
  rewrite (H m) by (now left). rewrite IH; [ring|]. intros; apply H; now right.
Qed.

Lemma padd_nth a b n : nth n (Np.padd a b) 0 = nth n a 0 + nth n b 0.
Proof.
  revert b n; induction a as [|x a IH]; intros [|y b] [|n]; simpl; try ring.
  apply IH.
Qed.

Lemma scaled_nth x v n : nth n (map (Rmult x) v) 0 = x * nth n v 0.
Proof.
  revert n; induction v as [|y v IH]; intros [|n]; simpl; try ring. apply IH.
Qed.

(** Entry [n] of a full convolution is [sum_m a[m] * v[n-m]]. *)
Lemma convolve_full_nth a v : forall n,
  nth n (Np.convolve_full a v) 0 =
  Np.sum (map (fun m => nth m a 0 * nth (n - m) v 0) (seq 0 (S n))).
Proof.
  induction a as [|x a IH]; intros n.
  - cbn [Np.convolve_full]. rewrite sum_map_zero.
    + now destruct n.
    + intros m _. destruct m; simpl; ring.
  - cbn [Np.convolve_full]. destruct v as [|y v].
    + rewrite sum_map_zero.
      * now destruct n.
      * intros m _. destruct (n - m)%nat; simpl; ring.
    + rewrite padd_nth, scaled_nth.
      cbn [seq map Np.sum fold_right]. rewrite Nat.sub_0_r. cbn [nth]. f_equal.
      rewrite <- seq_shift, map_map.
      destruct n as [|n]; [reflexivity|].
      cbn [nth]. rewrite IH. reflexivity.
Qed.

Lemma kernel_nth j :
  nth j (map (fun x => x / 9) (repeat 1 9)) 0 = if (j <? 9)%nat then 1 / 9 else 0.
Proof.
  do 9 (destruct j as [|j]; [reflexivity|]). simpl. now destruct j.
Qed.

Lemma last_is_nth (a : list R) : last a 0 = nth (length a - 1) a 0.
Proof.
  induction a as [|x a IH]; [reflexivity|].
  destruct a as [|y a]; [reflexivity|].
  change (last (x :: y :: a) 0) with (last (y :: a) 0). rewrite IH.
  cbn [length]. rewrite !Nat.sub_succ, !Nat.sub_0_r. reflexivity.
Qed.

(** Edge padding repeats the first and the last entry. *)
Lemma pad_edge_nth out m : (1 <= length out)%nat -> (m < length out + 8)%nat ->
  nth m (Np.pad_edge out 4 4) 0 = nth (Nat.min (m - 4) (length out - 1)) out 0.
Proof.
  intros HB Hm. unfold Np.pad_edge.
  destruct (Nat.lt_ge_cases m 4) as [H4|H4].
  - rewrite app_nth1 by (rewrite repeat_length; lia).
    rewrite nth_repeat_lt by lia.
    replace (Nat.min (m - 4) (length out - 1)) with 0%nat by lia.
    now destruct out.
  - rewrite app_nth2 by (rewrite repeat_length; lia). rewrite repeat_length.
    destruct (Nat.lt_ge_cases (m - 4) (length out)) as [Hin|Hout].
    + rewrite app_nth1 by lia. f_equal. lia.
    + rewrite app_nth2 by lia. rewrite nth_repeat_lt by lia.
      rewrite last_is_nth. f_equal. lia.
Qed.

Lemma seq_from b n : seq b n = map (Nat.add b) (seq 0 n).
Proof.
  revert b; induction n as [|n IH]; intros b; [reflexivity|].
  cbn [seq map]. rewrite Nat.add_0_r. f_equal.
  rewrite IH, <- seq_shift, map_map. apply map_ext. intros k. lia.
Qed.

Lemma smooth_nth out B b : length out = B -> (9 <= B)%nat -> (b < B)%nat ->
  nth b (smooth out (Z.of_nat B)) 0 =
  Np.sum (map (fun d => nth (Nat.min (b + d - 4) (B - 1)) out 0) (seq 0 9)) / 9.
Proof.
  intros Hlen HB Hb. unfold smooth.
  rewrite (proj2 (Z.leb_le 9 (Z.of_nat B))) by lia.
  change (9 / 2)%nat with 4%nat.
  set (padded := Np.pad_edge out 4 4).
  set (kernel := map (fun x => x / 9) (repeat 1 9)).
  assert (Hp : length padded = (B + 8)%nat).
  { unfold padded, Np.pad_edge. rewrite !length_app, !repeat_length. lia. }
  assert (Hk : length kernel = 9%nat) by reflexivity.
  unfold Np.slice_inner, Np.convolve_same. rewrite Hp, Hk.
  replace (Nat.min (B + 8) 9) with 9%nat by lia.
  replace (Nat.max (B + 8) 9) with (B + 8)%nat by lia.
  change (9 - 1 - 9 / 2)%nat with 4%nat.
  assert (Hc : length (Np.convolve_full padded kernel) = (B + 16)%nat).
  { rewrite convolve_full_length.
    - rewrite Hp, Hk. lia.
    - intros E. rewrite E in Hp. simpl in Hp. lia.
    - discriminate. }
  rewrite length_firstn, length_skipn, Hc.
  replace (Nat.min (B + 8) (B + 16 - 4) - 4 - 4)%nat with B by lia.
  rewrite nth_firstn, (proj2 (Nat.ltb_lt b B)) by lia.
  rewrite nth_skipn, nth_firstn, (proj2 (Nat.ltb_lt (4 + b) (B + 8))) by lia.
  rewrite nth_skipn, convolve_full_nth.
  replace (S (4 + (4 + b))) with (b + 9)%nat by lia.
  rewrite seq_app, map_app, sum_app. cbn [Nat.add].
  rewrite sum_map_zero.
  2:{ intros m Hm. apply in_seq in Hm. unfold kernel. rewrite kernel_nth.
      rewrite (proj2 (Nat.ltb_ge _ _)) by lia. ring. }
  rewrite Rplus_0_l, seq_from, map_map.
  unfold Rdiv. rewrite Rmult_comm, <- sum_map_scale. f_equal.
  apply map_ext_in. intros d Hd. apply in_seq in Hd.
  unfold kernel. rewrite kernel_nth, (proj2 (Nat.ltb_lt _ 9)) by lia.
  unfold padded. rewrite pad_edge_nth by lia. rewrite Hlen.
  unfold Rdiv. ring.
Qed.

Lemma sum_bounds lo hi l : Forall (fun x => lo <= x <= hi) l ->
  INR (length l) * lo <= Np.sum l <= INR (length l) * hi.
Proof.
  induction 1 as [|x l Hx Hl IH].
  - simpl. lra.
  - cbn [length Np.sum fold_right]. rewrite S_INR.
    change (fold_right Rplus 0 l) with (Np.sum l). lra.
Qed.

(** X9: from nine bands on, smoothed band [b] is the mean of the nine
    values at the indices [b-4 .. b+4], an index before the first band
    counting as the first and one after the last as the last; so smoothing
    keeps the number of bands and never leaves the range of the values it
    is given. *)
Theorem smooth_moving_average out B :
  length out = B -> (9 <= B)%nat ->
  length (smooth out (Z.of_nat B)) = B /\
  (forall b, (b < B)%nat ->
     nth b (smooth out (Z.of_nat B)) 0 =
     Np.sum (map (fun d => nth (Nat.min (b + d - 4) (B - 1)) out 0) (seq 0 9)) / 9) /\
  (forall lo hi, Forall (fun x => lo <= x <= hi) out ->
     Forall (fun x => lo <= x <= hi) (smooth out (Z.of_nat B))).
Proof.
  intros Hlen HB. split; [|split].
  - rewrite smooth_length; lia.
  - intros b Hb. now apply smooth_nth.
  - intros lo hi Hr. apply Forall_nth. intros b d Hb.
    rewrite smooth_length in Hb by lia.
    rewrite (nth_indep _ d 0) by (rewrite smooth_length; lia).
    rewrite smooth_nth by lia.
    set (vals := map (fun d => nth (Nat.min (b + d - 4) (B - 1)) out 0) (seq 0 9)).
    assert (Hv : Forall (fun x => lo <= x <= hi) vals).
    { apply Forall_forall. intros y Hy. apply in_map_iff in Hy as (k & <- & _).
      rewrite Forall_forall in Hr. apply Hr, nth_In. lia. }
    pose proof (sum_bounds lo hi vals Hv) as Hs.
    replace (INR (length vals)) with 9 in Hs by (unfold vals; simpl; lra).
    lra.
Qed.

Lemma smooth_moving_average_witness :
  let out := [1; 2; 3; 4; 5; 6; 7; 8; 9] in
  length (smooth out (Z.of_nat 9)) = 9%nat /\
  (forall b, (b < 9)%nat ->
     nth b (smooth out (Z.of_nat 9)) 0 =
     Np.sum (map (fun d => nth (Nat.min (b + d - 4) (9 - 1)) out 0) (seq 0 9)) / 9) /\
  (forall lo hi, Forall (fun x => lo <= x <= hi) out ->
     Forall (fun x => lo <= x <= hi) (smooth out (Z.of_nat 9))).
Proof.
  intros out. apply (smooth_moving_average [1; 2; 3; 4; 5; 6; 7; 8; 9] 9).
  - reflexivity.
  - lia.
Defined.

(** ** What the accumulation keeps, the peak, and the failures *)

Lemma add_nth_sum out i v : (i < length out)%nat ->
  Np.sum (Np.add_nth out i v) = Np.sum out + v.
Proof.
  revert i; induction out as [|x out IH]; intros [|i] Hi; simpl in *; try lia.
  - ring.
  - rewrite IH by lia. ring.
Qed.

Lemma add_at_sum (g : R -> Z) (bins : list (R * R)) :
  forall out out', (forall f, 0 <= g f < Z.of_nat (length out))%Z ->
  Np.add_at out (map g (map fst bins)) (map snd bins) = Some out' ->
  Np.sum out' = Np.sum out + Np.sum (map snd bins).
Proof.
  induction bins as [|[f m] bins IH]; intros out out' Hg; simpl.
  - intros [= <-]. ring.
  - unfold Np.resolve. pose proof (Hg f) as Hf.
    rewrite (proj2 (Z.leb_le _ _)) by lia.
    rewrite (proj2 (Z.ltb_lt _ _)) by lia. simpl.
    intros E. apply IH in E.
    + rewrite E, add_nth_sum by lia. ring.
    + intros f'. rewrite add_nth_length. apply Hg.
Qed.

Lemma sum_repeat_0 n : Np.sum (repeat 0 n) = 0.
Proof. induction n; simpl; [reflexivity|]. change (fold_right Rplus 0 (repeat 0 n)) with (Np.sum (repeat 0 n)). rewrite IHn. ring. Qed.

(** X10: the accumulation loses nothing and counts nothing twice: the band
    sums add up to the total magnitude of the bins whose frequency lies in
    [[edges[0], edges[B]]], whether or not the edges are sorted. *)
Theorem accumulate_bands_conserves edges freqs mags B :
  length edges = S B -> (1 <= B)%nat -> length freqs = length mags ->
  exists acc, accumulate_bands freqs mags edges = Some acc /\
    Np.sum (sums_of acc) =
    band_total (fun f => Rleb (nth 0 edges 0) f && Rleb f (nth B edges 0)) freqs mags.
Proof.
  intros Hlen HB Hfm.
  unfold accumulate_bands, band_mask.
  rewrite (first_edge _ _ Hlen), (last_edge _ _ Hlen). cbn [obind].
  replace (Z.of_nat (length edges) - 1)%Z with (Z.of_nat B) by lia.
  unfold Np.zeros. rewrite (proj2 (Z.ltb_ge _ _)) by lia. cbn [obind].
  rewrite Nat2Z.id.
  set (kept := fun f => Rleb (nth 0 edges 0) f && Rleb f (nth B edges 0)).
  rewrite any_map. unfold band_total.
  destruct (existsb kept freqs) eqn:Eany; cbn [negb].
  - rewrite (bool_index_map_fst kept freqs mags Hfm).
    rewrite (bool_index_map_snd kept freqs mags Hfm). cbn [obind].
    destruct (add_at_spec (band_index edges (Z.of_nat B))
                (filter (fun xy => kept (fst xy)) (combine freqs mags))
                (repeat 0 B)) as (out & E & _ & _).
    { intros f. rewrite repeat_length. apply band_index_range; auto. }
    rewrite E. cbn [obind]. eexists; split; [reflexivity|]. cbn [sums_of].
    apply add_at_sum in E.
    + rewrite E, sum_repeat_0. ring.
    + intros f. rewrite repeat_length. apply band_index_range; auto.
  - eexists; split; [reflexivity|]. cbn [sums_of].
    rewrite sum_repeat_0, filter_none; [reflexivity|].
    apply existsb_fst_combine, Eany.
Qed.

Lemma accumulate_bands_two_kept :
  accumulate_bands [2; 3; 5] [1; 7; 9] [1; 2; 4] = Some (Sums [0; 0 + 1 + 7]).
Proof.
  unfold accumulate_bands, band_mask, band_index, Np.searchsorted_right.
  Reval. reflexivity.
Qed.

(** Of the bins at 2, 3 and 5 Hz the edges [1, 2, 4] keep the first two:
    their magnitudes 1 and 7 both land in band 1, and the sums add up to 8;
    the 9 of the bin at 5 Hz is left out. *)
Lemma accumulate_bands_conserves_witness :
  accumulate_bands [2; 3; 5] [1; 7; 9] [1; 2; 4] = Some (Sums [0; 0 + 1 + 7]) /\
  Np.sum [0; 0 + 1 + 7] = 1 + 7.
Proof.
  destruct (accumulate_bands_conserves [1; 2; 4] [2; 3; 5] [1; 7; 9] 2)
    as (acc & Eacc & Esum); [reflexivity|lia|reflexivity|].
  rewrite accumulate_bands_two_kept in Eacc. injection Eacc as <-.
  split; [apply accumulate_bands_two_kept|].
  cbn [sums_of] in Esum. rewrite Esum.
  unfold band_total. Reval. lra.
Defined.

Lemma amax_attained a mx : Np.amax a = Some mx -> In mx a.
Proof.
  intros E. destruct a as [|x a]; [discriminate|].
  destruct (amax_spec (x :: a) ltac:(discriminate)) as (mx' & E' & _ & Hin).
  rewrite E in E'. injection E' as <-.
  apply (Hin (fun y => In y (x :: a))). apply Forall_forall. auto.
Qed.

(** X11: whenever the aggregator returns, either no level exceeds 1e-8 or
    the largest level is exactly 1. *)
Theorem spectrum_to_bands_peak freqs mags edges out :
  spectrum_to_bands freqs mags edges = Some out ->
  Forall (fun x => x <= 1 / 100000000) out \/
  (In 1 out /\ Forall (fun x => x <= 1) out).
Proof.
  unfold spectrum_to_bands.
  destruct (accumulate_bands freqs mags edges) as [[zs|sums]|] eqn:E;
    cbn [obind]; [| |discriminate].
  - intros [= <-]. left.
    eapply Forall_impl; [|exact (accumulate_bands_nobins _ _ _ _ E)].
    intros x ->. lra.
  - set (sm := smooth (map Np.log1p sums) (Z.of_nat (length edges) - 1)).
    unfold normalise. destruct (Np.amax sm) as [mx|] eqn:Emx; [|discriminate].
    cbn [obind]. intros [= <-].
    assert (Hne : sm <> []) by (intros E0; rewrite E0 in Emx; discriminate).
    destruct (amax_spec sm Hne) as (mx' & E' & Hub & _).
    rewrite Emx in E'. injection E' as <-.
    destruct (Rltb (1 / 100000000) mx) eqn:Egt.
    + apply Rltb_true in Egt. right. split.
      * apply in_map_iff. exists mx. split; [|now apply amax_attained].
        field. lra.
      * apply Forall_forall. intros y Hy. apply in_map_iff in Hy as (x & <- & Hx).
        rewrite Forall_forall in Hub. specialize (Hub x Hx). simpl in Hub.
        apply Rmult_le_reg_r with mx; [lra|].
        unfold Rdiv. rewrite Rmult_assoc, Rinv_l by lra. lra.
    + apply Rltb_false in Egt. left.
      eapply Forall_impl; [|exact Hub]. intros x Hx. simpl in Hx. lra.
Qed.

Lemma ln_9_large : 1 / 100000000 < Np.log1p (0 + 1 + 7).
Proof.
  unfold Np.log1p. pose proof ln_lt_2 as H2.
  assert (H : ln 2 < ln (1 + (0 + 1 + 7))) by (apply ln_increasing; lra).
  lra.
Qed.

Lemma spectrum_to_bands_two_kept :
  let mx := Np.log1p (0 + 1 + 7) in
  spectrum_to_bands [2; 3; 5] [1; 7; 9] [1; 2; 4] =
  Some [Np.log1p 0 / mx; mx / mx].
Proof.
  intros mx.
  destruct (spectrum_to_bands_scaling [1; 2; 4] [2; 3; 5] [1; 7; 9] 2
              [0; 0 + 1 + 7] mx eq_refl accumulate_bands_two_kept) as [_ Hbig].
  - cbn. f_equal. apply Rmax_right. rewrite log1p_0.
    pose proof ln_9_large as Hbig. fold mx in Hbig. lra.
  - apply Hbig, ln_9_large.
Qed.

(** With bins at 2, 3 and 5 Hz and the edges [1, 2, 4], band 1 holds the
    magnitudes 1 and 7 and is the peak: its level is exactly 1, the level
    of band 0 is 0, and so not every level is below 1e-8. *)
Lemma spectrum_to_bands_peak_witness :
  exists out, spectrum_to_bands [2; 3; 5] [1; 7; 9] [1; 2; 4] = Some out /\
    nth 1 out 0 = 1 /\ In 1 out /\ Forall (fun x => x <= 1) out.
Proof.
  pose proof spectrum_to_bands_two_kept as E. cbv zeta in E.
  pose proof ln_9_large as Hbig.
  assert (E1 : Np.log1p (0 + 1 + 7) / Np.log1p (0 + 1 + 7) = 1) by (field; lra).
  eexists. split; [exact E|]. split; [exact E1|].
  destruct (spectrum_to_bands_peak _ _ _ _ E) as [Hsmall|Hpeak].
  - exfalso. inversion Hsmall as [|x l _ Hrest]; subst.
    inversion Hrest as [|y l' Hy _]; subst. lra.
  - exact Hpeak.
Defined.

Lemma last_cons_default (l : list R) : forall x e, last (x :: l) e = last l x.
Proof.
  induction l as [|y l IH]; intros x e; [reflexivity|].
  change (last (x :: y :: l) e) with (last (y :: l) e).
  now rewrite (IH y e), (IH y x).
Qed.

Lemma bool_index_mismatch {A} (a : list A) mask :
  length a <> length mask -> Np.bool_index a mask = None.
Proof.
  revert mask; induction a as [|x a IH]; intros [|b mask] H; simpl in *;
    try congruence.
  rewrite IH by lia. reflexivity.
Qed.

(** X12: the aggregator raises on an empty edge array; with edges given, if
    no frequency lies in [[edges[0], edges[-1]]] it returns [len(edges) - 1]
    zeros whatever the magnitudes are, even when there are more or fewer of
    them than frequencies; and if some frequency lies in that range while
    the two arrays differ in length, it raises. *)
Theorem spectrum_to_bands_failures freqs mags e edges :
  let kept := fun f => Rleb e f && Rleb f (last edges e) in
  spectrum_to_bands freqs mags [] = None /\
  (existsb kept freqs = false ->
     spectrum_to_bands freqs mags (e :: edges) = Some (repeat 0 (length edges))) /\
  (existsb kept freqs = true -> length freqs <> length mags ->
     spectrum_to_bands freqs mags (e :: edges) = None).
Proof.
  intros kept. split; [reflexivity|].
  assert (Elast : nth_error (e :: edges) (length (e :: edges) - 1)
                  = Some (last edges e)).
  { cbn [length]. rewrite Nat.sub_succ, Nat.sub_0_r.
    clear. revert e. induction edges as [|x edges IH]; intros e; [reflexivity|].
    cbn [length nth_error]. rewrite IH. f_equal. symmetry. apply last_cons_default. }
  assert (Ez : Np.zeros (Z.of_nat (length (e :: edges)) - 1)
               = Some (repeat 0 (length edges))).
  { unfold Np.zeros. cbn [length]. rewrite (proj2 (Z.ltb_ge _ _)) by lia.
    do 2 f_equal. lia. }
  split.
  - intros Hnone. unfold spectrum_to_bands, accumulate_bands, band_mask.
    rewrite Ez, Elast. cbn [obind nth_error]. fold kept.
    rewrite any_map, Hnone. reflexivity.
  - intros Hsome Hlen. unfold spectrum_to_bands, accumulate_bands, band_mask.
    rewrite Ez, Elast. cbn [obind nth_error]. fold kept.
    rewrite any_map, Hsome. cbn [negb].
    rewrite (bool_index_map_fst kept freqs freqs eq_refl). cbn [obind].
    rewrite bool_index_mismatch; [reflexivity|].
    rewrite length_map. congruence.
Qed.

Lemma spectrum_to_bands_failures_witness :
  spectrum_to_bands [5] [] [] = None /\
  spectrum_to_bands [5] [] [1; 2] = Some [0] /\
  spectrum_to_bands [3 / 2] [] [1; 2] = None.
Proof.
  destruct (spectrum_to_bands_failures [5] [] 1 [2]) as (Hempty & Hout & _).
  destruct (spectrum_to_bands_failures [3 / 2] [] 1 [2]) as (_ & _ & Hin).
  split; [exact Hempty|]. split.
  - apply Hout. Reval. reflexivity.
  - apply Hin; [Reval; reflexivity|discriminate].
Defined.

(** ** Band edges: closed form and degenerate band counts *)

(** X13: edge [i] of [B] is [lo * (hi / lo) ^ (i / B)] for the clamped
    cutoffs [lo] and [hi]; and when [1 <= low <= high - 1] and
    [high <= sr/2 - 1] nothing is clamped: the edges run from [low] to
    [high]. *)
Theorem compute_band_edges_closed_form sr low high B : (1 <= B)%nat ->
  let lo := clamped_low sr low high in
  let hi := clamped_high sr low high in
  exists edges, compute_band_edges sr low high (Z.of_nat B) = Some edges /\
    (forall i, (i <= B)%nat ->
       nth i edges 0 = lo * Rpower (hi / lo) (INR i / INR B)) /\
    (1 <= low <= high - 1 -> high <= sr / 2 - 1 ->
       lo = low /\ hi = high /\ nth 0 edges 0 = low /\ nth B edges 0 = high).
Proof.
  intros HB lo hi.
  pose proof (clamped_low_ge_1 sr low high) as Hlo.
  pose proof (clamped_low_lt_high sr low high) as Hhi.
  fold lo in Hlo, Hhi. fold hi in Hhi.
  destruct (compute_band_edges_ends sr low high B HB) as (edges & E & E0 & EB).
  fold lo in E0. fold hi in EB.
  exists edges. split; [exact E|].
  assert (HBn : 0 < INR B) by (apply lt_0_INR; lia).
  split.
  - intros i Hi.
    destruct (compute_band_edges_nth sr low high B i HB Hi) as (edges' & E' & _ & En).
    cbv zeta in En. fold lo hi in En.
    rewrite E in E'. injection E' as <-. rewrite En.
    rewrite Rplus_comm, Rpower_plus, Rpower_10_log10 by lra. f_equal.
    unfold Rpower. f_equal. unfold Np.log10.
    replace (ln (hi / lo)) with (ln hi - ln lo).
    2:{ unfold Rdiv. rewrite ln_mult, ln_Rinv; try lra.
        apply Rinv_0_lt_compat; lra. }
    field. split; [lra|]. pose proof ln_10_pos; lra.
  - intros Hlow Hhigh.
    assert (El : lo = low).
    { unfold lo, clamped_low, Rmax, Rmin. repeat destruct (Rle_dec _ _); lra. }
    assert (Eh : hi = high).
    { unfold hi, clamped_high. fold lo. rewrite El.
      assert (Em : Rmin high (sr / 2 - 1) = high) by (apply Rmin_left; lra).
      rewrite Em. now rewrite (proj2 (Rleb_false _ _)) by lra. }
    repeat split; congruence.
Qed.

Lemma compute_band_edges_closed_form_witness :
  exists edges, compute_band_edges 44100 30 12000 (Z.of_nat 360) = Some edges /\
    (forall i, (i <= 360)%nat ->
       nth i edges 0 =
       clamped_low 44100 30 12000 *
       Rpower (clamped_high 44100 30 12000 / clamped_low 44100 30 12000)
              (INR i / INR 360)) /\
    (1 <= 30 <= 12000 - 1 -> 12000 <= 44100 / 2 - 1 ->
       clamped_low 44100 30 12000 = 30 /\ clamped_high 44100 30 12000 = 12000 /\
       nth 0 edges 0 = 30 /\ nth 360 edges 0 = 12000).
Proof.
  apply (compute_band_edges_closed_form 44100 30 12000 360). lia.
Defined.

(** X14: with no band the calculator returns the clamped low cutoff as the
    only edge, with a band count of -1 it returns no edge, and with a
    smaller one it raises. *)
Theorem compute_band_edges_degenerate sr low high :
  compute_band_edges sr low high 0 = Some [clamped_low sr low high] /\
  compute_band_edges sr low high (-1) = Some [] /\
  (forall bands, (bands < -1)%Z -> compute_band_edges sr low high bands = None).
Proof.
  pose proof (clamped_low_ge_1 sr low high) as Hlo.
  pose proof (clamped_low_lt_high sr low high) as Hhi.
  assert (Hcases : forall num,
            compute_band_edges sr low high (num - 1) =
            Np.geomspace (clamped_low sr low high) (clamped_high sr low high) num).
  { intros num. unfold compute_band_edges. now replace (num - 1 + 1)%Z with num by lia. }
  assert (Hgeo : forall num,
            Np.geomspace (clamped_low sr low high) (clamped_high sr low high) num =
            (result <- Np.logspace (Np.log10 (clamped_low sr low high))
                                   (Np.log10 (clamped_high sr low high)) num ;;
             Some (let result := if (0 <? num)%Z
                                 then Np.set_first result (clamped_low sr low high)
                                 else result in
                   if (1 <? num)%Z
                   then Np.set_last result (clamped_high sr low high)
                   else result))).
  { intros num. unfold Np.geomspace.
    destruct (Req_dec_T _ 0); [lra|]. destruct (Req_dec_T _ 0); [lra|]. reflexivity. }
  split; [|split].
  - change 0%Z with (1 - 1)%Z. rewrite Hcases, Hgeo. reflexivity.
  - change (-1)%Z with (0 - 1)%Z. rewrite Hcases, Hgeo. reflexivity.
  - intros bands Hb. replace bands with (bands + 1 - 1)%Z by lia.
    rewrite Hcases, Hgeo. unfold Np.logspace, Np.linspace.
    now rewrite (proj2 (Z.ltb_lt _ _)) by lia.
Qed.

(** ** The renderer: shape of the bars, empty passes, glow alpha *)

Lemma bar_height_range cfg level : (0 <= BAR_MAX_EXTRA cfg)%Z ->
  IZR (BAR_MIN cfg) <= bar_height cfg level <= IZR (BAR_MIN cfg) + IZR (BAR_MAX_EXTRA cfg).
Proof.
  intros He. unfold bar_height.
  assert (Hx : 0 <= IZR (BAR_MAX_EXTRA cfg)) by (now apply IZR_le).
  pose proof (clipR_unit level) as Hc.
  pose proof (power_nonneg (Np.clipR level 0 1) (9 / 10)) as Hp0.
  assert (Hp1 : Np.power (Np.clipR level 0 1) (9 / 10) <= 1).
  { pose proof (power_monotone (Np.clipR level 0 1) 1 (9 / 10)
                  ltac:(lra) ltac:(lra)) as Hm.
    now rewrite power_1 in Hm. }
  split.
  - pose proof (Rmult_le_pos _ _ Hx Hp0). lra.
  - apply Rplus_le_compat_l.
    rewrite <- (Rmult_1_r (IZR (BAR_MAX_EXTRA cfg))) at 2.
    now apply Rmult_le_compat_l.
Qed.

(** X15: a pass draws one line per level, in the colour and the width of
    the pass (never thinner than 1); every line starts on the circle of
    radius [BASE_RADIUS] around the centre, points straight away from the
    centre, and ends between [BAR_MIN] and [BAR_MIN + BAR_MAX_EXTRA]
    further out. *)
Theorem draw_spokes_radial cfg d levels color width s img :
  (0 <= BAR_MAX_EXTRA cfg)%Z ->
  nth_error (images s) d = Some img ->
  let w := Z.max 1 (match width with None => BAR_THICKNESS cfg | Some w => w end) in
  exists ops,
    draw_spokes cfg d levels color width s = Some (tt, set_image s d (drawn img ops)) /\
    length ops = length levels /\
    (1 <= w)%Z /\
    Forall (radial_bar cfg color w) ops.
Proof.
  intros He Himg w. eexists. split; [now apply draw_spokes_ops|].
  fold w. split; [|split].
  - unfold spoke_ops. now rewrite length_map, length_seq.
  - unfold w. lia.
  - unfold spoke_ops. apply Forall_forall. intros op Hop.
    apply in_map_iff in Hop as (i & <- & _). cbv zeta. unfold radial_bar.
    set (theta := 2 * PI * INR i / INR (length levels)).
    set (h := bar_height cfg (nth i levels 0)).
    pose proof (sin2_cos2 theta) as Hsc. unfold Rsqr in Hsc.
    split; [reflexivity|]. split; [reflexivity|]. split.
    + replace (_ + _) with
        (IZR (BASE_RADIUS cfg) * IZR (BASE_RADIUS cfg) *
         (sin theta * sin theta + cos theta * cos theta)) by ring.
      rewrite Hsc. ring.
    + exists h. split; [now apply bar_height_range|]. split; [|split]; try ring.
      replace (_ + _) with
        ((IZR (BASE_RADIUS cfg) + h) * (IZR (BASE_RADIUS cfg) + h) *
         (sin theta * sin theta + cos theta * cos theta)) by ring.
      rewrite Hsc. ring.
Qed.

Lemma draw_spokes_radial_witness :
  let s := {| images := [Blank (1, 1)%Z]; edges_obj := [] |} in
  exists ops,
    draw_spokes script_config 0%nat [0; 1] (255, 255, 255, 255)%Z (Some 0%Z) s =
      Some (tt, set_image s 0%nat (drawn (Blank (1, 1)%Z) ops)) /\
    length ops = length [0; 1] /\
    (1 <= Z.max 1 0)%Z /\
    Forall (radial_bar script_config (255, 255, 255, 255)%Z (Z.max 1 0)) ops.
Proof.
  intros s.
  apply (draw_spokes_radial script_config 0%nat [0; 1] (255, 255, 255, 255)%Z
           (Some 0%Z) s (Blank (1, 1)%Z)).
  - simpl. lia.
  - reflexivity.
Defined.

(** X16: a pass over no levels draws nothing and leaves every object as it
    is, whatever the address it is given; a pass over some levels raises
    when there is no image at the address. *)
Theorem draw_spokes_empty_or_missing cfg d color width s :
  draw_spokes cfg d [] color width s = Some (tt, s) /\
  (forall levels, levels <> [] -> nth_error (images s) d = None ->
     draw_spokes cfg d levels color width s = None).
Proof.
  split; [reflexivity|].
  intros levels Hne Hnone. unfold draw_spokes.
  rewrite linspace_open. unfold bind at 1, lift at 1.
  destruct levels as [|l levels]; [congruence|].
  cbn [length seq map combine for_each]. unfold bind, draw. now rewrite Hnone.
Qed.

(** ** Silence, and when a frame is produced *)

Lemma mul_zero_l a b : Forall (fun x => x = 0) a -> Forall (fun x => x = 0) (Np.mul a b).
Proof.
  intros Ha; revert b; induction Ha as [|x a Hx Ha IH]; intros [|y b]; simpl; auto.
  constructor; [subst; ring|apply IH].
Qed.

(** X18: when the samples extracted around a timestamp are all 0, or there
    are none, every band level of the frame is 0 and every bar has the
    length [BAR_MIN]. *)
Theorem silent_window_levels cfg audio duration edges t B arr :
  window_samples cfg audio duration t (WINDOW_SEC cfg) (SR cfg) = Some arr ->
  Forall (fun x => x = 0) arr ->
  SR cfg <> 0%Z -> 0 <= IZR (SR cfg) * WINDOW_SEC cfg ->
  length edges = S B -> (1 <= B)%nat ->
  levels_at cfg audio duration edges t = Some (repeat 0 B) /\
  Forall (fun level => bar_height cfg level = IZR (BAR_MIN cfg)) (repeat 0 B).
Proof.
  intros Harr Hz Hsr Hwin Hlen HB. split.
  - unfold levels_at.
    assert (Esig : exists n, get_audio_window cfg audio duration t
                               (WINDOW_SEC cfg) (SR cfg) = Some (repeat 0 n)).
    { unfold get_audio_window. rewrite Harr. cbn [obind].
      destruct (_ =? 0)%nat.
      - unfold Np.zeros. rewrite (proj2 (Z.ltb_ge _ _)) by (now apply zero_fill_nonneg).
        eauto.
      - eexists. f_equal. apply all_zero_repeat. now apply mul_zero_l. }
    destruct Esig as (n & ->). cbn [obind].
    destruct (fft_magnitude_zero n (SR cfg) Hsr) as (fs & ms & -> & Hl & Hms).
    cbn [obind fst snd]. now apply spectrum_to_bands_zero.
  - apply repeat_preserved. unfold bar_height.
    rewrite clipR_id by lra. rewrite power_0. ring.
Qed.

Lemma silent_window_levels_witness :
  let mute := {| subclip := None;
                 subclipped := Some (fun _ _ => Some (fun _ => Some (Arr1 [0; 0]))) |} in
  levels_at script_config mute 2 [1; 2] 1 = Some (repeat 0 1) /\
  Forall (fun level => bar_height script_config level = IZR (BAR_MIN script_config))
         (repeat 0 1).
Proof.
  intros mute.
  apply (silent_window_levels script_config mute 2 [1; 2] 1 1 [0; 0]).
  - unfold window_samples.
    destruct (window_range_inside script_config 2 1 (WINDOW_SEC script_config)
                ltac:(simpl; lra) ltac:(lra)) as (-> & _).
    reflexivity.
  - repeat constructor.
  - discriminate.
  - simpl. lra.
  - reflexivity.
  - lia.
Defined.

Lemma script_startup_returns :
  exists s0, startup square_files script_config "bg.png" "cover" = Some s0.
Proof.
  destruct (compute_band_edges_nth 44100 30 12000 360 0 ltac:(lia) ltac:(lia))
    as (edges & Eedges & _).
  destruct load_and_fit_background_cover_fits as (fitted & Efit).
  unfold startup. cbn [W H script_config]. rewrite Efit.
  cbn [obind]. unfold BAND_EDGES.
  cbn [SR LOW_HZ HIGH_HZ SPOKES script_config].
  change 360%Z with (Z.of_nat 360).
  rewrite Eedges. cbn [obind]. eauto.
Qed.

Lemma silent_stereo_cuts D sr : cuts_inside (silent_stereo D) D sr.
Proof.
  intros a b Hab Hb. unfold subclip_compat, silent_stereo. cbn [subclip subclipped].
  rewrite (proj2 (Rleb_false D a)) by lra. eexists _, _. split; reflexivity.
Qed.

Lemma script_frames_are_produced_witness :
  exists s0 levels bg s',
    startup square_files script_config "bg.png" "cover" = Some s0 /\
    levels_at script_config (silent_stereo 2) 2 (edges_obj s0) 1 = Some levels /\
    length levels = 360%nat /\
    nth_error (images s0) 0 = Some bg /\
    make_frame_rgb script_config (silent_stereo 2) 2 0%nat 1 s0 =
    Some (ToRGB (drawn bg (frame_ops script_config levels)), s').
Proof.
  destruct script_startup_returns as (s0 & Hs0).
  assert (Ht : 0 <= 1 < 2) by lra.
  destruct (script_frames_are_produced square_files "bg.png" "cover"
              (silent_stereo 2) 2 s0 1 Hs0 (silent_stereo_cuts 2 _) Ht)
    as (levels & bg & s' & H).
  exists s0, levels, bg, s'. split; [exact Hs0|exact H].
Defined.

(** Past the end of the track the clip refuses the range, and the frame is
    not produced: at second 3 of a track of 2 seconds the window would
    start at 2.95. *)
Example frame_past_the_end_raises s :
  make_frame_rgb script_config (silent_stereo 2) 2 0%nat 3 s = None.
Proof.
  unfold make_frame_rgb. unfold bind at 1. rewrite frame_levels_eq.
  unfold levels_at, get_audio_window, window_samples.
  destruct (window_range_outside script_config 2 3 (WINDOW_SEC script_config))
    as (_ & Hlate); [simpl; lra|lra|reflexivity|].
  rewrite Hlate by (simpl; lra). cbn [obind fst snd].
  unfold subclip_compat, silent_stereo. cbn [subclip subclipped].
  rewrite (proj2 (Rleb_true 2 _)) by (simpl; lra). reflexivity.
Qed.
